(** * zeep.wsdl.wsdl: loading a WSDL document and resolving its imports

    A shallow embedding of [src/zeep/wsdl/wsdl.py]: the [WSDL] handle with its
    two registries, the [Definitions] objects (one per parsed document) and
    the functions [Definitions.__init__], [parse_imports], [parse_types],
    [parse_messages], [parse_ports], [parse_binding], [parse_service],
    [merge] and [resolve_imports].

    Python objects live in a store: a [Definitions] is addressed by its
    position in [heap], an lxml schema element by its position in [nodes].
    Python dictionaries are insertion-ordered association lists.  Calls that
    leave the module (retrieving a document, [entity.resolve]) and calls of
    [merge] are recorded in [trace]. *)

From Stdlib Require Import String Ascii List Arith Lia Bool.
From stdpp Require Import base list strings.
Import ListNotations.
Local Open Scope string_scope.

(** ** Python strings *)

Module Py.

(** [s.startswith(p)] *)
Definition startswith (s p : string) : bool := String.prefix p s.

(** [p in s] for a non-empty [p] *)
Definition contains (p s : string) : bool :=
  match String.index 0 p s with Some _ => true | None => false end.

(** ['%s' % x] where [x] is a string or [None] *)
Definition str (x : option string) : string :=
  match x with Some s => s | None => "None" end.

(** truth value of a string or [None] *)
Definition truthy (x : option string) : bool :=
  match x with Some (String _ _) => true | _ => false end.

Definition slash : ascii := "/"%char.

Fixpoint has_slash (p : string) : bool :=
  match p with
  | EmptyString => false
  | String c r => if Ascii.eqb c slash then true else has_slash r
  end.

(** [p[:p.rfind('/') + 1]] *)
Fixpoint upto_last_slash (p : string) : string :=
  match p with
  | EmptyString => EmptyString
  | String c r => if has_slash p then String c (upto_last_slash r) else EmptyString
  end.

Fixpoint drop_slashes (l : list ascii) : list ascii :=
  match l with
  | c :: r => if Ascii.eqb c slash then drop_slashes r else l
  | [] => []
  end.

(** [s.rstrip('/')] *)
Definition rstrip_slash (s : string) : string :=
  string_of_list_ascii (rev (drop_slashes (rev (list_ascii_of_string s)))).

(** [posixpath.isabs] *)
Definition isabs (s : string) : bool := startswith s "/".

(** [posixpath.dirname]: the head is stripped of trailing slashes unless
    it consists of slashes only. *)
Definition dirname (p : string) : string :=
  let head := upto_last_slash p in
  match rstrip_slash head with
  | EmptyString => head
  | stripped => stripped
  end.

Fixpoint endswith_slash (s : string) : bool :=
  match s with
  | EmptyString => false
  | String c EmptyString => Ascii.eqb c slash
  | String _ r => endswith_slash r
  end.

(** [posixpath.join(a, b)] *)
Definition join (a b : string) : string :=
  if startswith b "/" then b
  else match a with
       | EmptyString => b
       | _ => if endswith_slash a then a ++ b else a ++ "/" ++ b
       end.

End Py.

(** ** Python dictionaries

    A [dict] keeps its keys in insertion order; assigning to a key that is
    present replaces the value in place. *)

Section Dict.
Context {K V : Type} `{EqDecision K}.

Fixpoint dict_get (k : K) (d : list (K * V)) : option V :=
  match d with
  | [] => None
  | (k', v) :: r => if decide (k = k') then Some v else dict_get k r
  end.

(** [k in d] *)
Definition dict_in (k : K) (d : list (K * V)) : bool :=
  match dict_get k d with Some _ => true | None => false end.

(** [d[k] = v] *)
Fixpoint dict_set (k : K) (v : V) (d : list (K * V)) : list (K * V) :=
  match d with
  | [] => [(k, v)]
  | (k', v') :: r =>
      if decide (k = k') then (k, v) :: r else (k', v') :: dict_set k v r
  end.

(** [d.update(other)] *)
Definition dict_update (d other : list (K * V)) : list (K * V) :=
  fold_left (fun acc kv => dict_set (fst kv) (snd kv) acc) other d.

Definition dict_keys (d : list (K * V)) : list K := map fst d.
Definition dict_values (d : list (K * V)) : list V := map snd d.
End Dict.

Abbreviation dict K V := (list (K * V)).

(** ** lxml elements *)

#[local] Unset Elimination Schemes.
Inductive element : Type :=
  Element (tag : string) (attrib : dict string string)
          (nsmap : dict (option string) string) (children : list element).

#[local] Set Elimination Schemes.

Definition tag (e : element) : string := let 'Element t _ _ _ := e in t.
Definition attrib (e : element) : dict string string := let 'Element _ a _ _ := e in a.
Definition el_nsmap (e : element) : dict (option string) string :=
  let 'Element _ _ n _ := e in n.
Definition children (e : element) : list element := let 'Element _ _ _ c := e in c.

(** [e.get(name)] *)
Definition get (e : element) (name : string) : option string := dict_get name (attrib e).

(** [e.set(name, value)] *)
Definition set (e : element) (name value : string) : element :=
  Element (tag e) (dict_set name value (attrib e)) (el_nsmap e) (children e).

(** [QName(ns, local).text] *)
Definition QName (ns local : string) : string := "{" ++ ns ++ "}" ++ local.

(** [e.findall(path)] for a path that is one qualified tag: the children
    of [e] with that tag, in document order. *)
Definition findall (e : element) (qtag : string) : list element :=
  List.filter (fun c => String.eqb (tag c) qtag) (children e).

(** [e.find(path)]: the first such child or [None]. *)
Definition find (e : element) (qtag : string) : option element :=
  head (findall e qtag).

Definition NSMAP_wsdl : string := "http://schemas.xmlsoap.org/wsdl/".
Definition XSD_2001 : string := "http://www.w3.org/2001/XMLSchema".
Definition XSD_1999 : string := "http://www.w3.org/1999/XMLSchema".

(** [zeep.utils.findall_multiple_ns(node, name, namespace_sets)] with the two
    namespace sets of [parse_types]: the matches under the first set, then
    those under the second. *)
Definition findall_multiple_ns (node : element) (local : string) (nss : list string)
  : list element :=
  flat_map (fun ns => findall node (QName ns local)) nss.

(** ** Objects *)

Definition oid := nat.

(** The classes of [zeep.wsdl.definitions] and [zeep.wsdl.soap] whose
    instances fill the four maps. *)
Inductive entity_class : Type :=
  AbstractMessage | PortType | Soap11Binding | Soap12Binding | Service.

(** An entity: its class, [name.text] and the [Definitions] that parsed it. *)
Record entity : Type := Entity {
  ent_class : entity_class;
  ent_name : string;
  ent_wsdl : oid
}.

(** [zeep.xsd.Schema(node, transport, schema_references)]: an opaque object
    built from a schema element of the store. *)
Record Schema : Type := MkSchema { schema_node : nat }.

Record Definitions : Type := MkDefinitions {
  location : string;
  target_namespace : option string;
  nsmap : dict (option string) string;
  schema : option Schema;
  port_types : dict string entity;
  messages : dict string entity;
  bindings : dict string entity;
  services : dict string entity;
  imports : dict (option string) oid
}.

Definition set_schema (v : option Schema) (d : Definitions) : Definitions :=
  MkDefinitions (location d) (target_namespace d) (nsmap d) v (port_types d)
    (messages d) (bindings d) (services d) (imports d).
Definition set_port_types (v : dict string entity) (d : Definitions) : Definitions :=
  MkDefinitions (location d) (target_namespace d) (nsmap d) (schema d) v
    (messages d) (bindings d) (services d) (imports d).
Definition set_messages (v : dict string entity) (d : Definitions) : Definitions :=
  MkDefinitions (location d) (target_namespace d) (nsmap d) (schema d) (port_types d)
    v (bindings d) (services d) (imports d).
Definition set_bindings (v : dict string entity) (d : Definitions) : Definitions :=
  MkDefinitions (location d) (target_namespace d) (nsmap d) (schema d) (port_types d)
    (messages d) v (services d) (imports d).
Definition set_services (v : dict string entity) (d : Definitions) : Definitions :=
  MkDefinitions (location d) (target_namespace d) (nsmap d) (schema d) (port_types d)
    (messages d) (bindings d) v (imports d).
Definition set_imports (v : dict (option string) oid) (d : Definitions) : Definitions :=
  MkDefinitions (location d) (target_namespace d) (nsmap d) (schema d) (port_types d)
    (messages d) (bindings d) (services d) v.

#[global] Instance Definitions_inhabited : Inhabited Definitions :=
  populate (MkDefinitions "" None [] None [] [] [] [] []).
#[global] Instance element_inhabited : Inhabited element :=
  populate (Element "" [] [] []).

(** Calls recorded in the log: a document was retrieved from [location] and
    parsed; [self.merge(other, namespace)] was called; [e.resolve(definitions)]
    was called and returned. *)
Inductive event : Type :=
| Fetch (location : string)
| Merge (self other : oid) (namespace : option string)
| Resolve (e : entity) (definitions : oid).

(** The [WSDL] handle: the two registries of [WSDL.__init__], and the store
    they point into. *)
Record WSDL : Type := MkWSDL {
  heap : list Definitions;
  nodes : list element;
  _definitions : dict (option string) oid;
  _schema_references : dict string nat;
  trace : list event
}.

Definition set_heap (h : list Definitions) (w : WSDL) : WSDL :=
  MkWSDL h (nodes w) (_definitions w) (_schema_references w) (trace w).
Definition set_nodes (n : list element) (w : WSDL) : WSDL :=
  MkWSDL (heap w) n (_definitions w) (_schema_references w) (trace w).
Definition set_definitions (r : dict (option string) oid) (w : WSDL) : WSDL :=
  MkWSDL (heap w) (nodes w) r (_schema_references w) (trace w).
Definition set_schema_references (r : dict string nat) (w : WSDL) : WSDL :=
  MkWSDL (heap w) (nodes w) (_definitions w) r (trace w).
Definition log (e : event) (w : WSDL) : WSDL :=
  MkWSDL (heap w) (nodes w) (_definitions w) (_schema_references w) (trace w ++ [e]).

(** The object behind a reference. *)
Definition obj (w : WSDL) (o : oid) : Definitions := heap w !!! o.

(** Attribute assignment on the object behind a reference. *)
Definition update (o : oid) (f : Definitions -> Definitions) (w : WSDL) : WSDL :=
  set_heap (alter f o (heap w)) w.

(** ** Exceptions and the monad of the module *)

Inductive exn : Type :=
| IOError             (* open(location) failed *)
| TransportError      (* transport.load(location) failed *)
| XMLSyntaxError      (* parse_xml rejected the content *)
| TypeError           (* argument of type NoneType is not iterable *)
| AttributeError      (* object has no such attribute *)
| ParseError          (* a declaration that the entity parsers cannot name *)
| ReferenceError.     (* a reference that an entity cannot resolve *)

(** A computation returns a value and a state, raises, or uses up the fuel
    that bounds the depth of its recursion. *)
Inductive outcome (A : Type) : Type :=
| Returned (a : A) (w : WSDL)
| Raised (e : exn)
| Diverged.
Arguments Returned {A} a w.
Arguments Raised {A} e.
Arguments Diverged {A}.

Definition M (A : Type) : Type := WSDL -> outcome A.

Definition ret {A} (a : A) : M A := fun w => Returned a w.
Definition raise {A} (e : exn) : M A := fun _ => Raised e.
Definition bind {A B} (c : M A) (k : A -> M B) : M B :=
  fun w => match c w with
           | Returned a w' => k a w'
           | Raised e => Raised e
           | Diverged => Diverged
           end.
Definition gets {A} (f : WSDL -> A) : M A := fun w => Returned (f w) w.
Definition modify (f : WSDL -> WSDL) : M unit := fun w => Returned tt (f w).

Notation "x <- c ;; k" := (bind c (fun x => k))
  (at level 100, c at next level, right associativity).
Notation "c ;; k" := (bind c (fun _ => k))
  (at level 100, right associativity).

(** [for x in l: body(x)] *)
Fixpoint for_each {A} (l : list A) (body : A -> M unit) : M unit :=
  match l with
  | [] => ret tt
  | x :: r => body x ;; for_each r body
  end.

(** ** The collaborators

    What the module receives from outside: the documents behind locations
    ([transport.load] for http(s) locations, [open] for paths, each followed
    by [parse_xml]; [None] stands for content that does not parse), the
    [match] class methods of the two SOAP binding classes, and the [resolve]
    method of the entities: [entity_resolve x d] tells whether [x] finds its
    references in the Definitions object [d]. *)

Record Environment : Type := MkEnvironment {
  remote : dict string (option element);
  files : dict string (option element);
  Soap11Binding_match : element -> bool;
  Soap12Binding_match : element -> bool;
  entity_resolve : entity -> Definitions -> bool
}.

Section Module.
Context (env : Environment).

(** Lines 75-80: retrieve and parse the document at [location]. *)
Definition load_document (location : string) : M element :=
  fun w =>
    let http := Py.startswith location "http://" || Py.startswith location "https://" in
    match dict_get location (if http then remote env else files env) with
    | None => Raised (if http then TransportError else IOError)
    | Some None => Raised XMLSyntaxError
    | Some (Some doc) => Returned doc (log (Fetch location) w)
    end.

(** Allocation of a [Definitions] with the attributes of lines 64-73, 82
    and 84.  An object whose document cannot be retrieved is never seen by
    anyone, so it is allocated once the document is there. *)
Definition new_Definitions (location : string) (doc : element) : M oid :=
  fun w =>
    Returned (length (heap w))
      (set_heap (heap w ++ [MkDefinitions location (get doc "targetNamespace")
                              (el_nsmap doc) None [] [] [] [] []]) w).

(** [_parse_content(etree.tostring(node))]: a fresh element object. *)
Definition reparse (node : element) : M nat :=
  fun w => Returned (length (nodes w)) (set_nodes (nodes w ++ [node]) w).

Fixpoint for_fold {A S} (l : list A) (acc : S) (body : S -> A -> M S) : M S :=
  match l with
  | [] => ret acc
  | x :: r => acc' <- body acc x ;; for_fold r acc' body
  end.

(** Modelled from the spec: the [parse] class methods of [AbstractMessage],
    [PortType], [Service] and the SOAP bindings live in
    [zeep.wsdl.definitions] and [zeep.wsdl.soap], which are not under src/.
    The spec keys the four maps by qualified name, ["{namespace}localName"],
    each declaration being named within the target namespace of its
    document; a document without target namespace yields the bare local
    name.  A declaration without [name] cannot be keyed. *)
Definition entity_parse (cls : entity_class) (self : oid) (node : element) : M entity :=
  d <- gets (fun w => obj w self) ;;
  match get node "name" with
  | None => raise ParseError
  | Some n =>
      ret (Entity cls
             (match target_namespace d with Some ns => QName ns n | None => n end)
             self)
  end.

(** Lines 163-173: the body of the loop of [parse_imports].  [build] is
    the constructor call [Definitions(self.wsdl, location)]. *)
Definition parse_import (build : string -> M oid) (self : oid) (import_node : element)
  : M unit :=
  self_location <- gets (fun w => location (obj w self)) ;;
  let namespace := get import_node "namespace" in
  match get import_node "location" with
  | None => raise TypeError
  | Some location =>
      let location :=
        if negb (Py.contains "://" location) && negb (Py.isabs location)
        then Py.join (Py.dirname self_location) location
        else location in
      registry <- gets _definitions ;;
      match dict_get namespace registry with
      | Some registered =>
          modify (update self (fun d =>
            set_imports (dict_set namespace registered (imports d)) d))
      | None =>
          wsdl <- build location ;;
          modify (update self (fun d =>
            set_imports (dict_set namespace wsdl (imports d)) d))
      end
  end.

(** Lines 162-173 *)
Definition parse_imports (build : string -> M oid) (self : oid) (doc : element) : M unit :=
  for_each (findall doc (QName NSMAP_wsdl "import")) (parse_import build self).

Definition import_tag : string := QName XSD_2001 "import".

(** Lines 213-218 on one schema element: its [import] children without a
    (non-empty) [schemaLocation] get the synthetic one. *)
Definition set_schema_locations (schema_node : element) : element :=
  Element (tag schema_node) (attrib schema_node) (el_nsmap schema_node)
    (map (fun import_node =>
            if String.eqb (tag import_node) import_tag
            then if Py.truthy (get import_node "schemaLocation") then import_node
                 else set import_node "schemaLocation"
                        ("intschema+" ++ Py.str (get import_node "namespace"))
            else import_node)
         (children schema_node)).

(** Lines 188-223 *)
Definition parse_types (doc : element) : M (option Schema) :=
  match find doc (QName NSMAP_wsdl "types") with
  | None => ret None
  | Some types =>
      match findall_multiple_ns types "schema" [XSD_2001; XSD_1999] with
      | [] => ret None
      | first :: rest =>
          schema_nodes <- for_fold (first :: rest) []
                            (fun acc schema_node => r <- reparse schema_node ;; ret (acc ++ [r])%list) ;;
          for_each schema_nodes (fun schema_node =>
            modify (fun w =>
              let tns := get (nodes w !!! schema_node) "targetNamespace" in
              set_schema_references
                (dict_set ("intschema+" ++ Py.str tns) schema_node (_schema_references w)) w)) ;;
          for_each schema_nodes (fun schema_node =>
            modify (fun w => set_nodes (alter set_schema_locations schema_node (nodes w)) w)) ;;
          ret (Some (MkSchema (List.hd 0 schema_nodes)))
      end
  end.

Definition parse_named (cls : entity_class) (local : string) (self : oid) (doc : element)
  : M (dict string entity) :=
  for_fold (findall doc (QName NSMAP_wsdl local)) []
    (fun result node =>
       x <- entity_parse cls self node ;;
       ret (dict_set (ent_name x) x result)).

(** Lines 233-237 *)
Definition parse_messages : oid -> element -> M (dict string entity) :=
  parse_named AbstractMessage "message".

(** Lines 248-252 *)
Definition parse_ports : oid -> element -> M (dict string entity) :=
  parse_named PortType "portType".

(** Lines 274-289 *)
Definition parse_binding (self : oid) (doc : element) : M (dict string entity) :=
  for_fold (findall doc (QName NSMAP_wsdl "binding")) []
    (fun result binding_node =>
       if Soap11Binding_match env binding_node then
         binding <- entity_parse Soap11Binding self binding_node ;;
         ret (dict_set (ent_name binding) binding result)
       else if Soap12Binding_match env binding_node then
         binding <- entity_parse Soap12Binding self binding_node ;;
         ret (dict_set (ent_name binding) binding result)
       else ret result).

(** Lines 301-305 *)
Definition parse_service : oid -> element -> M (dict string entity) :=
  parse_named Service "service".

(** Lines 63-93: [Definitions(wsdl, location)] *)
Fixpoint Definitions_init (fuel : nat) (location : string) : M oid :=
  match fuel with
  | 0 => fun _ => Diverged
  | S fuel' =>
      doc <- load_document location ;;
      self <- new_Definitions location doc ;;
      modify (fun w => set_definitions
                         (dict_set (get doc "targetNamespace") self (_definitions w)) w) ;;
      parse_imports (Definitions_init fuel') self doc ;;
      v <- parse_types doc ;;
      modify (update self (set_schema v)) ;;
      v <- parse_messages self doc ;;
      modify (update self (set_messages v)) ;;
      v <- parse_ports self doc ;;
      modify (update self (set_port_types v)) ;;
      v <- parse_binding self doc ;;
      modify (update self (set_bindings v)) ;;
      v <- parse_service self doc ;;
      modify (update self (set_services v)) ;;
      ret self
  end.

(** Lines 132-136 *)
Definition filter_namespace (source : dict string entity) (namespace : option string)
  : dict string entity :=
  List.filter (fun kv => Py.startswith (fst kv) ("{" ++ Py.str namespace ++ "}")) source.

(** Lines 130-147.  [Definitions] has no attribute [_definitions]: reading
    it on line 147 raises. *)
Definition merge (self other : oid) (namespace : option string) : M unit :=
  modify (log (Merge self other namespace)) ;;
  modify (fun w =>
    match schema (obj w self) with
    | None => update self (set_schema (schema (obj w other))) w
    | Some _ => w
    end) ;;
  modify (fun w => update self (fun d =>
    set_port_types (dict_update (port_types d)
                      (filter_namespace (port_types (obj w other)) namespace)) d) w) ;;
  modify (fun w => update self (fun d =>
    set_messages (dict_update (messages d)
                    (filter_namespace (messages (obj w other)) namespace)) d) w) ;;
  modify (fun w => update self (fun d =>
    set_bindings (dict_update (bindings d)
                    (filter_namespace (bindings (obj w other)) namespace)) d) w) ;;
  modify (fun w => update self (fun d =>
    set_services (dict_update (services d)
                    (filter_namespace (services (obj w other)) namespace)) d) w) ;;
  registry <- gets _definitions ;;
  if dict_in namespace registry then ret tt else raise AttributeError.

(** Modelled from the spec: [x.resolve(self)] is a call into the entity
    classes of [zeep.wsdl.definitions] and [zeep.wsdl.soap], which are not
    under src/.  The spec gives it the contract
    [resolve(definitions) -> void | ReferenceError]: the entity looks its
    references up in the maps of the Definitions that it is given, and a
    reference that it does not find there is fatal.  Whether it finds them
    is [entity_resolve] of the environment, on the entity and the object
    behind [self] at the time of the call; a call that returns is logged. *)
Definition resolve (self : oid) (x : entity) : M unit :=
  d <- gets (fun w => obj w self) ;;
  if entity_resolve env x d then modify (log (Resolve x self))
  else raise ReferenceError.

(** Lines 98-124 *)
Fixpoint resolve_imports (fuel : nat) (self : oid) : M unit :=
  match fuel with
  | 0 => fun _ => Diverged
  | S fuel' =>
      pending <- gets (fun w => imports (obj w self)) ;;
      for_each pending (fun item => merge self (snd item) (fst item)) ;;
      imports <- gets (fun w => imports (obj w self)) ;;
      modify (update self (set_imports [])) ;;
      for_each (dict_values imports) (fun definition => resolve_imports fuel' definition) ;;
      v <- gets (fun w => messages (obj w self)) ;;
      for_each (dict_values v) (resolve self) ;;
      v <- gets (fun w => port_types (obj w self)) ;;
      for_each (dict_values v) (resolve self) ;;
      v <- gets (fun w => bindings (obj w self)) ;;
      for_each (dict_values v) (resolve self) ;;
      v <- gets (fun w => services (obj w self)) ;;
      for_each (dict_values v) (resolve self)
  end.

(** Lines 21-39: [WSDL(location, transport)].  The public attributes
    [schema], [messages], [port_types], [bindings] and [services] of the
    handle are those of the root [Definitions] that is returned. *)
Definition empty_WSDL : WSDL := MkWSDL [] [] [] [] [].

Definition WSDL_init (fuel : nat) (location : string) : outcome oid :=
  (root_definitions <- Definitions_init fuel location ;;
   resolve_imports fuel root_definitions ;;
   ret root_definitions) empty_WSDL.

End Module.

(** * Definitions used to state the properties *)

Arguments bind {A B} c k w : simpl never.
Arguments ret {A} a w : simpl never.
Arguments raise {A} e w : simpl never.
Arguments gets {A} f w : simpl never.
Arguments modify f w : simpl never.

(** What [merge] makes of [self], given the object [o] that is merged in. *)
Definition merge_into (o : Definitions) (namespace : option string) (d : Definitions)
  : Definitions :=
  MkDefinitions (location d) (target_namespace d) (nsmap d)
    (match schema d with None => schema o | Some s => Some s end)
    (dict_update (port_types d) (filter_namespace (port_types o) namespace))
    (dict_update (messages d) (filter_namespace (messages o) namespace))
    (dict_update (bindings d) (filter_namespace (bindings o) namespace))
    (dict_update (services d) (filter_namespace (services o) namespace))
    (imports d).


(** The four entity maps of a [Definitions]. *)
Inductive slot : Type := Messages | PortTypes | Bindings | Services.

Definition slot_of (s : slot) (d : Definitions) : dict string entity :=
  match s with
  | Messages => messages d
  | PortTypes => port_types d
  | Bindings => bindings d
  | Services => services d
  end.

(** The key prefix that [filter_namespace] tests for. *)
Definition in_namespace (namespace : option string) (k : string) : bool :=
  Py.startswith k ("{" ++ Py.str namespace ++ "}").

(** The first loop of [resolve_imports]. *)
Definition merge_all (self : oid) (pending : dict (option string) oid) : M unit :=
  for_each pending (fun item => merge self (snd item) (fst item)).

(** The store after that loop, when no [merge] raises. *)
Fixpoint merge_all_state (self : oid) (pending : dict (option string) oid) (w : WSDL) : WSDL :=
  match pending with
  | [] => w
  | item :: rest =>
      merge_all_state self rest
        (update self (merge_into (obj w (snd item)) (fst item))
           (log (Merge self (snd item) (fst item)) w))
  end.

(** The calls of [resolve] made by the four last loops of [resolve_imports]
    on an object [d] at address [self]. *)
Definition resolve_events (self : oid) (d : Definitions) : list event :=
  (map (fun x => Resolve x self) (dict_values (messages d))
   ++ map (fun x => Resolve x self) (dict_values (port_types d))
   ++ map (fun x => Resolve x self) (dict_values (bindings d))
   ++ map (fun x => Resolve x self) (dict_values (services d)))%list.

(** The entities on which these loops call [resolve], in their order, and
    whether each of them finds its references in [d]. *)
Definition resolve_targets (d : Definitions) : list entity :=
  (dict_values (messages d) ++ dict_values (port_types d)
   ++ dict_values (bindings d) ++ dict_values (services d))%list.

Definition resolvable (env : Environment) (d : Definitions) : bool :=
  forallb (fun x => entity_resolve env x d) (resolve_targets d).

Definition logs (es : list event) (w : WSDL) : WSDL :=
  MkWSDL (heap w) (nodes w) (_definitions w) (_schema_references w) (trace w ++ es).

(** A sequence of calls, one per item, each related to its start and end
    state by [P]. *)
Inductive chain (P : oid -> WSDL -> WSDL -> Prop) : list oid -> WSDL -> WSDL -> Prop :=
| chain_nil w : chain P [] w w
| chain_cons x l w w1 w2 : P x w w1 -> chain P l w1 w2 -> chain P (x :: l) w w2.

(** The schema that the fallback of [merge] finds among pending imports. *)
Fixpoint first_schema (w : WSDL) (pending : dict (option string) oid) : option Schema :=
  match pending with
  | [] => None
  | item :: rest =>
      match schema (obj w (snd item)) with
      | Some s => Some s
      | None => first_schema w rest
      end
  end.

(** The locations retrieved, in order. *)
Fixpoint loads (tr : list event) : list string :=
  match tr with
  | [] => []
  | Fetch l :: r => l :: loads r
  | _ :: r => loads r
  end.

(** What a call of [resolve_imports] preserves: the registries and the
    documents stay as they are, an object without pending imports is not
    touched, pending imports are either still pending or cleared, and
    entity maps only gain keys. *)
Record resolve_frame (w w' : WSDL) : Prop := {
  fr_length : length (heap w') = length (heap w);
  fr_nodes : nodes w' = nodes w;
  fr_definitions : _definitions w' = _definitions w;
  fr_schema_references : _schema_references w' = _schema_references w;
  fr_done : forall x, imports (obj w x) = [] -> obj w' x = obj w x;
  fr_imports : forall x, imports (obj w' x) = imports (obj w x) \/ imports (obj w' x) = [];
  fr_keys : forall x s k, dict_in k (slot_of s (obj w x)) = true ->
                          dict_in k (slot_of s (obj w' x)) = true;
  fr_location : forall x, location (obj w' x) = location (obj w x);
  fr_target_namespace : forall x, target_namespace (obj w' x) = target_namespace (obj w x);
  fr_loads : loads (trace w') = loads (trace w)
}.

(** In a log, every [resolve] on an object comes after the merges of the
    imports that were pending on that object in state [w]. *)
Definition merges_precede_resolves (w : WSDL) (tr : list event) : Prop :=
  forall i x d, tr !! i = Some (Resolve x d) ->
  forall ns b, In (ns, b) (imports (obj w d)) ->
  exists j, j < i /\ tr !! j = Some (Merge d b ns).

(** An object whose pending imports changed between [w] and [w'] had them
    merged in the log. *)
Definition cleared_are_merged (w w' : WSDL) (tr : list event) : Prop :=
  forall d, imports (obj w' d) = imports (obj w d) \/
            forall ns b, In (ns, b) (imports (obj w d)) ->
                         exists j, tr !! j = Some (Merge d b ns).

Definition merge_events (self : oid) (pending : dict (option string) oid) : list event :=
  map (fun item => Merge self (snd item) (fst item)) pending.

(** The log of a call: its extension satisfies both properties. *)
Definition log_ok (w w' : WSDL) : Prop :=
  exists tr, trace w' = (trace w ++ tr)%list /\
             merges_precede_resolves w tr /\ cleared_are_merged w w' tr.


(** ** Documents used in the examples *)

Definition wsdl_element (local : string) (attrs : dict string string) (cs : list element)
  : element :=
  Element (QName NSMAP_wsdl local) attrs [] cs.

Definition definitions_element (tns : string) (cs : list element) : element :=
  wsdl_element "definitions" [("targetNamespace", tns)] cs.

Definition import_element (namespace location : string) : element :=
  wsdl_element "import" [("namespace", namespace); ("location", location)] [].

Definition named_element (local name : string) : element :=
  wsdl_element local [("name", name)] [].

Definition no_soap : element -> bool := fun _ => false.
Definition any_soap : element -> bool := fun _ => true.

(** Entities that find every reference. *)
Definition all_found : entity -> Definitions -> bool := fun _ _ => true.

(** A chain: a.wsdl imports b.wsdl, which imports c.wsdl. *)
Definition chain_env : Environment :=
  MkEnvironment []
    [("a.wsdl", Some (definitions_element "urn:a"
                        [import_element "urn:b" "b.wsdl"; named_element "message" "Ma"]));
     ("b.wsdl", Some (definitions_element "urn:b"
                        [import_element "urn:c" "c.wsdl"; named_element "message" "Mb"]));
     ("c.wsdl", Some (definitions_element "urn:c" [named_element "message" "x"]))]
    any_soap no_soap all_found.

(** A cycle: a.wsdl and b.wsdl import each other. *)
Definition cycle_env : Environment :=
  MkEnvironment []
    [("a.wsdl", Some (definitions_element "urn:a"
                        [import_element "urn:b" "b.wsdl"; named_element "message" "Ma"]));
     ("b.wsdl", Some (definitions_element "urn:b"
                        [import_element "urn:a" "a.wsdl"; named_element "message" "Mb"]))]
    any_soap no_soap all_found.

Definition state_of (r : outcome oid) : WSDL :=
  match r with Returned _ w => w | _ => empty_WSDL end.

Definition chain_loaded : WSDL :=
  Eval vm_compute in state_of (Definitions_init chain_env 4 "a.wsdl" empty_WSDL).
Definition chain_resolved : WSDL :=
  Eval vm_compute in state_of (WSDL_init chain_env 4 "a.wsdl").
Definition cycle_loaded : WSDL :=
  Eval vm_compute in state_of (Definitions_init cycle_env 3 "a.wsdl" empty_WSDL).
Definition cycle_resolved : WSDL :=
  Eval vm_compute in state_of (WSDL_init cycle_env 3 "a.wsdl").

(** Match tests for the examples, after those of [zeep.wsdl.soap]: a binding
    element is a SOAP binding of some version when it has a [binding] child
    in the namespace of that version. *)
Definition SOAP11_ns : string := "http://schemas.xmlsoap.org/wsdl/soap/".
Definition SOAP12_ns : string := "http://schemas.xmlsoap.org/wsdl/soap12/".
Definition HTTP_ns : string := "http://schemas.xmlsoap.org/wsdl/http/".

Definition has_soap_child (ns : string) (node : element) : bool :=
  existsb (fun c => String.eqb (tag c) (QName ns "binding")) (children node).

Definition binding_element (name : option string) (protocols : list string) : element :=
  wsdl_element "binding"
    (match name with Some n => [("name", n)] | None => [] end)
    (List.map (fun ns => Element (QName ns "binding") [] [] []) protocols).

Definition mixed_env : Environment :=
  MkEnvironment [] [] (has_soap_child SOAP11_ns) (has_soap_child SOAP12_ns) all_found.

(** A document with an HTTP binding, a binding without name and without
    protocol, a SOAP 1.2 binding, a binding that both tests accept and a
    SOAP 1.1 binding. *)
Definition mixed_doc : element :=
  definitions_element "urn:a"
    [binding_element (Some "Http") [HTTP_ns];
     binding_element None [];
     binding_element (Some "B12") [SOAP12_ns];
     binding_element (Some "Both") [SOAP12_ns; SOAP11_ns];
     binding_element (Some "B11") [SOAP11_ns]].

#[global] Instance entity_class_eq_dec : EqDecision entity_class.
Proof. solve_decision. Defined.

(** ** Schema fragments *)

(** The inline schema elements that [parse_types] collects from a document. *)
Definition fragments (doc : element) : list element :=
  match find doc (QName NSMAP_wsdl "types") with
  | None => []
  | Some types => findall_multiple_ns types "schema" [XSD_2001; XSD_1999]
  end.

(** The key of the schema-fragment registry for a namespace. *)
Definition pseudo_location (namespace : option string) : string :=
  "intschema+" ++ Py.str namespace.

(** The registry after the loop of lines 207-209 over fragments stored from
    address [base] on. *)
Fixpoint register_fragments (base : nat) (fs : list element) (refs : dict string nat)
  : dict string nat :=
  match fs with
  | [] => refs
  | f :: r =>
      register_fragments (S base) r
        (dict_set (pseudo_location (get f "targetNamespace")) base refs)
  end.

(** A types section with one schema of the 1999 namespace that imports
    without a location, and one of the 2001 namespace whose import carries an
    empty location. *)
Definition old_schema_doc : element :=
  definitions_element "urn:t"
    [wsdl_element "types" []
       [Element (QName XSD_1999 "schema") [("targetNamespace", "urn:s1")] []
          [Element (QName XSD_1999 "import") [("namespace", "urn:s2")] [] []];
        Element (QName XSD_2001 "schema") [("targetNamespace", "urn:s2")] []
          [Element (QName XSD_2001 "import")
             [("namespace", "urn:s3"); ("schemaLocation", "")] [] []]]].

(** How lines 213-218 relate a child [c] of a schema fragment to what it is
    afterwards: an import of the 2001 schema namespace whose [schemaLocation]
    is absent or empty receives the pseudo-location of its namespace, every
    other child is left as it is. *)
Definition relocated (c c' : element) : Prop :=
  (tag c = import_tag /\ Py.truthy (get c "schemaLocation") = false /\
   c' = set c "schemaLocation" (pseudo_location (get c "namespace")) /\
   get c' "schemaLocation" = Some (pseudo_location (get c "namespace")))
  \/
  ((tag c <> import_tag \/ Py.truthy (get c "schemaLocation") = true) /\ c' = c).

(** ** The binding dispatcher, as the design describes it

    A fixed, ordered list of candidates, each with its match test; a binding
    element goes to the first candidate that matches, and is skipped when
    none does. *)

Definition binding_tag : string := QName NSMAP_wsdl "binding".

Definition candidates (env : Environment) : list (entity_class * (element -> bool)) :=
  [(Soap11Binding, Soap11Binding_match env); (Soap12Binding, Soap12Binding_match env)].

Definition dispatch (env : Environment) (node : element) : option entity_class :=
  match List.find (fun c => snd c node) (candidates env) with
  | Some c => Some (fst c)
  | None => None
  end.

Definition dispatched_bindings (env : Environment) (self : oid) (doc : element)
  : M (dict string entity) :=
  for_fold (findall doc binding_tag) []
    (fun result node =>
       match dispatch env node with
       | Some cls =>
           binding <- entity_parse cls self node ;;
           ret (dict_set (ent_name binding) binding result)
       | None => ret result
       end).

(** The document without the binding elements that no candidate matches. *)
Definition supported (env : Environment) (doc : element) : element :=
  Element (tag doc) (attrib doc) (el_nsmap doc)
    (List.filter
       (fun c => negb (String.eqb (tag c) binding_tag)
                 || match dispatch env c with Some _ => true | None => false end)
       (children doc)).

(** ** Loading, taken apart *)

Definition is_http (location : string) : bool :=
  Py.startswith location "http://" || Py.startswith location "https://".

(** What is behind a location: nothing, content that does not parse, or a
    document. *)
Definition lookup_document (env : Environment) (location : string) : option (option element) :=
  dict_get location (if is_http location then remote env else files env).

(** Lines 166-167: the location of an import, seen from the importing
    document. *)
Definition import_target (self_location href : string) : string :=
  if negb (Py.contains "://" href) && negb (Py.isabs href)
  then Py.join (Py.dirname self_location) href
  else href.

(** The state in which [parse_imports] starts: the document is logged, the
    object allocated and registered. *)
Definition begin_load (location : string) (doc : element) (w : WSDL) : WSDL :=
  MkWSDL
    (heap w ++ [MkDefinitions location (get doc "targetNamespace") (el_nsmap doc)
                  None [] [] [] [] []])
    (nodes w)
    (dict_set (get doc "targetNamespace") (length (heap w)) (_definitions w))
    (_schema_references w)
    (trace w ++ [Fetch location]).

(** Lines 89-93 *)
Definition finish_load (env : Environment) (self : oid) (doc : element) : M oid :=
  v <- parse_types doc ;;
  modify (update self (set_schema v)) ;;
  v <- parse_messages self doc ;;
  modify (update self (set_messages v)) ;;
  v <- parse_ports self doc ;;
  modify (update self (set_port_types v)) ;;
  v <- parse_binding env self doc ;;
  modify (update self (set_bindings v)) ;;
  v <- parse_service self doc ;;
  modify (update self (set_services v)) ;;
  ret self.

Definition add_import (namespace : option string) (o : oid) (d : Definitions) : Definitions :=
  set_imports (dict_set namespace o (imports d)) d.

Definition import_tag_wsdl : string := QName NSMAP_wsdl "import".

(** The loop of [parse_imports] on [self], where each constructor call
    relates its location, start state, result and end state by [P]. *)
Inductive import_chain (P : string -> WSDL -> oid -> WSDL -> Prop) (self : oid)
  : list element -> WSDL -> WSDL -> Prop :=
| import_chain_nil w : import_chain P self [] w w
| import_chain_reuse node nodes w w' href registered :
    get node "location" = Some href ->
    dict_get (get node "namespace") (_definitions w) = Some registered ->
    import_chain P self nodes
      (update self (add_import (get node "namespace") registered) w) w' ->
    import_chain P self (node :: nodes) w w'
| import_chain_build node nodes w w1 w' href o :
    get node "location" = Some href ->
    dict_get (get node "namespace") (_definitions w) = None ->
    P (import_target (location (obj w self)) href) w o w1 ->
    import_chain P self nodes (update self (add_import (get node "namespace") o) w1) w' ->
    import_chain P self (node :: nodes) w w'.

(** The entries of a map are entities parsed by [self], keyed by their name,
    in the target namespace [tns] when there is one. *)
Definition declared_by (self : oid) (tns : option string) (m : dict string entity) : Prop :=
  forall k x, In (k, x) m ->
    ent_wsdl x = self /\ ent_name x = k /\
    (forall ns, tns = Some ns -> in_namespace (Some ns) k = true).

(** The attributes assigned on lines 89-93. *)
Definition fill (v : option Schema) (m p b s : dict string entity) (d : Definitions)
  : Definitions :=
  set_services s (set_bindings b (set_port_types p (set_messages m (set_schema v d)))).

(** What a constructor call [Definitions(wsdl, href)] establishes and
    preserves: the new object is the next one of the store and represents
    the document at [href], the objects that existed are not touched,
    and registered namespaces stay registered. *)
Record load_frame (env : Environment) (href : string) (w : WSDL) (o : oid) (w' : WSDL)
  : Prop := {
  lf_new : o = length (heap w);
  lf_length : length (heap w) < length (heap w');
  lf_old : forall x, x < length (heap w) -> obj w' x = obj w x;
  lf_registered : forall k, dict_in k (_definitions w) = true ->
                            dict_in k (_definitions w') = true;
  lf_location : location (obj w' o) = href;
  lf_document : exists doc, lookup_document env href = Some (Some doc) /\
                            target_namespace (obj w' o) = get doc "targetNamespace"
}.

(** The keys of [self.imports] after [parse_imports]: the namespaces of the
    import elements, in document order, each at its first occurrence. *)
Definition import_keys (nodes : list element) (keys : list (option string))
  : list (option string) :=
  fold_left (fun acc node =>
               if bool_decide (get node "namespace" ∈ acc) then acc
               else (acc ++ [get node "namespace"])%list)
            nodes keys.

(** A document without types that imports two documents with a schema each. *)
Definition schema_element (tns : string) : element :=
  Element (QName XSD_2001 "schema") [("targetNamespace", tns)] [] [].

Definition fallback_env : Environment :=
  MkEnvironment []
    [("a.wsdl", Some (definitions_element "urn:a"
                        [import_element "urn:b" "b.wsdl"; import_element "urn:c" "c.wsdl"]));
     ("b.wsdl", Some (definitions_element "urn:b"
                        [wsdl_element "types" [] [schema_element "urn:b"]]));
     ("c.wsdl", Some (definitions_element "urn:c"
                        [wsdl_element "types" [] [schema_element "urn:c"]]))]
    any_soap no_soap all_found.

Definition fallback_loaded : WSDL :=
  Eval vm_compute in state_of (Definitions_init fallback_env 3 "a.wsdl" empty_WSDL).
Definition fallback_resolved : WSDL :=
  Eval vm_compute in state_of (WSDL_init fallback_env 3 "a.wsdl").

(** ** Coherent imports

    The import elements name the target namespace of the document they
    point to: whenever the document behind the location of an import element
    can be retrieved, its [targetNamespace] is the [namespace] attribute of
    the import element. *)
Definition coherent (env : Environment) : Prop :=
  forall location doc node href doc',
    lookup_document env location = Some (Some doc) ->
    In node (findall doc import_tag_wsdl) ->
    get node "location" = Some href ->
    lookup_document env (import_target location href) = Some (Some doc') ->
    get doc' "targetNamespace" = get node "namespace".

(** The registry and the store agree: a namespace is registered to the one
    object that has it as target namespace, pending imports point to the
    object of their namespace, the keys of an object lie in its target
    namespace, and the objects are the documents retrieved, in order. *)
Record registry_ok (env : Environment) (w : WSDL) : Prop := {
  ro_registered : forall ns o, dict_get ns (_definitions w) = Some o ->
                    o < length (heap w) /\ target_namespace (obj w o) = ns;
  ro_objects : forall o, o < length (heap w) ->
                 dict_get (target_namespace (obj w o)) (_definitions w) = Some o;
  ro_imports : forall o ns b, o < length (heap w) -> In (ns, b) (imports (obj w o)) ->
                 b < length (heap w) /\ target_namespace (obj w b) = ns;
  ro_keys : forall o s k ns, o < length (heap w) ->
              target_namespace (obj w o) = Some ns ->
              dict_in k (slot_of s (obj w o)) = true -> in_namespace (Some ns) k = true;
  ro_loads : loads (trace w) = map location (heap w);
  ro_documents : forall o, o < length (heap w) ->
                   exists doc, lookup_document env (location (obj w o)) = Some (Some doc) /\
                               get doc "targetNamespace" = target_namespace (obj w o)
}.

(** The documents of the environment. *)
Definition env_documents (env : Environment) : list (string * option element) :=
  (remote env ++ files env)%list.

(** The documents whose target namespace is not registered yet. *)
Definition unregistered (env : Environment) (w : WSDL) : nat :=
  length (List.filter
            (fun item => match snd item with
                         | Some doc => negb (dict_in (get doc "targetNamespace") (_definitions w))
                         | None => false
                         end)
            (env_documents env)).

(** The objects that still have pending imports. *)
Definition pending_count (w : WSDL) : nat :=
  length (List.filter (fun d => match imports d with [] => false | _ => true end) (heap w)).

(** The namespace of every pending import is registered. *)
Definition all_registered (w : WSDL) : Prop :=
  forall x ns b, In (ns, b) (imports (obj w x)) -> dict_in ns (_definitions w) = true.

(** What a constructor call does to the invariant, when the namespace of its
    document is not registered yet. *)
Definition load_ok (env : Environment) (href : string) (w : WSDL) (o : oid) (w' : WSDL)
  : Prop :=
  load_frame env href w o w' /\
  (registry_ok env w ->
   (forall doc, lookup_document env href = Some (Some doc) ->
                dict_in (get doc "targetNamespace") (_definitions w) = false) ->
   registry_ok env w').






(** A root document without target namespace whose import element has no
    namespace and points to a document that does not exist. *)
Definition anonymous_env : Environment :=
  MkEnvironment []
    [("a.wsdl", Some (wsdl_element "definitions" []
                        [wsdl_element "import" [("location", "missing.wsdl")] [];
                         named_element "message" "M"]))]
    any_soap no_soap all_found.


(** An import element without location. *)
Definition nowhere_env : Environment :=
  MkEnvironment []
    [("a.wsdl", Some (definitions_element "urn:a"
                        [wsdl_element "import" [("namespace", "urn:b")] []]))]
    any_soap no_soap all_found.

(** Imports that name another namespace than the target namespace of the
    document they point to: a.wsdl imports x.wsdl as urn:b, x.wsdl declares
    urn:c and imports y.wsdl, which declares urn:b. *)
Definition mismatch_env : Environment :=
  MkEnvironment []
    [("a.wsdl", Some (definitions_element "urn:a"
                        [import_element "urn:b" "x.wsdl"; named_element "message" "Ma"]));
     ("x.wsdl", Some (definitions_element "urn:c"
                        [import_element "urn:b" "y.wsdl"; named_element "message" "Mx"]));
     ("y.wsdl", Some (definitions_element "urn:b" [named_element "message" "My"]))]
    any_soap no_soap all_found.

Definition mismatch_resolved : WSDL :=
  Eval vm_compute in state_of (WSDL_init mismatch_env 4 "a.wsdl").

(** ** The import graph *)

(** The objects reached from [a] along pending imports. *)
Inductive reachable (w : WSDL) (a : oid) : oid -> Prop :=
| reachable_self : reachable w a a
| reachable_import x ns b :
    reachable w a x -> In (ns, b) (imports (obj w x)) -> reachable w a b.

(** Between [w] and [w']: an object whose pending imports were cleared has
    the keys that its imports held, in the namespace they were imported
    under, and these imports are cleared as well. *)
Definition merged_visible (w w' : WSDL) : Prop :=
  forall x, imports (obj w x) <> [] -> imports (obj w' x) = [] ->
  forall ns b, In (ns, b) (imports (obj w x)) ->
    imports (obj w' b) = [] /\
    forall s k, dict_in k (slot_of s (obj w b)) = true -> in_namespace ns k = true ->
                dict_in k (slot_of s (obj w' x)) = true.

(** Imports with a wrong namespace that make a document load twice:
    b.wsdl imports a.wsdl under the namespace of c.wsdl. *)
Definition reload_env : Environment :=
  MkEnvironment []
    [("a.wsdl", Some (definitions_element "urn:a"
                        [import_element "urn:b" "b.wsdl"; import_element "urn:c" "c.wsdl"]));
     ("b.wsdl", Some (definitions_element "urn:b" [import_element "urn:c" "a.wsdl"]));
     ("c.wsdl", Some (definitions_element "urn:c" []))]
    any_soap no_soap all_found.

Definition reload_resolved : WSDL :=
  Eval vm_compute in state_of (WSDL_init reload_env 5 "a.wsdl").

(** A document that imports itself under another namespace than its own. *)
Definition self_import_doc : element :=
  definitions_element "urn:a" [import_element "urn:x" "a.wsdl"].

Definition self_import_env : Environment :=
  MkEnvironment [] [("a.wsdl", Some self_import_doc)] any_soap no_soap all_found.

(** The target namespace of a document of the environment. *)
Definition document_namespace (item : string * option element) : option string :=
  match snd item with Some doc => get doc "targetNamespace" | None => None end.


(** ** More definitions used to state properties *)

(** A call of [resolve_imports] on [self] touches only what [self] reaches
    along pending imports. *)
Definition untouched_beyond (self : oid) (w w' : WSDL) : Prop :=
  resolve_frame w w' /\ forall x, ~ reachable w self x -> obj w' x = obj w x.

Definition state_after (r : outcome unit) : WSDL :=
  match r with Returned _ w => w | _ => empty_WSDL end.

(** The chain after [resolve_imports] on the object of b.wsdl only. *)
Definition chain_resolved_from_b : WSDL :=
  Eval vm_compute in state_after (resolve_imports chain_env 3 1 chain_loaded).

(** ** The store of a load, whatever the documents say

    What an entry [(ns, b)] of the pending imports of object [o] stands for:
    [b] has [ns] as its target namespace, or [b] was built from the document
    that an import element of the document of [o] points to. *)
Definition bound (env : Environment) (w : WSDL) (o : oid) (ns : option string) (b : oid)
  : Prop :=
  target_namespace (obj w b) = ns \/
  exists doc node href,
    lookup_document env (location (obj w o)) = Some (Some doc) /\
    In node (findall doc import_tag_wsdl) /\
    get node "namespace" = ns /\
    get node "location" = Some href /\
    location (obj w b) = import_target (location (obj w o)) href.

(** The registry points into the store, to the object created last among
    those with the registered target namespace; every object is behind a
    registered namespace; pending imports point into the store; and the
    objects are the documents retrieved, in the order of retrieval. *)
Record store_ok (env : Environment) (w : WSDL) : Prop := {
  so_registered : forall ns o, dict_get ns (_definitions w) = Some o ->
                    o < length (heap w) /\ target_namespace (obj w o) = ns;
  so_latest : forall ns o o', dict_get ns (_definitions w) = Some o ->
                o < o' -> o' < length (heap w) -> target_namespace (obj w o') <> ns;
  so_objects : forall o, o < length (heap w) ->
                 dict_in (target_namespace (obj w o)) (_definitions w) = true;
  so_imports : forall o ns b, In (ns, b) (imports (obj w o)) ->
                 b < length (heap w) /\ bound env w o ns b;
  so_loads : loads (trace w) = map location (heap w);
  so_documents : forall o, o < length (heap w) ->
                   exists doc, lookup_document env (location (obj w o)) = Some (Some doc) /\
                               get doc "targetNamespace" = target_namespace (obj w o)
}.

(** What a constructor call does to that invariant. *)
Definition load_keeps_store (env : Environment) (href : string) (w : WSDL) (o : oid) (w' : WSDL)
  : Prop :=
  load_frame env href w o w' /\ (store_ok env w -> store_ok env w').

Definition mismatch_loaded : WSDL :=
  Eval vm_compute in state_of (Definitions_init mismatch_env 4 "a.wsdl" empty_WSDL).

(** ** Where an exception comes from *)






(** The store after [parse_types] on that document. *)
Definition old_schema_parsed : WSDL :=
  Eval vm_compute in
    match parse_types old_schema_doc empty_WSDL with
    | Returned _ w => w
    | _ => empty_WSDL
    end.

(** The first element that it stored: the fragment of the 2001 namespace. *)
Definition stored_fragment : element :=
  Eval vm_compute in nodes old_schema_parsed !!! 0.

(** ** Namespaces in keys *)

(** A string that holds a closing brace. *)
Fixpoint has_brace (s : string) : bool :=
  match s with
  | EmptyString => false
  | String c r => Ascii.eqb c "}" || has_brace r
  end.

(** ** Well-formed maps *)

(** The classes whose instances a map holds. *)
Definition class_in (s : slot) (c : entity_class) : bool :=
  match s, c with
  | Messages, AbstractMessage => true
  | PortTypes, PortType => true
  | Bindings, Soap11Binding => true
  | Bindings, Soap12Binding => true
  | Services, Service => true
  | _, _ => false
  end.

(** A map has each key once, and binds it to an entity of that name and of
    a class of the map. *)
Definition slot_ok (s : slot) (m : dict string entity) : Prop :=
  NoDup (dict_keys m) /\
  forall k x, In (k, x) m -> ent_name x = k /\ class_in s (ent_class x) = true.

Definition maps_ok (w : WSDL) : Prop :=
  forall o s, slot_ok s (slot_of s (obj w o)).

(** ** What a constructor call leaves behind *)

(** The log gains retrievals only, the first of them from [href]; the new
    object has the namespace map of the document, its target namespace is
    registered, and its maps hold what it declares itself. *)
Definition constructed (env : Environment) (href : string) (w : WSDL) (o : oid) (w' : WSDL)
  : Prop :=
  load_frame env href w o w' /\
  (exists ls, trace w' = (trace w ++ Fetch href :: map Fetch ls)%list) /\
  exists doc,
    lookup_document env href = Some (Some doc) /\
    nsmap (obj w' o) = el_nsmap doc /\
    dict_in (get doc "targetNamespace") (_definitions w') = true /\
    forall s, declared_by o (get doc "targetNamespace") (slot_of s (obj w' o)).

(** ** What has been resolved *)

(** [resolve] was called, with the object itself as argument, for every
    entry of the maps of object [x]. *)
Definition resolved (w : WSDL) (x : oid) : Prop :=
  forall s k e, In (k, e) (slot_of s (obj w x)) -> In (Resolve e x) (trace w).

(** Between [w] and [w']: the imports of an object whose pending imports
    were cleared are resolved and have no pending imports themselves. *)
Definition imports_resolved (w w' : WSDL) : Prop :=
  forall x, imports (obj w x) <> [] -> imports (obj w' x) = [] ->
  forall ns b, In (ns, b) (imports (obj w x)) -> imports (obj w' b) = [] /\ resolved w' b.

(** What a call of [resolve_imports] on [self] achieves. *)
Definition resolves (self : oid) (w w' : WSDL) : Prop :=
  resolve_frame w w' /\
  (exists tr, trace w' = (trace w ++ tr)%list) /\
  imports (obj w' self) = [] /\
  resolved w' self /\
  imports_resolved w w'.

Definition anonymous_loaded : WSDL :=
  Eval vm_compute in state_of (Definitions_init anonymous_env 1 "a.wsdl" empty_WSDL).

(** A document with two services that imports a document with a service. *)
Definition service_doc : element :=
  definitions_element "urn:a"
    [import_element "urn:b" "b.wsdl";
     named_element "service" "S1"; named_element "service" "S2"].

Definition service_env : Environment :=
  MkEnvironment []
    [("a.wsdl", Some service_doc);
     ("b.wsdl", Some (definitions_element "urn:b" [named_element "service" "Sb"]))]
    any_soap no_soap all_found.

Definition service_resolved : WSDL :=
  Eval vm_compute in state_of (WSDL_init service_env 3 "a.wsdl").

(** ** A cycle with a side branch *)

(** a.wsdl imports b.wsdl and c.wsdl; b.wsdl imports a.wsdl back; c.wsdl
    imports d.wsdl. *)
Definition branch_env : Environment :=
  MkEnvironment []
    [("a.wsdl", Some (definitions_element "urn:a"
                        [import_element "urn:b" "b.wsdl"; import_element "urn:c" "c.wsdl";
                         named_element "message" "Ma"]));
     ("b.wsdl", Some (definitions_element "urn:b"
                        [import_element "urn:a" "a.wsdl"; named_element "message" "Mb"]));
     ("c.wsdl", Some (definitions_element "urn:c"
                        [import_element "urn:d" "d.wsdl"; named_element "message" "Mc"]));
     ("d.wsdl", Some (definitions_element "urn:d" [named_element "message" "Md"]))]
    any_soap no_soap all_found.

Definition branch_loaded : WSDL :=
  Eval vm_compute in state_of (Definitions_init branch_env 4 "a.wsdl" empty_WSDL).
Definition branch_resolved : WSDL :=
  Eval vm_compute in state_of (WSDL_init branch_env 4 "a.wsdl").

(** ** The calls of [resolve_imports] behind one call *)




(** * Reasoning about the monad *)


Lemma bind_Returned {A B} (c : M A) (k : A -> M B) w b w' :
  bind c k w = Returned b w' <->
  exists a w1, c w = Returned a w1 /\ k a w1 = Returned b w'.
Proof.
  unfold bind. split.
  - destruct (c w) as [a w1| |]; try discriminate. intros Hk. exists a, w1. split; [reflexivity | assumption].
  - intros (a & w1 & -> & H). exact H.
Qed.

Lemma bind_Raised {A B} (c : M A) (k : A -> M B) w e :
  bind c k w = Raised e <->
  c w = Raised e \/ exists a w1, c w = Returned a w1 /\ k a w1 = Raised e.
Proof.
  unfold bind. destruct (c w) as [a w1|e0|].
  - split; [intros Hk; right; exists a, w1; split; [reflexivity | assumption] |].
    intros [Hk | (a' & w' & Hk & Hk')]; [discriminate|]. now inversion Hk; subst.
  - split; [intros Hk; left; congruence|]. intros [Hk | (a' & w' & Hk & Hk')]; [congruence | discriminate].
  - split; [discriminate|]. intros [Hk | (a' & w' & Hk & Hk')]; discriminate.
Qed.

Lemma bind_Diverged {A B} (c : M A) (k : A -> M B) w :
  bind c k w = Diverged <->
  c w = Diverged \/ exists a w1, c w = Returned a w1 /\ k a w1 = Diverged.
Proof.
  unfold bind. destruct (c w) as [a w1|e0|].
  - split; [intros Hk; right; exists a, w1; split; [reflexivity | assumption] |].
    intros [Hk | (a' & w' & Hk & Hk')]; [discriminate|]. now inversion Hk; subst.
  - split; [discriminate|]. intros [Hk | (a' & w' & Hk & Hk')]; discriminate.
  - split; [intros Hk; left; congruence|]. intros [Hk | (a' & w' & Hk & Hk')]; [congruence | discriminate].
Qed.

Lemma bind_step {A B} (c : M A) (k : A -> M B) w a w1 :
  c w = Returned a w1 -> bind c k w = k a w1.
Proof. unfold bind. now intros ->. Qed.

Ltac inv_ret H :=
  match type of H with
  | Returned _ _ = Returned _ _ => inversion H; subst; clear H
  end.

(** Unfold one monadic step in a hypothesis that says the computation
    returned. *)
Ltac step_in H :=
  match type of H with
  | bind (modify _) _ _ = _ => unfold bind at 1, modify at 1 in H
  | bind (gets _) _ _ = _ => unfold bind at 1, gets at 1 in H
  | bind (ret _) _ _ = _ => unfold bind at 1, ret at 1 in H
  | bind _ _ _ = Returned _ _ =>
      let a := fresh "a" in let w1 := fresh "w" in let H1 := fresh "H" in
      apply bind_Returned in H; destruct H as (a & w1 & H1 & H)
  | Returned _ _ = Returned _ _ => inv_ret H
  | ret _ _ = Returned _ _ => unfold ret in H; inv_ret H
  | modify _ _ = Returned _ _ => unfold modify in H; inv_ret H
  | gets _ _ = Returned _ _ => unfold gets in H; inv_ret H
  end.

Lemma for_each_app {A} (l1 l2 : list A) body w :
  for_each (l1 ++ l2) body w = (for_each l1 body ;; for_each l2 body) w.
Proof.
  revert w. induction l1 as [|x l1 IH]; intros w; simpl.
  - reflexivity.
  - unfold bind in *. destruct (body x w) as [[] w1| |]; try reflexivity.
    apply IH.
Qed.

(** An invariant of the loop body holds after the loop. *)
Lemma for_each_Returned {A} (I : WSDL -> Prop) (l : list A) body w w' :
  (forall x w1 w2, In x l -> I w1 -> body x w1 = Returned tt w2 -> I w2) ->
  I w -> for_each l body w = Returned tt w' -> I w'.
Proof.
  revert w. induction l as [|x l IH]; intros w Hb Hw H; simpl in H.
  - step_in H. exact Hw.
  - step_in H. destruct a. eapply IH; [| |exact H].
    + intros; eapply Hb; eauto. now right.
    + eapply Hb; eauto. now left.
Qed.

(** A loop that logs one event per item. *)
Lemma for_each_log {A} (f : A -> event) (l : list A) w :
  for_each l (fun x => modify (log (f x))) w
  = Returned tt (MkWSDL (heap w) (nodes w) (_definitions w) (_schema_references w)
                   (trace w ++ map f l)).
Proof.
  revert w. induction l as [|x l IH]; intros w; simpl.
  - unfold ret. rewrite app_nil_r. now destruct w.
  - unfold bind, modify at 1. rewrite IH. simpl. now rewrite <- app_assoc.
Qed.

(** * Dictionaries *)

Section DictFacts.
Context {K V : Type} `{EqDecision K}.
Implicit Types (d : list (K * V)) (k : K) (v : V).

Lemma dict_get_set k k' v d :
  dict_get k' (dict_set k v d) = if decide (k' = k) then Some v else dict_get k' d.
Proof.
  induction d as [|[k0 v0] d IH]; simpl.
  - destruct (decide (k' = k)); reflexivity.
  - destruct (decide (k = k0)) as [->|Hne]; simpl.
    + destruct (decide (k' = k0)); reflexivity.
    + rewrite IH. destruct (decide (k' = k0)) as [->|]; [|reflexivity].
      destruct (decide (k0 = k)); congruence.
Qed.

Lemma dict_in_set k k' v d :
  dict_in k' (dict_set k v d) = if decide (k' = k) then true else dict_in k' d.
Proof. unfold dict_in. rewrite dict_get_set. now destruct (decide (k' = k)). Qed.

Lemma dict_in_keys k d : dict_in k d = true <-> In k (dict_keys d).
Proof.
  unfold dict_in. induction d as [|[k0 v0] d IH]; simpl.
  - split; [discriminate | tauto].
  - destruct (decide (k = k0)) as [->|Hne].
    + split; auto.
    + rewrite IH. split; [auto | intros [?|?]; [congruence | assumption]].
Qed.

Lemma dict_get_In k v d : dict_get k d = Some v -> In (k, v) d.
Proof.
  induction d as [|[k0 v0] d IH]; simpl; [discriminate|].
  destruct (decide (k = k0)) as [->|]; [intros [= ->]; now left | auto].
Qed.

Lemma dict_in_cons k k0 v0 d :
  dict_in k ((k0, v0) :: d) = if decide (k = k0) then true else dict_in k d.
Proof. unfold dict_in. simpl. now destruct (decide (k = k0)). Qed.

Lemma dict_in_update k d other :
  dict_in k (dict_update d other) = dict_in k d || dict_in k other.
Proof.
  unfold dict_update. revert d. induction other as [|[k0 v0] o IH]; intros d; simpl.
  - now rewrite orb_false_r.
  - rewrite IH, dict_in_set, (dict_in_cons k k0 v0 o).
    destruct (decide (k = k0)); simpl.
    + now rewrite orb_true_r.
    + reflexivity.
Qed.

Lemma dict_keys_set_in k v d :
  dict_in k d = true -> dict_keys (dict_set k v d) = dict_keys d.
Proof.
  unfold dict_in. induction d as [|[k0 v0] d IH]; simpl; [discriminate|].
  destruct (decide (k = k0)) as [->|]; simpl; [reflexivity|].
  intros Hd. now rewrite IH.
Qed.

Lemma dict_keys_set_notin k v d :
  dict_in k d = false -> dict_keys (dict_set k v d) = (dict_keys d ++ [k])%list.
Proof.
  unfold dict_in. induction d as [|[k0 v0] d IH]; simpl; [reflexivity|].
  destruct (decide (k = k0)) as [->|]; simpl; [discriminate|].
  intros Hd. now rewrite IH.
Qed.
End DictFacts.

(** * The store *)

Lemma obj_update_eq o f w : o < length (heap w) -> obj (update o f w) o = f (obj w o).
Proof.
  intros Ho. unfold obj, update. simpl. rewrite list_lookup_total_alter.
  case_decide; [reflexivity | tauto].
Qed.

Lemma obj_update_ne o x f w : o <> x -> obj (update o f w) x = obj w x.
Proof.
  intros Ho. unfold obj, update. simpl. rewrite list_lookup_total_alter.
  case_decide; [tauto | reflexivity].
Qed.

Lemma obj_update o x f w :
  obj (update o f w) x = if decide (o = x /\ o < length (heap w)) then f (obj w o) else obj w x.
Proof. unfold obj, update. simpl. apply list_lookup_total_alter. Qed.

Lemma obj_dangling w o : length (heap w) <= o -> obj w o = inhabitant.
Proof.
  intros Ho. unfold obj. rewrite list_lookup_total_alt.
  rewrite (proj2 (lookup_ge_None (heap w) o)); [reflexivity | lia].
Qed.

Lemma length_heap_update o f w : length (heap (update o f w)) = length (heap w).
Proof. unfold update. simpl. apply length_alter. Qed.

(** * merge *)

Lemma update_update o f g w : update o f (update o g w) = update o (fun d => f (g d)) w.
Proof.
  unfold update, set_heap. simpl. f_equal.
  apply (list_alter_alter_eq f g).
Qed.

Lemma update_ext o f g w :
  (o < length (heap w) -> f (obj w o) = g (obj w o)) -> update o f w = update o g w.
Proof.
  intros Hfg. unfold update, set_heap. f_equal.
  apply list_alter_ext; [|reflexivity].
  intros x Hx. unfold obj in Hfg. rewrite (list_lookup_total_correct _ _ _ Hx) in Hfg.
  apply Hfg. eapply lookup_lt_Some; eauto.
Qed.

Lemma alter_dangling {A} (f : A -> A) (l : list A) i : length l <= i -> alter f i l = l.
Proof.
  intros Hi. apply list_eq. intros j. rewrite list_lookup_alter.
  case_decide; [subst|reflexivity].
  rewrite (proj2 (lookup_ge_None l j)) by lia. reflexivity.
Qed.

Lemma merge_spec self other namespace w :
  merge self other namespace w =
  if dict_in namespace (_definitions w)
  then Returned tt (update self (merge_into (obj w other) namespace)
                      (log (Merge self other namespace) w))
  else Raised AttributeError.
Proof.
  unfold merge, bind, modify, gets. cbn beta iota.
  set (w0 := log (Merge self other namespace) w).
  assert (Hobj : forall x, obj w0 x = obj w x) by reflexivity.
  assert (Hreg : forall f v, _definitions (update self f v) = _definitions v) by reflexivity.
  match goal with |- context [dict_in namespace (_definitions ?v)] =>
    replace (dict_in namespace (_definitions v)) with (dict_in namespace (_definitions w))
  end.
  2:{ destruct (schema (obj w0 self)); reflexivity. }
  destruct (dict_in namespace (_definitions w)); [|reflexivity].
  unfold ret. f_equal.
  destruct (decide (self < length (heap w))) as [Hlt|Hge].
  - destruct (schema (obj w0 self)) eqn:Hs;
      rewrite !update_update; apply update_ext; intros _;
      rewrite !obj_update; repeat case_decide; try (exfalso; simpl in *; tauto);
      try match goal with H : _ = other /\ _ |- _ => destruct H as [He _]; subst other end;
      unfold merge_into; rewrite ?Hobj in *; rewrite ?Hs;
      destruct (obj w self); simpl in *; subst; reflexivity.
  - assert (Hid : forall f v, length (heap v) = length (heap w) -> update self f v = v).
    { intros f v Hv. unfold update. rewrite alter_dangling by lia. now destruct v. }
    destruct (schema (obj w0 self)); repeat rewrite (Hid _ w0) by reflexivity; reflexivity.
Qed.

(** * The merge loop *)

Lemma slot_of_merge_into s o namespace d :
  slot_of s (merge_into o namespace d)
  = dict_update (slot_of s d) (filter_namespace (slot_of s o) namespace).
Proof. destruct s; reflexivity. Qed.

Lemma dict_in_filter_namespace k d namespace :
  dict_in k (filter_namespace d namespace) = in_namespace namespace k && dict_in k d.
Proof.
  unfold filter_namespace, in_namespace.
  induction d as [|[k0 v0] d IH]; simpl.
  - now rewrite andb_false_r.
  - destruct (Py.startswith k0 _) eqn:Hp.
    + rewrite !dict_in_cons, IH. case_decide; subst; [now rewrite Hp|reflexivity].
    + rewrite dict_in_cons, IH. case_decide; subst; [now rewrite Hp|reflexivity].
Qed.

Lemma merge_all_spec self pending w :
  merge_all self pending w =
  if forallb (fun item => dict_in (fst item) (_definitions w)) pending
  then Returned tt (merge_all_state self pending w)
  else Raised AttributeError.
Proof.
  unfold merge_all. revert w. induction pending as [|[ns o] r IH]; intros w; simpl.
  - reflexivity.
  - unfold bind. rewrite merge_spec. simpl.
    destruct (dict_in ns (_definitions w)); [|reflexivity].
    simpl. rewrite IH. reflexivity.
Qed.

(** What the loop leaves alone. *)
Lemma merge_all_state_frame self pending w :
  let w' := merge_all_state self pending w in
  length (heap w') = length (heap w) /\
  nodes w' = nodes w /\
  _definitions w' = _definitions w /\
  _schema_references w' = _schema_references w /\
  trace w' = (trace w ++ map (fun item => Merge self (snd item) (fst item)) pending)%list /\
  (forall x, x <> self -> obj w' x = obj w x) /\
  imports (obj w' self) = imports (obj w self) /\
  location (obj w' self) = location (obj w self) /\
  target_namespace (obj w' self) = target_namespace (obj w self).
Proof.
  revert w. induction pending as [|[ns o] r IH]; intros w; simpl.
  - rewrite app_nil_r. repeat split; reflexivity || auto.
  - specialize (IH (update self (merge_into (obj w o) ns) (log (Merge self o ns) w))).
    simpl in IH. destruct IH as (H1 & H2 & H3 & H4 & H5 & H6 & H7 & H8 & H9).
    rewrite H1, H2, H3, H4, H5, H7, H8, H9, length_alter, <- app_assoc. simpl.
    repeat split; try reflexivity.
    + intros x Hx. rewrite H6 by assumption. now rewrite obj_update_ne by congruence.
    + rewrite obj_update. case_decide; reflexivity.
    + rewrite obj_update. case_decide; reflexivity.
    + rewrite obj_update. case_decide; reflexivity.
Qed.

(** The keys of [self] after the loop: its own, and those of the imported
    objects that lie in the namespace they were imported under. *)
Lemma merge_all_state_keys self pending w s k :
  self < length (heap w) ->
  dict_in k (slot_of s (obj (merge_all_state self pending w) self)) = true <->
  dict_in k (slot_of s (obj w self)) = true \/
  exists ns o, In (ns, o) pending /\
               in_namespace ns k = true /\ dict_in k (slot_of s (obj w o)) = true.
Proof.
  revert w. induction pending as [|[ns o] r IH]; intros w Hself; simpl.
  - split; [now left | intros [H | (ns & o & [] & _)]; exact H].
  - set (w1 := update self (merge_into (obj w o) ns) (log (Merge self o ns) w)).
    assert (Hself1 : self < length (heap w1)) by (unfold w1; simpl; now rewrite length_alter).
    rewrite (IH w1 Hself1).
    assert (Hs : dict_in k (slot_of s (obj w1 self)) = true <->
                 dict_in k (slot_of s (obj w self)) = true \/
                 (in_namespace ns k = true /\ dict_in k (slot_of s (obj w o)) = true)).
    { unfold w1. rewrite obj_update_eq by exact Hself.
      rewrite slot_of_merge_into, dict_in_update, dict_in_filter_namespace.
      change (obj (log (Merge self o ns) w)) with (obj w).
      rewrite orb_true_iff, andb_true_iff. reflexivity. }
    assert (Ho : forall x, dict_in k (slot_of s (obj w1 x)) = true <->
                           (x = self /\ dict_in k (slot_of s (obj w1 self)) = true) \/
                           (x <> self /\ dict_in k (slot_of s (obj w x)) = true)).
    { intros x. destruct (decide (x = self)) as [->|Hne].
      - split; [intros H; left; auto | intros [[_ H]|[H _]]; [exact H | congruence]].
      - unfold w1. rewrite obj_update_ne by congruence.
        change (obj (log (Merge self o ns) w)) with (obj w).
        split; [intros H; right; auto | intros [[H _]|[_ H]]; [congruence | exact H]]. }
    split.
    + intros [H | (ns' & o' & Hin & Hp & Hk)].
      * apply Hs in H. destruct H as [H | [Hp Hk]]; [now left|].
        right. exists ns, o. auto.
      * apply Ho in Hk. destruct Hk as [[-> Hk] | [Hne Hk]].
        -- apply Hs in Hk. destruct Hk as [Hk | [Hp' Hk]]; [now left|].
           right. exists ns, o. auto.
        -- right. exists ns', o'. auto.
    + intros [H | (ns' & o' & [Heq|Hin] & Hp & Hk)].
      * left. apply Hs. now left.
      * inversion Heq; subst. left. apply Hs. right. auto.
      * destruct (decide (o' = self)) as [->|Hne].
        -- left. apply Hs. now left.
        -- right. exists ns', o'. split; [exact Hin|]. split; [exact Hp|].
           apply Ho. right. auto.
Qed.

(** The schema of [self] after the loop. *)
Lemma merge_all_state_schema self pending w :
  self < length (heap w) ->
  schema (obj (merge_all_state self pending w) self) =
  match schema (obj w self) with
  | Some s => Some s
  | None => first_schema w pending
  end.
Proof.
  revert w. induction pending as [|[ns o] r IH]; intros w Hself; simpl.
  - now destruct (schema (obj w self)).
  - set (w1 := update self (merge_into (obj w o) ns) (log (Merge self o ns) w)).
    assert (Hself1 : self < length (heap w1)) by (unfold w1; simpl; now rewrite length_alter).
    rewrite (IH w1 Hself1).
    assert (Hs : schema (obj w1 self) =
                 match schema (obj w self) with Some s => Some s | None => schema (obj w o) end).
    { unfold w1. rewrite obj_update_eq by exact Hself. reflexivity. }
    rewrite Hs. destruct (schema (obj w self)) as [s|] eqn:Hws; [reflexivity|].
    destruct (schema (obj w o)) as [s|] eqn:Hwo; [reflexivity|].
    (* nothing adopted: the remaining imports see the same schemas *)
    clear IH. induction r as [|[ns' o'] r IHr]; simpl; [reflexivity|].
    rewrite IHr. destruct (decide (o' = self)) as [->|Hne].
    + rewrite Hs, Hws. reflexivity.
    + unfold w1. rewrite obj_update_ne by congruence. reflexivity.
Qed.

(** * The shape of one call of [resolve_imports] *)

Lemma for_each_resolve env self (l : list entity) w :
  for_each l (resolve env self) w =
  if forallb (fun x => entity_resolve env x (obj w self)) l
  then Returned tt (logs (map (fun x => Resolve x self) l) w)
  else Raised ReferenceError.
Proof.
  revert w. induction l as [|x l IH]; intros w; simpl.
  - unfold ret, logs. rewrite app_nil_r. now destruct w.
  - unfold bind at 1. unfold resolve at 1. unfold bind, gets.
    destruct (entity_resolve env x (obj w self)); [|reflexivity]. unfold modify.
    rewrite IH. change (obj (log (Resolve x self) w) self) with (obj w self).
    destruct (forallb _ l); [|reflexivity]. simpl.
    unfold logs. simpl. now rewrite <- app_assoc.
Qed.

Lemma logs_logs a b w : logs b (logs a w) = logs (a ++ b) w.
Proof. unfold logs. simpl. now rewrite <- app_assoc. Qed.

Lemma obj_logs es w x : obj (logs es w) x = obj w x.
Proof. reflexivity. Qed.

Lemma resolve_imports_S env n self w :
  resolve_imports env (S n) self w =
  match merge_all self (imports (obj w self)) w with
  | Returned _ w1 =>
      match for_each (dict_values (imports (obj w1 self))) (resolve_imports env n)
              (update self (set_imports []) w1) with
      | Returned _ w2 =>
          if resolvable env (obj w2 self)
          then Returned tt (logs (resolve_events self (obj w2 self)) w2)
          else Raised ReferenceError
      | Raised e => Raised e
      | Diverged => Diverged
      end
  | Raised e => Raised e
  | Diverged => Diverged
  end.
Proof.
  cbn [resolve_imports]. unfold bind at 1, gets at 1. unfold bind at 1.
  fold (merge_all self (imports (obj w self))).
  destruct (merge_all self (imports (obj w self)) w) as [[] w1| |]; try reflexivity.
  unfold bind at 1, gets at 1. unfold bind at 1, modify at 1. unfold bind at 1.
  destruct (for_each _ (resolve_imports env n) _) as [[] w2| |]; try reflexivity.
  unfold resolvable, resolve_targets. rewrite !forallb_app.
  unfold bind at 1, gets at 1. unfold bind at 1. rewrite for_each_resolve.
  destruct (forallb _ (dict_values (messages (obj w2 self)))); [|reflexivity].
  unfold bind at 1, gets at 1. unfold bind at 1. rewrite for_each_resolve, !obj_logs.
  destruct (forallb _ (dict_values (port_types (obj w2 self)))); [|reflexivity].
  unfold bind at 1, gets at 1. unfold bind at 1. rewrite for_each_resolve, !obj_logs.
  destruct (forallb _ (dict_values (bindings (obj w2 self)))); [|reflexivity].
  unfold bind at 1, gets at 1. rewrite for_each_resolve, !obj_logs.
  destruct (forallb _ (dict_values (services (obj w2 self)))); [|reflexivity].
  simpl. rewrite !logs_logs. reflexivity.
Qed.

Lemma for_each_chain (P : oid -> WSDL -> WSDL -> Prop) (call : oid -> M unit) l w w' :
  (forall x v v', call x v = Returned tt v' -> P x v v') ->
  for_each l call w = Returned tt w' -> chain P l w w'.
Proof.
  intros Hc. revert w. induction l as [|x l IH]; intros w H; simpl in H.
  - step_in H. constructor.
  - step_in H. destruct a. econstructor; eauto.
Qed.

(** Induction over the calls of [resolve_imports]: a relation between the
    states before and after a call holds of every call if it holds of a call
    whose recursive calls satisfy it and whose entities find their
    references. *)
Lemma resolve_imports_rel_ok {env} (P : oid -> WSDL -> WSDL -> Prop) :
  (forall self w w2,
     forallb (fun item => dict_in (fst item) (_definitions w)) (imports (obj w self)) = true ->
     chain P (dict_values (imports (obj w self)))
       (update self (set_imports []) (merge_all_state self (imports (obj w self)) w)) w2 ->
     resolvable env (obj w2 self) = true ->
     P self w (logs (resolve_events self (obj w2 self)) w2)) ->
  forall n self w w', resolve_imports env n self w = Returned tt w' -> P self w w'.
Proof.
  intros Hstep. induction n as [|n IH]; intros self w w' H; [discriminate|].
  rewrite resolve_imports_S, merge_all_spec in H.
  destruct (forallb _ _) eqn:Hreg; [|discriminate].
  destruct (merge_all_state_frame self (imports (obj w self)) w)
    as (_ & _ & _ & _ & _ & _ & Himp & _).
  rewrite Himp in H.
  destruct (for_each _ _ _) as [[] w2| |] eqn:Hrec; try discriminate.
  destruct (resolvable env (obj w2 self)) eqn:Hok; [|discriminate].
  inversion H; subst. apply Hstep; [exact Hreg| |exact Hok].
  eapply for_each_chain; [|exact Hrec]. exact IH.
Qed.

Lemma resolve_imports_rel {env} (P : oid -> WSDL -> WSDL -> Prop) :
  (forall self w w2,
     forallb (fun item => dict_in (fst item) (_definitions w)) (imports (obj w self)) = true ->
     chain P (dict_values (imports (obj w self)))
       (update self (set_imports []) (merge_all_state self (imports (obj w self)) w)) w2 ->
     P self w (logs (resolve_events self (obj w2 self)) w2)) ->
  forall n self w w', resolve_imports env n self w = Returned tt w' -> P self w w'.
Proof.
  intros Hstep. apply resolve_imports_rel_ok. intros self w w2 Hreg Hchain _. now apply Hstep.
Qed.

(** * What [resolve_imports] preserves *)

Lemma loads_app a b : loads (a ++ b) = (loads a ++ loads b)%list.
Proof.
  induction a as [|e a IH]; simpl; [reflexivity|].
  destruct e; simpl; now rewrite IH.
Qed.

Lemma loads_merges self (pending : dict (option string) oid) :
  loads (map (fun item => Merge self (snd item) (fst item)) pending) = [].
Proof. induction pending; simpl; auto. Qed.

Lemma loads_resolve_events self d : loads (resolve_events self d) = [].
Proof.
  unfold resolve_events. rewrite !loads_app.
  assert (H : forall l : list entity, loads (map (fun x => Resolve x self) l) = []).
  { induction l; simpl; auto. }
  now rewrite !H.
Qed.

Lemma resolve_frame_refl w : resolve_frame w w.
Proof. constructor; auto. Qed.

Lemma resolve_frame_trans w1 w2 w3 :
  resolve_frame w1 w2 -> resolve_frame w2 w3 -> resolve_frame w1 w3.
Proof.
  intros [] []. constructor; try congruence; intros.
  - rewrite fr_done1; [now apply fr_done0|]. now rewrite fr_done0.
  - destruct (fr_imports1 x) as [H|H]; [rewrite H; apply fr_imports0 | now right].
  - auto.
Qed.

Lemma set_imports_nil d : imports d = [] -> set_imports [] d = d.
Proof. destruct d; simpl; intros ->; reflexivity. Qed.

Lemma resolve_frame_logs es w : loads es = [] -> resolve_frame w (logs es w).
Proof.
  intros H. constructor; auto. simpl. rewrite loads_app, H. apply app_nil_r.
Qed.

(** The merge loop followed by the clearing of the pending imports. *)
Lemma resolve_frame_merge self w :
  resolve_frame w
    (update self (set_imports []) (merge_all_state self (imports (obj w self)) w)).
Proof.
  destruct (merge_all_state_frame self (imports (obj w self)) w)
    as (H1 & H2 & H3 & H4 & H5 & H6 & H7 & H8 & H9).
  set (w1 := merge_all_state self (imports (obj w self)) w) in *.
  assert (Hobj : forall x, x <> self -> obj (update self (set_imports []) w1) x = obj w x).
  { intros x Hx. rewrite obj_update_ne by congruence. now apply H6. }
  destruct (decide (self < length (heap w))) as [Hlt|Hge].
  - assert (Hself : obj (update self (set_imports []) w1) self = set_imports [] (obj w1 self)).
    { apply obj_update_eq. lia. }
    constructor; simpl; rewrite ?length_alter; auto.
    + intros x Hx. destruct (decide (x = self)) as [->|Hne]; [|now apply Hobj].
      rewrite Hself. unfold w1. rewrite Hx. simpl. now apply set_imports_nil.
    + intros x. destruct (decide (x = self)) as [->|Hne]; [right | left].
      * now rewrite Hself.
      * now rewrite Hobj.
    + intros x s k Hk. destruct (decide (x = self)) as [->|Hne].
      * rewrite Hself.
        replace (slot_of s (set_imports [] (obj w1 self))) with (slot_of s (obj w1 self))
          by (destruct s; reflexivity).
        apply merge_all_state_keys; auto.
      * now rewrite Hobj.
    + intros x. destruct (decide (x = self)) as [->|Hne]; [|now rewrite Hobj].
      rewrite Hself. destruct (obj w1 self); simpl in *; congruence.
    + intros x. destruct (decide (x = self)) as [->|Hne]; [|now rewrite Hobj].
      rewrite Hself. destruct (obj w1 self); simpl in *; congruence.
    + rewrite H5, loads_app, loads_merges. apply app_nil_r.
  - assert (Hd : obj w self = inhabitant) by (apply obj_dangling; lia).
    clear H1 H2 H3 H4 H5 H6 H7 H8 H9 Hobj. subst w1. rewrite Hd. simpl.
    unfold update. rewrite alter_dangling by lia.
    replace (set_heap (heap w) w) with w by now destruct w.
    apply resolve_frame_refl.
Qed.

Lemma chain_frame (P : oid -> WSDL -> WSDL -> Prop) l w w' :
  (forall x v v', P x v v' -> resolve_frame v v') ->
  chain P l w w' -> resolve_frame w w'.
Proof.
  intros HP. induction 1 as [|x l w w1 w2 Hx _ IH].
  - apply resolve_frame_refl.
  - eapply resolve_frame_trans; eauto.
Qed.

(** A call of [resolve_imports] preserves the frame and leaves [self]
    without pending imports. *)
Lemma resolve_imports_frame {env} n self w w' :
  resolve_imports env n self w = Returned tt w' ->
  resolve_frame w w' /\ imports (obj w' self) = [].
Proof.
  revert n self w w'.
  apply (resolve_imports_rel (fun self w w' => resolve_frame w w' /\ imports (obj w' self) = [])).
  intros self w w2 Hreg Hchain.
  pose proof (resolve_frame_merge self w) as Hm.
  assert (Hc : resolve_frame (update self (set_imports [])
                                (merge_all_state self (imports (obj w self)) w)) w2).
  { eapply chain_frame; [|exact Hchain]. intros x v v' [H _]. exact H. }
  assert (Hnil : imports (obj (update self (set_imports [])
                                 (merge_all_state self (imports (obj w self)) w)) self) = []).
  { rewrite obj_update. case_decide; [reflexivity|].
    destruct (merge_all_state_frame self (imports (obj w self)) w)
      as (H1 & _ & _ & _ & _ & _ & H7 & _).
    rewrite H7. destruct (decide (self < length (heap w))) as [Hlt|Hge].
    - exfalso. apply H. split; [reflexivity | lia].
    - rewrite obj_dangling by lia. reflexivity. }
  split.
  - eapply resolve_frame_trans; [exact Hm|].
    eapply resolve_frame_trans; [exact Hc|].
    apply resolve_frame_logs, loads_resolve_events.
  - rewrite obj_logs. rewrite (fr_done _ _ Hc); assumption.
Qed.

(** * One call of [resolve_imports], taken apart *)

Lemma resolve_imports_inv {env} n self w w' :
  resolve_imports env n self w = Returned tt w' ->
  let w1 := update self (set_imports []) (merge_all_state self (imports (obj w self)) w) in
  exists m w2,
    n = S m /\
    forallb (fun item => dict_in (fst item) (_definitions w)) (imports (obj w self)) = true /\
    for_each (dict_values (imports (obj w self))) (resolve_imports env m) w1 = Returned tt w2 /\
    w' = logs (resolve_events self (obj w2 self)) w2 /\
    resolve_frame w1 w2 /\
    obj w2 self = obj w1 self.
Proof.
  intros H w1. destruct n as [|m]; [discriminate|]. exists m.
  rewrite resolve_imports_S, merge_all_spec in H.
  destruct (forallb _ _) eqn:Hreg; [|discriminate].
  destruct (merge_all_state_frame self (imports (obj w self)) w)
    as (_ & _ & _ & _ & _ & _ & Himp & _).
  rewrite Himp in H. fold w1 in H.
  destruct (for_each _ _ w1) as [[] w2| |] eqn:Hrec; try discriminate.
  destruct (resolvable env (obj w2 self)); [|discriminate].
  exists w2. inversion H; subst.
  assert (Hc : resolve_frame w1 w2).
  { eapply (chain_frame (fun x v v' => resolve_frame v v')); [auto|].
    eapply for_each_chain; [|exact Hrec].
    intros x v v' Hx. now apply resolve_imports_frame in Hx. }
  split; [reflexivity|]. split; [reflexivity|]. split; [reflexivity|].
  split; [reflexivity|]. split; [exact Hc|].
  apply (fr_done _ _ Hc). unfold w1. rewrite obj_update. case_decide; [reflexivity|].
  rewrite Himp. destruct (decide (self < length (heap w))) as [Hlt|Hge].
  - exfalso. apply H0. split; [reflexivity|].
    destruct (merge_all_state_frame self (imports (obj w self)) w) as (-> & _). exact Hlt.
  - rewrite obj_dangling by lia. reflexivity.
Qed.

(** The entity maps and the schema of [self] after a call are those after
    its merge loop. *)
Lemma resolve_imports_self {env} n self w w' :
  resolve_imports env n self w = Returned tt w' ->
  self < length (heap w) ->
  obj w' self = set_imports [] (obj (merge_all_state self (imports (obj w self)) w) self).
Proof.
  intros H Hlt. apply resolve_imports_inv in H.
  destruct H as (m & w2 & _ & _ & _ & -> & _ & Hobj).
  rewrite obj_logs, Hobj. apply obj_update_eq.
  destruct (merge_all_state_frame self (imports (obj w self)) w) as (-> & _). exact Hlt.
Qed.

Lemma resolve_imports_dangling {env} n self w w' :
  resolve_imports env n self w = Returned tt w' ->
  ~ self < length (heap w) ->
  obj w' self = inhabitant /\ obj w self = inhabitant.
Proof.
  intros H Hge. apply resolve_imports_frame in H. destruct H as [Hf _].
  split; apply obj_dangling; rewrite ?(fr_length _ _ Hf); lia.
Qed.

(** The entities of [self] found their references in [self] as it is after
    the call. *)
Lemma resolve_imports_resolvable {env} n self w w' :
  resolve_imports env n self w = Returned tt w' -> resolvable env (obj w' self) = true.
Proof.
  revert n self w w'.
  apply (resolve_imports_rel_ok (fun self w w' => resolvable env (obj w' self) = true)).
  intros self w w2 _ _ Hok. now rewrite obj_logs.
Qed.

(** * The log of [resolve_imports] *)

Lemma merge_events_lookup self pending ns b :
  In (ns, b) pending -> exists j, j < length (merge_events self pending) /\
                                  merge_events self pending !! j = Some (Merge self b ns).
Proof.
  intros Hin. apply list_elem_of_In, list_elem_of_lookup in Hin. destruct Hin as [j Hj].
  exists j. unfold merge_events. rewrite length_map. split.
  - eapply lookup_lt_Some; eauto.
  - rewrite list_lookup_fmap, Hj. reflexivity.
Qed.

Lemma merge_events_no_resolve self pending i x d :
  merge_events self pending !! i = Some (Resolve x d) -> False.
Proof.
  unfold merge_events. rewrite list_lookup_fmap.
  destruct (pending !! i); simpl; congruence.
Qed.

Lemma resolve_events_lookup self D i e :
  resolve_events self D !! i = Some e -> exists x, e = Resolve x self.
Proof.
  unfold resolve_events. intros H.
  repeat (apply lookup_app_Some in H; destruct H as [H | [_ H]]);
    rewrite list_lookup_fmap in H;
    match type of H with _ <$> ?o = _ => destruct o; simpl in H; inversion H; eauto end.
Qed.

Lemma chain_log_ok (P : oid -> WSDL -> WSDL -> Prop) l w w' :
  (forall x v v', P x v v' -> resolve_frame v v' /\ log_ok v v') ->
  chain P l w w' -> log_ok w w'.
Proof.
  intros HP. induction 1 as [w|x l w w1 w2 Hx _ IH].
  - exists []. rewrite app_nil_r. split; [reflexivity|]. split.
    + intros i x d Hi. now rewrite lookup_nil in Hi.
    + intros d. now left.
  - apply HP in Hx. destruct Hx as [Hf (tr1 & Ht1 & Hm1 & Hc1)].
    destruct IH as (tr2 & Ht2 & Hm2 & Hc2).
    exists (tr1 ++ tr2)%list. split; [now rewrite Ht2, Ht1, app_assoc|]. split.
    + intros i y d Hi ns b Hin. apply lookup_app_Some in Hi. destruct Hi as [Hi | [Hge Hi]].
      * destruct (Hm1 i y d Hi ns b Hin) as (j & Hj & Hjl). exists j. split; [exact Hj|].
        apply lookup_app_Some. now left.
      * destruct (Hc1 d) as [Heq | Hmg].
        -- rewrite <- Heq in Hin. destruct (Hm2 _ y d Hi ns b Hin) as (j & Hj & Hjl).
           exists (length tr1 + j). split; [lia|].
           apply lookup_app_Some. right. split; [lia|].
           now replace (length tr1 + j - length tr1) with j by lia.
        -- destruct (Hmg ns b Hin) as (j & Hjl). exists j. split.
           ++ apply lookup_lt_Some in Hjl. lia.
           ++ apply lookup_app_Some. now left.
    + intros d. destruct (Hc1 d) as [Heq | Hmg].
      * destruct (Hc2 d) as [Heq2 | Hmg2]; [left; congruence|].
        right. intros ns b Hin. rewrite <- Heq in Hin.
        destruct (Hmg2 ns b Hin) as (j & Hjl). exists (length tr1 + j).
        apply lookup_app_Some. right. split; [lia|].
        now replace (length tr1 + j - length tr1) with j by lia.
      * right. intros ns b Hin. destruct (Hmg ns b Hin) as (j & Hjl). exists j.
        apply lookup_app_Some. now left.
Qed.

Lemma resolve_imports_log {env} n self w w' :
  resolve_imports env n self w = Returned tt w' -> resolve_frame w w' /\ log_ok w w'.
Proof.
  revert n self w w'.
  apply (resolve_imports_rel (fun self w w' => resolve_frame w w' /\ log_ok w w')).
  intros self w w2 Hreg Hchain.
  set (w1 := update self (set_imports []) (merge_all_state self (imports (obj w self)) w)) in *.
  assert (Hf : resolve_frame w1 w2).
  { eapply chain_frame; [|exact Hchain]. intros x v v' [H _]. exact H. }
  assert (Hl : log_ok w1 w2) by (eapply chain_log_ok; [|exact Hchain]; auto).
  pose proof (resolve_frame_merge self w) as Hm. fold w1 in Hm.
  split.
  { eapply resolve_frame_trans; [exact Hm|].
    eapply resolve_frame_trans; [exact Hf|].
    apply resolve_frame_logs, loads_resolve_events. }
  destruct Hl as (rec & Ht & Hmr & Hcm).
  destruct (merge_all_state_frame self (imports (obj w self)) w)
    as (_ & _ & _ & _ & Htr & Hother & _).
  assert (Himp1 : forall d, d <> self -> imports (obj w1 d) = imports (obj w d)).
  { intros d Hd. unfold w1. rewrite obj_update_ne by congruence. now rewrite Hother. }
  exists (merge_events self (imports (obj w self)) ++ rec
          ++ resolve_events self (obj w2 self))%list.
  split.
  { simpl. rewrite Ht. unfold w1 at 1. simpl. rewrite Htr.
    unfold merge_events. now rewrite <- !app_assoc. }
  assert (Hself : forall ns b, In (ns, b) (imports (obj w self)) ->
            exists j, j < length (merge_events self (imports (obj w self))) /\
              (merge_events self (imports (obj w self)) ++ rec
               ++ resolve_events self (obj w2 self))%list !! j = Some (Merge self b ns)).
  { intros ns b Hin. destruct (merge_events_lookup self _ ns b Hin) as (j & Hj & Hjl).
    exists j. split; [exact Hj|]. apply lookup_app_Some. now left. }
  split.
  - intros i x d Hi ns b Hin.
    apply lookup_app_Some in Hi. destruct Hi as [Hi | [Hge Hi]].
    { exfalso. eapply merge_events_no_resolve; eauto. }
    apply lookup_app_Some in Hi. destruct Hi as [Hi | [Hge2 Hi]].
    + destruct (decide (d = self)) as [->|Hne].
      * destruct (Hself ns b Hin) as (j & Hj & Hjl). exists j. split; [lia | exact Hjl].
      * rewrite <- Himp1 in Hin by exact Hne.
        destruct (Hmr _ x d Hi ns b Hin) as (j & Hj & Hjl).
        exists (length (merge_events self (imports (obj w self))) + j). split; [lia|].
        apply lookup_app_Some. right. split; [lia|].
        replace (length (merge_events self (imports (obj w self))) + j
                 - length (merge_events self (imports (obj w self)))) with j by lia.
        apply lookup_app_Some. now left.
    + apply resolve_events_lookup in Hi. destruct Hi as [y Hy]. inversion Hy; subst.
      destruct (Hself ns b Hin) as (j & Hj & Hjl). exists j. split; [lia | exact Hjl].
  - intros d. destruct (decide (d = self)) as [->|Hne].
    + right. intros ns b Hin. destruct (Hself ns b Hin) as (j & _ & Hjl). eauto.
    + destruct (Hcm d) as [Heq | Hmg].
      * left. rewrite obj_logs, Heq. now apply Himp1.
      * right. intros ns b Hin. rewrite <- Himp1 in Hin by exact Hne.
        destruct (Hmg ns b Hin) as (j & Hjl).
        exists (length (merge_events self (imports (obj w self))) + j).
        apply lookup_app_Some. right. split; [lia|].
        replace (length (merge_events self (imports (obj w self))) + j
                 - length (merge_events self (imports (obj w self)))) with j by lia.
        apply lookup_app_Some. now left.
Qed.

(** * Properties of import resolution *)

(** C1 (non-transitive import visibility).  After [resolve_imports] ran on a
    Definitions [a], a qualified name [x] is a key of one of its four maps
    exactly when it was a key of [a] before, or one of the objects [b] that
    [a] imports had it as a key, in the namespace under which [a] imports
    [b].  What [b] itself imports plays no part: in the chain where [a]
    imports only [b], and [x] is not declared by [a], [x] reaches [a] if and
    only if [b] holds [x] under the imported namespace. *)
Theorem nontransitive_import_visibility env n a w w' s x :
  resolve_imports env n a w = Returned tt w' ->
  (dict_in x (slot_of s (obj w' a)) = true <->
   dict_in x (slot_of s (obj w a)) = true \/
   exists ns b, In (ns, b) (imports (obj w a)) /\
                in_namespace ns x = true /\ dict_in x (slot_of s (obj w b)) = true)
  /\
  (forall ns b,
     imports (obj w a) = [(ns, b)] ->
     dict_in x (slot_of s (obj w a)) = false ->
     (dict_in x (slot_of s (obj w' a)) = true <->
      in_namespace ns x = true /\ dict_in x (slot_of s (obj w b)) = true)).
Proof.
  intros H.
  assert (Hgen : dict_in x (slot_of s (obj w' a)) = true <->
    dict_in x (slot_of s (obj w a)) = true \/
    exists ns b, In (ns, b) (imports (obj w a)) /\
                 in_namespace ns x = true /\ dict_in x (slot_of s (obj w b)) = true).
  { destruct (decide (a < length (heap w))) as [Hlt|Hge].
    - rewrite (resolve_imports_self _ _ _ _ H Hlt).
      replace (slot_of s (set_imports [] (obj (merge_all_state a (imports (obj w a)) w) a)))
        with (slot_of s (obj (merge_all_state a (imports (obj w a)) w) a))
        by (destruct s; reflexivity).
      now apply merge_all_state_keys.
    - destruct (resolve_imports_dangling _ _ _ _ H Hge) as [-> ->]. simpl.
      split; [now left | intros [Hk | (ns & b & [] & _)]; exact Hk]. }
  split; [exact Hgen|].
  intros ns b Himp Hown. rewrite Hgen, Himp. split.
  - intros [Hk | (ns' & b' & [Heq | []] & Hp & Hk)]; [congruence|].
    inversion Heq; subst. auto.
  - intros [Hp Hk]. right. exists ns, b. split; [now left | auto].
Qed.

Lemma nontransitive_import_visibility_witness :
  dict_in "{urn:c}x" (slot_of Messages (obj chain_resolved 0)) = true <->
  in_namespace (Some "urn:b") "{urn:c}x" = true /\
  dict_in "{urn:c}x" (slot_of Messages (obj chain_loaded 1)) = true.
Proof.
  apply (nontransitive_import_visibility chain_env 4 0 chain_loaded chain_resolved Messages "{urn:c}x");
    vm_compute; reflexivity.
Defined.

(** C5 (merge idempotence).  Once [resolve_imports] has returned on a
    Definitions, calling it again on the same Definitions returns, leaves
    every object and both registries as they are, and adds to the log only
    the calls of [resolve] on the entities of that Definitions: no document
    is retrieved and nothing is merged. *)
Theorem resolve_imports_idempotent env n m self w w1 :
  resolve_imports env n self w = Returned tt w1 ->
  imports (obj w1 self) = [] /\
  exists w2,
    resolve_imports env (S m) self w1 = Returned tt w2 /\
    heap w2 = heap w1 /\
    nodes w2 = nodes w1 /\
    _definitions w2 = _definitions w1 /\
    _schema_references w2 = _schema_references w1 /\
    trace w2 = (trace w1 ++ resolve_events self (obj w1 self))%list /\
    loads (trace w2) = loads (trace w1).
Proof.
  intros H. pose proof (resolve_imports_resolvable _ _ _ _ H) as Hok.
  apply resolve_imports_frame in H. destruct H as [_ Hnil].
  split; [exact Hnil|].
  exists (logs (resolve_events self (obj w1 self)) w1).
  rewrite resolve_imports_S, Hnil. simpl.
  assert (Hid : update self (set_imports []) w1 = w1).
  { unfold update. replace (alter (set_imports []) self (heap w1)) with (heap w1).
    - now destruct w1.
    - symmetry. apply list_eq. intros j. rewrite list_lookup_alter.
      case_decide; [subst|reflexivity].
      destruct (heap w1 !! j) as [d|] eqn:Hd; [|reflexivity]. simpl. f_equal.
      apply set_imports_nil. unfold obj in Hnil.
      now rewrite (list_lookup_total_correct _ _ _ Hd) in Hnil. }
  unfold ret. rewrite Hid, Hnil. simpl. unfold ret. rewrite Hok.
  repeat split; try reflexivity.
  simpl. rewrite loads_app, loads_resolve_events. apply app_nil_r.
Qed.

Lemma resolve_imports_idempotent_witness :
  imports (obj cycle_resolved 0) = [] /\
  exists w2,
    resolve_imports cycle_env 1 0 cycle_resolved = Returned tt w2 /\
    heap w2 = heap cycle_resolved /\
    nodes w2 = nodes cycle_resolved /\
    _definitions w2 = _definitions cycle_resolved /\
    _schema_references w2 = _schema_references cycle_resolved /\
    trace w2 = (trace cycle_resolved ++ resolve_events 0 (obj cycle_resolved 0))%list /\
    loads (trace w2) = loads (trace cycle_resolved).
Proof.
  apply (resolve_imports_idempotent cycle_env 3 0 0 cycle_loaded cycle_resolved).
  vm_compute. reflexivity.
Defined.

(** * parse_types *)

Lemma reparse_all fs acc w :
  for_fold fs acc (fun acc schema_node => r <- reparse schema_node ;; ret (acc ++ [r])%list) w
  = Returned (acc ++ seq (length (nodes w)) (length fs))%list
      (set_nodes (nodes w ++ fs) w).
Proof.
  revert acc w. induction fs as [|f fs IH]; intros acc w; simpl.
  - unfold ret. rewrite !app_nil_r. now destruct w.
  - unfold bind at 1. unfold bind at 1, reparse at 1. unfold ret at 1.
    rewrite IH. simpl. rewrite length_app. simpl.
    replace (length (nodes w) + 1) with (S (length (nodes w))) by lia.
    now rewrite <- !app_assoc.
Qed.

Lemma register_all fs : forall pre w,
  nodes w = (pre ++ fs)%list ->
  for_each (seq (length pre) (length fs)) (fun schema_node =>
    modify (fun w =>
      let tns := get (nodes w !!! schema_node) "targetNamespace" in
      set_schema_references
        (dict_set ("intschema+" ++ Py.str tns) schema_node (_schema_references w)) w)) w
  = Returned tt (set_schema_references
                   (register_fragments (length pre) fs (_schema_references w)) w).
Proof.
  induction fs as [|f fs IH]; intros pre w Hn; simpl.
  - unfold ret. now destruct w.
  - unfold bind, modify at 1.
    assert (Hf : nodes w !!! length pre = f).
    { rewrite Hn. apply list_lookup_total_middle. reflexivity. }
    rewrite Hf.
    specialize (IH (pre ++ [f])%list
      (set_schema_references
         (dict_set ("intschema+" ++ Py.str (get f "targetNamespace")) (length pre)
            (_schema_references w)) w)).
    rewrite length_app in IH. simpl in IH.
    replace (length pre + 1) with (S (length pre)) in IH by lia.
    rewrite IH; [reflexivity|]. now rewrite <- app_assoc.
Qed.

Lemma relocate_all fs : forall pre w,
  nodes w = (pre ++ fs)%list ->
  for_each (seq (length pre) (length fs)) (fun schema_node =>
    modify (fun w => set_nodes (alter set_schema_locations schema_node (nodes w)) w)) w
  = Returned tt (set_nodes (pre ++ map set_schema_locations fs) w).
Proof.
  induction fs as [|f fs IH]; intros pre w Hn; simpl.
  - unfold ret. rewrite <- Hn. now destruct w.
  - unfold bind, modify at 1.
    specialize (IH (pre ++ [set_schema_locations f])%list
      (set_nodes (alter set_schema_locations (length pre) (nodes w)) w)).
    rewrite length_app in IH. simpl in IH.
    replace (length pre + 1) with (S (length pre)) in IH by lia.
    rewrite IH.
    + simpl. now rewrite <- app_assoc.
    + simpl. rewrite Hn.
      replace (length pre) with (length pre + 0) at 1 by lia.
      rewrite alter_app_r. simpl. now rewrite <- app_assoc.
Qed.

Lemma parse_types_spec doc w :
  parse_types doc w =
  match fragments doc with
  | [] => Returned None w
  | fs =>
      Returned (Some (MkSchema (length (nodes w))))
        (MkWSDL (heap w) (nodes w ++ map set_schema_locations fs) (_definitions w)
           (register_fragments (length (nodes w)) fs (_schema_references w)) (trace w))
  end.
Proof.
  unfold parse_types, fragments.
  destruct (find doc (QName NSMAP_wsdl "types")) as [types|]; [|reflexivity].
  destruct (findall_multiple_ns types "schema" [XSD_2001; XSD_1999]) as [|f fs];
    [reflexivity|].
  unfold bind at 1. rewrite reparse_all. unfold bind at 1.
  rewrite (register_all (f :: fs) (nodes w)) by reflexivity.
  unfold bind at 1.
  rewrite (relocate_all (f :: fs) (nodes w)) by reflexivity.
  reflexivity.
Qed.

Lemma register_fragments_later k fs : forall base refs,
  (forall f, In f fs -> pseudo_location (get f "targetNamespace") <> k) ->
  dict_get k (register_fragments base fs refs) = dict_get k refs.
Proof.
  induction fs as [|f fs IH]; intros base refs Hk; simpl; [reflexivity|].
  rewrite IH by (intros; apply Hk; now right).
  rewrite dict_get_set. case_decide; [|reflexivity].
  exfalso. eapply Hk; [now left | congruence].
Qed.

Lemma register_fragments_get fs : forall base refs i f,
  fs !! i = Some f ->
  (forall j g, i < j -> fs !! j = Some g ->
     pseudo_location (get g "targetNamespace") <> pseudo_location (get f "targetNamespace")) ->
  dict_get (pseudo_location (get f "targetNamespace")) (register_fragments base fs refs)
  = Some (base + i).
Proof.
  induction fs as [|f0 fs IH]; intros base refs i f Hi Hlast; [discriminate|].
  destruct i as [|i]; simpl in *.
  - inversion Hi; subst. rewrite register_fragments_later.
    + rewrite dict_get_set. case_decide; [f_equal; lia | congruence].
    + intros g Hg. apply list_elem_of_In, list_elem_of_lookup in Hg. destruct Hg as [j Hj].
      apply (Hlast (S j) g); [lia | exact Hj].
  - rewrite (IH (S base) _ i f Hi).
    + f_equal. lia.
    + intros j g Hj Hg. apply (Hlast (S j) g); [lia | exact Hg].
Qed.

Lemma set_schema_locations_relocated f :
  Forall2 relocated (children f) (children (set_schema_locations f)).
Proof.
  unfold set_schema_locations. simpl.
  induction (children f) as [|c cs IH]; simpl; constructor; [|exact IH].
  unfold relocated.
  destruct (String.eqb (tag c) import_tag) eqn:Ht.
  - apply String.eqb_eq in Ht.
    destruct (Py.truthy (get c "schemaLocation")) eqn:Hl.
    + right. split; [now right | reflexivity].
    + left. split; [exact Ht|]. split; [reflexivity|]. split; [reflexivity|].
      unfold get, set. simpl. rewrite dict_get_set. now case_decide.
  - apply String.eqb_neq in Ht. right. split; [now left | reflexivity].
Qed.

(** C7, amended (synthetic schema locations).  For every inline schema
    fragment of the types section, [parse_types] stores a copy whose children
    are those of the fragment, except that each import element of the 2001
    XML Schema namespace with an absent or empty [schemaLocation] has it set
    to "intschema+" followed by its namespace attribute; the copy is
    registered under "intschema+" followed by the target namespace of the
    fragment, unless a later fragment has the same key; and the Schema is
    built from the copy of the first fragment, the fragments of the 2001
    schema namespace coming before those of the 1999 one. *)
Theorem synthetic_schema_locations doc w i f :
  fragments doc !! i = Some f ->
  exists w' f',
    parse_types doc w = Returned (Some (MkSchema (length (nodes w)))) w' /\
    nodes w' !! (length (nodes w) + i) = Some f' /\
    tag f' = tag f /\ attrib f' = attrib f /\
    Forall2 relocated (children f) (children f') /\
    ((forall j g, i < j -> fragments doc !! j = Some g ->
        pseudo_location (get g "targetNamespace") <> pseudo_location (get f "targetNamespace")) ->
     dict_get (pseudo_location (get f "targetNamespace")) (_schema_references w')
     = Some (length (nodes w) + i)).
Proof.
  intros Hi. rewrite parse_types_spec.
  destruct (fragments doc) as [|f0 fs] eqn:Hfs; [discriminate|].
  eexists. exists (set_schema_locations f). split; [reflexivity|]. simpl.
  split; [|split; [reflexivity|split; [reflexivity|split]]].
  - rewrite lookup_app_r by lia.
    replace (length (nodes w) + i - length (nodes w)) with i by lia.
    change (set_schema_locations f0 :: map set_schema_locations fs)
      with (set_schema_locations <$> (f0 :: fs)).
    rewrite list_lookup_fmap, Hi. reflexivity.
  - apply set_schema_locations_relocated.
  - intros Hlast.
    apply (register_fragments_get (f0 :: fs) (length (nodes w)) (_schema_references w) i f Hi).
    exact Hlast.
Qed.

Lemma synthetic_schema_locations_witness :
  exists w' f',
    parse_types old_schema_doc empty_WSDL = Returned (Some (MkSchema 0)) w' /\
    nodes w' !! 0 = Some f' /\
    tag f' = QName XSD_2001 "schema" /\ attrib f' = [("targetNamespace", "urn:s2")] /\
    Forall2 relocated
      [Element (QName XSD_2001 "import")
         [("namespace", "urn:s3"); ("schemaLocation", "")] [] []] (children f') /\
    ((forall j g, 0 < j -> fragments old_schema_doc !! j = Some g ->
        pseudo_location (get g "targetNamespace") <> pseudo_location (Some "urn:s2")) ->
     dict_get (pseudo_location (Some "urn:s2")) (_schema_references w') = Some 0).
Proof.
  apply (synthetic_schema_locations old_schema_doc empty_WSDL 0
           (Element (QName XSD_2001 "schema") [("targetNamespace", "urn:s2")] []
              [Element (QName XSD_2001 "import")
                 [("namespace", "urn:s3"); ("schemaLocation", "")] [] []])).
  vm_compute. reflexivity.
Defined.

(** C7 as stated fails: after [parse_types], the import of the fragment in
    the 1999 schema namespace still lacks its [schemaLocation], and the import
    that carried an (empty) [schemaLocation] has been given another one. *)
Lemma schema_locations_counterexample :
  exists w' f1 f2 c1 c2,
    parse_types old_schema_doc empty_WSDL = Returned (Some (MkSchema 0)) w' /\
    nodes w' !! 1 = Some f1 /\ children f1 = [c1] /\
    tag c1 = QName XSD_1999 "import" /\ get c1 "schemaLocation" = None /\
    nodes w' !! 0 = Some f2 /\ children f2 = [c2] /\
    get (Element (QName XSD_2001 "import")
           [("namespace", "urn:s3"); ("schemaLocation", "")] [] []) "schemaLocation" = Some "" /\
    get c2 "schemaLocation" = Some "intschema+urn:s3".
Proof.
  do 5 eexists. vm_compute. repeat split; reflexivity.
Qed.

(** * The entity parsers *)

Lemma entity_parse_inv cls self node w x w' :
  entity_parse cls self node w = Returned x w' ->
  w' = w /\ ent_class x = cls /\ ent_wsdl x = self /\
  exists n, get node "name" = Some n /\
            ent_name x = match target_namespace (obj w self) with
                         | Some ns => QName ns n
                         | None => n
                         end.
Proof.
  unfold entity_parse, bind, gets. destruct (get node "name") as [n|]; [|discriminate].
  unfold ret. intros H. inversion H; subst. simpl.
  split; [reflexivity|]. split; [reflexivity|]. split; [reflexivity|].
  exists n. split; reflexivity.
Qed.

Lemma for_fold_Returned {A S} (I : S -> Prop) (l : list A) acc body w r w' :
  (forall acc x acc' v', In x l -> I acc -> body acc x w = Returned acc' v' ->
                         I acc' /\ v' = w) ->
  I acc -> for_fold l acc body w = Returned r w' -> I r /\ w' = w.
Proof.
  revert acc. induction l as [|x l IH]; intros acc Hb Hacc H; simpl in H.
  - step_in H. auto.
  - step_in H. destruct (Hb acc x a w0 (or_introl eq_refl) Hacc H0) as [Ha ->].
    eapply IH; [| exact Ha | exact H].
    intros; eapply Hb; eauto. now right.
Qed.

Lemma dispatch_cases env node :
  dispatch env node =
  if Soap11Binding_match env node then Some Soap11Binding
  else if Soap12Binding_match env node then Some Soap12Binding
  else None.
Proof.
  unfold dispatch, candidates. simpl.
  destruct (Soap11Binding_match env node); [reflexivity|].
  destruct (Soap12Binding_match env node); reflexivity.
Qed.

Lemma for_fold_ext {A S} (l : list A) (acc : S) body1 body2 w :
  (forall acc x v, In x l -> body1 acc x v = body2 acc x v) ->
  for_fold l acc body1 w = for_fold l acc body2 w.
Proof.
  revert acc w. induction l as [|x l IH]; intros acc w Hb; simpl; [reflexivity|].
  unfold bind. rewrite Hb by now left.
  destruct (body2 acc x w) as [a v| |]; try reflexivity.
  apply IH. intros; apply Hb; now right.
Qed.

(** Dropping items on which the body does nothing does not change a loop. *)
Lemma for_fold_filter {A S} (keep : A -> bool) (l : list A) (acc : S) body w :
  (forall acc x v, keep x = false -> body acc x v = Returned acc v) ->
  for_fold (List.filter keep l) acc body w = for_fold l acc body w.
Proof.
  intros Hskip. revert acc w. induction l as [|x l IH]; intros acc w; simpl; [reflexivity|].
  destruct (keep x) eqn:Hk; simpl.
  - unfold bind. destruct (body acc x w) as [a v| |]; try reflexivity. apply IH.
  - unfold bind. rewrite (Hskip acc x w Hk). apply IH.
Qed.

Lemma filter_filter_comm {A} (p q : A -> bool) (l : list A) :
  List.filter p (List.filter q l) = List.filter q (List.filter p l).
Proof.
  induction l as [|x l IH]; simpl; [reflexivity|].
  destruct (q x) eqn:Hq, (p x) eqn:Hp; simpl; rewrite ?Hq, ?Hp, IH; reflexivity.
Qed.

Lemma entity_parse_spec cls self node w :
  entity_parse cls self node w =
  match get node "name" with
  | None => Raised ParseError
  | Some n =>
      Returned (Entity cls
                  (match target_namespace (obj w self) with
                   | Some ns => QName ns n
                   | None => n
                   end) self) w
  end.
Proof.
  unfold entity_parse, bind, gets. now destruct (get node "name").
Qed.

(** One round of the loop of [parse_binding], by the class that the
    dispatcher selects. *)
Lemma dispatched_step env self l acc node w :
  for_fold (node :: l) acc
    (fun result node =>
       match dispatch env node with
       | Some cls =>
           binding <- entity_parse cls self node ;;
           ret (dict_set (ent_name binding) binding result)
       | None => ret result
       end) w
  = match dispatch env node with
    | Some cls =>
        match entity_parse cls self node w with
        | Returned b _ =>
            for_fold l (dict_set (ent_name b) b acc)
              (fun result node =>
                 match dispatch env node with
                 | Some cls =>
                     binding <- entity_parse cls self node ;;
                     ret (dict_set (ent_name binding) binding result)
                 | None => ret result
                 end) w
        | Raised e => Raised e
        | Diverged => Diverged
        end
    | None =>
        for_fold l acc
          (fun result node =>
             match dispatch env node with
             | Some cls =>
                 binding <- entity_parse cls self node ;;
                 ret (dict_set (ent_name binding) binding result)
             | None => ret result
             end) w
    end.
Proof.
  simpl. unfold bind at 1. destruct (dispatch env node) as [cls|]; [|reflexivity].
  unfold bind at 1. rewrite entity_parse_spec.
  destruct (get node "name"); reflexivity.
Qed.

(** The loop completes when every element that a candidate matches has a
    name, whatever the other elements are. *)
Lemma dispatched_returns env self w l :
  (forall node, In node l -> dispatch env node <> None -> get node "name" <> None) ->
  forall acc, exists result,
    for_fold l acc
      (fun result node =>
         match dispatch env node with
         | Some cls =>
             binding <- entity_parse cls self node ;;
             ret (dict_set (ent_name binding) binding result)
         | None => ret result
         end) w = Returned result w.
Proof.
  induction l as [|node l IH]; intros Hn acc.
  - exists acc. reflexivity.
  - rewrite dispatched_step.
    assert (Hl : forall x, In x l -> dispatch env x <> None -> get x "name" <> None).
    { intros x Hx. apply Hn. now right. }
    destruct (dispatch env node) as [cls|] eqn:Hd; [|apply (IH Hl)].
    rewrite entity_parse_spec.
    destruct (get node "name") as [n|] eqn:Hname.
    + apply (IH Hl).
    + exfalso. apply (Hn node); [now left | rewrite Hd; discriminate | exact Hname].
Qed.

(** An entry that no later element overwrites is in the result. *)
Lemma dispatched_keeps env self w k b l :
  (forall node cls b', In node l -> dispatch env node = Some cls ->
     entity_parse cls self node w = Returned b' w -> ent_name b' <> k) ->
  forall acc result w',
    dict_get k acc = Some b ->
    for_fold l acc
      (fun result node =>
         match dispatch env node with
         | Some cls =>
             binding <- entity_parse cls self node ;;
             ret (dict_set (ent_name binding) binding result)
         | None => ret result
         end) w = Returned result w' ->
    dict_get k result = Some b.
Proof.
  induction l as [|node l IH]; intros Hl acc result w' Hacc H.
  - simpl in H. unfold ret in H. now inversion H; subst.
  - rewrite dispatched_step in H.
    assert (Hl' : forall x cls b', In x l -> dispatch env x = Some cls ->
                    entity_parse cls self x w = Returned b' w -> ent_name b' <> k).
    { intros x cls b' Hx. apply Hl. now right. }
    destruct (dispatch env node) as [cls|] eqn:Hd; [|now apply (IH Hl' acc result w')].
    destruct (entity_parse cls self node w) as [b' w1| |] eqn:He; try discriminate.
    assert (w1 = w) by (apply entity_parse_inv in He; tauto). subst w1.
    eapply (IH Hl'); [|exact H].
    rewrite dict_get_set. case_decide as Hk; [|exact Hacc].
    exfalso. apply (Hl node cls b'); auto. now left.
Qed.

(** The entity of a matched element is in the result, unless a later
    matched element has its key. *)
Lemma dispatched_last env self w pre node post cls b :
  dispatch env node = Some cls ->
  entity_parse cls self node w = Returned b w ->
  (forall node' cls' b', In node' post -> dispatch env node' = Some cls' ->
     entity_parse cls' self node' w = Returned b' w -> ent_name b' <> ent_name b) ->
  forall acc result w',
    for_fold (pre ++ node :: post)%list acc
      (fun result node =>
         match dispatch env node with
         | Some cls =>
             binding <- entity_parse cls self node ;;
             ret (dict_set (ent_name binding) binding result)
         | None => ret result
         end) w = Returned result w' ->
    dict_get (ent_name b) result = Some b.
Proof.
  intros Hd He Hpost. induction pre as [|x pre IH]; intros acc result w' H.
  - simpl app in H. rewrite dispatched_step, Hd, He in H.
    eapply dispatched_keeps; [exact Hpost | | exact H].
    rewrite dict_get_set. now case_decide.
  - change (((x :: pre) ++ node :: post)%list) with (x :: (pre ++ node :: post))%list in H.
    rewrite dispatched_step in H.
    destruct (dispatch env x) as [c|]; [|exact (IH _ _ _ H)].
    destruct (entity_parse c self x w) as [b' w1| |]; try discriminate.
    exact (IH _ _ _ H).
Qed.

(** The key of a matched element is in the result. *)
Lemma dispatched_present env self w k l :
  forall acc result w',
    (dict_get k acc <> None \/
     exists node cls b, In node l /\ dispatch env node = Some cls /\
                        entity_parse cls self node w = Returned b w /\ ent_name b = k) ->
    for_fold l acc
      (fun result node =>
         match dispatch env node with
         | Some cls =>
             binding <- entity_parse cls self node ;;
             ret (dict_set (ent_name binding) binding result)
         | None => ret result
         end) w = Returned result w' ->
    dict_get k result <> None.
Proof.
  induction l as [|x l IH]; intros acc result w' Hk H.
  - simpl in H. unfold ret in H. inversion H; subst.
    destruct Hk as [Hk|(node & _ & _ & [] & _)]. exact Hk.
  - rewrite dispatched_step in H.
    destruct (dispatch env x) as [c|] eqn:Hd.
    + destruct (entity_parse c self x w) as [b' w1| |] eqn:He; try discriminate.
      assert (w1 = w) by (apply entity_parse_inv in He; tauto). subst w1.
      eapply IH; [|exact H].
      destruct (decide (k = ent_name b')) as [Hkb|Hkb].
      * left. rewrite dict_get_set. case_decide; [discriminate|contradiction].
      * destruct Hk as [Hk|(node & cls & b & [<-|Hin] & Hdn & Hen & Hname)].
        -- left. rewrite dict_get_set. now case_decide.
        -- rewrite Hd in Hdn. inversion Hdn; subst cls. rewrite He in Hen.
           inversion Hen; subst. contradiction.
        -- right. exists node, cls, b. auto.
    + eapply IH; [|exact H].
      destruct Hk as [Hk|(node & cls & b & [<-|Hin] & Hdn & Hen & Hname)].
      * now left.
      * rewrite Hd in Hdn. discriminate.
      * right. exists node, cls, b. auto.
Qed.

(** C8 (binding dispatch).  [parse_binding] tries the SOAP 1.1 test and
    then the SOAP 1.2 test on each binding element, in document order:
    - the class of an element is SOAP 1.1 when the first test accepts it,
      SOAP 1.2 when only the second does, and none otherwise;
    - an element that neither test accepts is skipped: the result, error or
      not, is that of the document without such elements, and the loop
      completes as soon as every accepted element can be parsed, whatever
      the skipped ones are;
    - every entry of the returned map is the parsed entity of an accepted
      element, with its class;
    - every accepted element is processed, wherever it stands among skipped
      ones: its key is in the map, and its entity is the value unless a
      later accepted element has the same key;
    - a key that only skipped elements would have is absent from the map. *)
Theorem binding_dispatch env self doc w :
  (forall node,
     dispatch env node =
     if Soap11Binding_match env node then Some Soap11Binding
     else if Soap12Binding_match env node then Some Soap12Binding
     else None) /\
  parse_binding env self doc w = dispatched_bindings env self doc w /\
  parse_binding env self doc w = parse_binding env self (supported env doc) w /\
  ((forall node, In node (findall doc binding_tag) ->
      dispatch env node <> None -> get node "name" <> None) ->
   exists result, parse_binding env self doc w = Returned result w) /\
  (forall result w',
     parse_binding env self doc w = Returned result w' ->
     w' = w /\
     (forall k b, dict_get k result = Some b ->
        exists node, In node (findall doc binding_tag) /\
                     dispatch env node = Some (ent_class b) /\
                     entity_parse (ent_class b) self node w = Returned b w /\
                     ent_name b = k) /\
     (forall node cls b,
        In node (findall doc binding_tag) ->
        dispatch env node = Some cls ->
        entity_parse cls self node w = Returned b w ->
        dict_get (ent_name b) result <> None) /\
     (forall pre node post cls b,
        findall doc binding_tag = (pre ++ node :: post)%list ->
        dispatch env node = Some cls ->
        entity_parse cls self node w = Returned b w ->
        (forall node' cls' b', In node' post -> dispatch env node' = Some cls' ->
           entity_parse cls' self node' w = Returned b' w -> ent_name b' <> ent_name b) ->
        dict_get (ent_name b) result = Some b) /\
     (forall k,
        (forall node cls b, In node (findall doc binding_tag) ->
           entity_parse cls self node w = Returned b w -> ent_name b = k ->
           dispatch env node = None) ->
        dict_get k result = None)).
Proof.
  assert (Hd : forall d v, parse_binding env self d v = dispatched_bindings env self d v).
  { intros d v. unfold parse_binding, dispatched_bindings. apply for_fold_ext.
    intros acc x u _. rewrite dispatch_cases.
    destruct (Soap11Binding_match env x); [reflexivity|].
    destruct (Soap12Binding_match env x); reflexivity. }
  split; [apply dispatch_cases|].
  split; [apply Hd|]. split; [|split].
  - rewrite !Hd. unfold dispatched_bindings, supported, findall. simpl.
    rewrite filter_filter_comm.
    rewrite (for_fold_filter
               (fun c => negb (String.eqb (tag c) binding_tag)
                         || match dispatch env c with Some _ => true | None => false end)).
    + reflexivity.
    + intros acc x v Hk. apply orb_false_iff in Hk. destruct Hk as [_ Hk].
      destruct (dispatch env x); [discriminate | reflexivity].
  - intros Hn. rewrite Hd. unfold dispatched_bindings.
    apply (dispatched_returns env self w _ Hn).
  - intros result w' H. rewrite Hd in H. unfold dispatched_bindings in H.
    assert (Hsound : w' = w /\
              forall k b, dict_get k result = Some b ->
                exists node, In node (findall doc binding_tag) /\
                             dispatch env node = Some (ent_class b) /\
                             entity_parse (ent_class b) self node w = Returned b w /\
                             ent_name b = k).
    { apply and_comm. eapply (for_fold_Returned
                (fun acc => forall k b, dict_get k acc = Some b ->
                   exists node, In node (findall doc binding_tag) /\
                                dispatch env node = Some (ent_class b) /\
                                entity_parse (ent_class b) self node w = Returned b w /\
                                ent_name b = k)); [| |exact H].
      - intros acc x acc' v' Hx Hacc Hb. cbv beta in Hb.
        destruct (dispatch env x) as [cls|] eqn:Hdx.
        + step_in Hb. step_in Hb.
          pose proof H0 as He. apply entity_parse_inv in H0.
          destruct H0 as (-> & Hc & _). split; [|reflexivity].
          intros k b Hk. rewrite dict_get_set in Hk. case_decide.
          * inversion Hk; subst. exists x. rewrite Hdx. auto.
          * now apply Hacc.
        + step_in Hb. split; [exact Hacc | reflexivity].
      - intros k b Hk. discriminate. }
    destruct Hsound as [-> Hsound].
    split; [reflexivity|]. split; [exact Hsound|]. split; [|split].
    + intros node cls b Hin Hdn He.
      eapply dispatched_present; [|exact H].
      right. exists node, cls, b. auto.
    + intros pre node post cls b Hl Hdn He Hpost. rewrite Hl in H.
      eapply dispatched_last; eauto.
    + intros k Hk. destruct (dict_get k result) as [b|] eqn:Hg; [|reflexivity].
      destruct (Hsound k b Hg) as (node & Hin & Hdn & He & Hname).
      rewrite (Hk node (ent_class b) b Hin He Hname) in Hdn. discriminate.
Qed.

Lemma binding_dispatch_witness :
  exists result,
    parse_binding mixed_env 0 mixed_doc cycle_loaded = Returned result cycle_loaded /\
    dict_get "{urn:a}Http" result = None /\
    dict_get "{urn:a}B12" result = Some (Entity Soap12Binding "{urn:a}B12" 0) /\
    dict_get "{urn:a}Both" result = Some (Entity Soap11Binding "{urn:a}Both" 0) /\
    dict_get "{urn:a}B11" result = Some (Entity Soap11Binding "{urn:a}B11" 0).
Proof.
  destruct (binding_dispatch mixed_env 0 mixed_doc cycle_loaded)
    as (_ & _ & _ & Hret & Hres).
  destruct Hret as [result Hr].
  { intros node Hin Hd.
    vm_compute in Hin. decompose [or] Hin; clear Hin; subst; try contradiction;
      try discriminate; exfalso; apply Hd; vm_compute; reflexivity. }
  exists result. split; [exact Hr|].
  destruct (Hres result cycle_loaded Hr) as (_ & _ & _ & Hlast & Habsent).
  split; [|split; [|split]].
  - apply Habsent. intros node cls b Hin He Hname.
    vm_compute in Hin. decompose [or] Hin; clear Hin; subst; try contradiction;
      try reflexivity; vm_compute in He; inversion He; subst; discriminate.
  - apply (Hlast [binding_element (Some "Http") [HTTP_ns]; binding_element None []]
             (binding_element (Some "B12") [SOAP12_ns])
             [binding_element (Some "Both") [SOAP12_ns; SOAP11_ns];
              binding_element (Some "B11") [SOAP11_ns]]
             Soap12Binding (Entity Soap12Binding "{urn:a}B12" 0));
      try (vm_compute; reflexivity).
    intros node' cls' b' Hin Hd He.
    vm_compute in Hin. decompose [or] Hin; clear Hin; subst; try contradiction;
      vm_compute in He; inversion He; subst; discriminate.
  - apply (Hlast [binding_element (Some "Http") [HTTP_ns]; binding_element None [];
                  binding_element (Some "B12") [SOAP12_ns]]
             (binding_element (Some "Both") [SOAP12_ns; SOAP11_ns])
             [binding_element (Some "B11") [SOAP11_ns]]
             Soap11Binding (Entity Soap11Binding "{urn:a}Both" 0));
      try (vm_compute; reflexivity).
    intros node' cls' b' Hin Hd He.
    vm_compute in Hin. decompose [or] Hin; clear Hin; subst; try contradiction;
      vm_compute in He; inversion He; subst; discriminate.
  - apply (Hlast [binding_element (Some "Http") [HTTP_ns]; binding_element None [];
                  binding_element (Some "B12") [SOAP12_ns];
                  binding_element (Some "Both") [SOAP12_ns; SOAP11_ns]]
             (binding_element (Some "B11") [SOAP11_ns])
             []
             Soap11Binding (Entity Soap11Binding "{urn:a}B11" 0));
      try (vm_compute; reflexivity).
    intros node' cls' b' [].
Defined.

(** * Loading a document *)

Lemma load_document_spec env location w :
  load_document env location w =
  match lookup_document env location with
  | None => Raised (if is_http location then TransportError else IOError)
  | Some None => Raised XMLSyntaxError
  | Some (Some doc) => Returned doc (log (Fetch location) w)
  end.
Proof. reflexivity. Qed.

Lemma Definitions_init_S env n location w :
  Definitions_init env (S n) location w =
  match lookup_document env location with
  | None => Raised (if is_http location then TransportError else IOError)
  | Some None => Raised XMLSyntaxError
  | Some (Some doc) =>
      match parse_imports (Definitions_init env n) (length (heap w)) doc
              (begin_load location doc w) with
      | Returned _ w1 => finish_load env (length (heap w)) doc w1
      | Raised e => Raised e
      | Diverged => Diverged
      end
  end.
Proof.
  cbn [Definitions_init]. unfold bind at 1. rewrite load_document_spec.
  destruct (lookup_document env location) as [[doc|]|]; try reflexivity.
Qed.

Lemma parse_import_spec build self node w :
  parse_import build self node w =
  match get node "location" with
  | None => Raised TypeError
  | Some href =>
      match dict_get (get node "namespace") (_definitions w) with
      | Some registered =>
          Returned tt (update self (add_import (get node "namespace") registered) w)
      | None =>
          match build (import_target (location (obj w self)) href) w with
          | Returned o w1 =>
              Returned tt (update self (add_import (get node "namespace") o) w1)
          | Raised e => Raised e
          | Diverged => Diverged
          end
      end
  end.
Proof.
  unfold parse_import, bind, gets. destruct (get node "location") as [href|]; [|reflexivity].
  destruct (dict_get (get node "namespace") (_definitions w)); reflexivity.
Qed.

Lemma parse_imports_chain (P : string -> WSDL -> oid -> WSDL -> Prop) build self nodes w w' :
  (forall l v o v', build l v = Returned o v' -> P l v o v') ->
  for_each nodes (parse_import build self) w = Returned tt w' ->
  import_chain P self nodes w w'.
Proof.
  intros Hb. revert w. induction nodes as [|node nodes IH]; intros w H; simpl in H.
  - step_in H. constructor.
  - step_in H. destruct a. rewrite parse_import_spec in H0.
    destruct (get node "location") as [href|] eqn:Hl; [|discriminate].
    destruct (dict_get (get node "namespace") (_definitions w)) as [r|] eqn:Hr.
    + inversion H0; subst. eapply import_chain_reuse; eauto.
    + destruct (build _ w) as [o w1| |] eqn:Hbuild; try discriminate.
      inversion H0; subst. eapply import_chain_build; eauto.
Qed.

(** Induction over the constructor calls of a load. *)
Lemma Definitions_init_rel env (P : string -> WSDL -> oid -> WSDL -> Prop) :
  (forall location doc w w1 o w',
     lookup_document env location = Some (Some doc) ->
     import_chain P (length (heap w)) (findall doc import_tag_wsdl)
       (begin_load location doc w) w1 ->
     finish_load env (length (heap w)) doc w1 = Returned o w' ->
     P location w o w') ->
  forall n location w o w',
    Definitions_init env n location w = Returned o w' -> P location w o w'.
Proof.
  intros Hstep. induction n as [|n IH]; intros location w o w' H; [discriminate|].
  rewrite Definitions_init_S in H.
  destruct (lookup_document env location) as [[doc|]|] eqn:Hdoc; try discriminate.
  destruct (parse_imports _ _ _ _) as [[] w1| |] eqn:Himp; try discriminate.
  eapply Hstep; eauto.
  eapply parse_imports_chain; [|exact Himp]. exact IH.
Qed.

Lemma append_cons ch (a b : string) : (String ch a ++ b)%string = String ch (a ++ b).
Proof. reflexivity. Qed.

Lemma prefix_self_append a c : String.prefix a (a ++ c) = true.
Proof.
  induction a as [|ch a IH]; [now destruct c|].
  rewrite append_cons. simpl. destruct (ascii_dec ch ch) as [_|Hne]; [exact IH | congruence].
Qed.

Lemma string_app_assoc (a b c : string) : ((a ++ b) ++ c = a ++ (b ++ c))%string.
Proof.
  induction a as [|ch a IH]; [reflexivity|].
  rewrite !append_cons. f_equal. exact IH.
Qed.

Lemma QName_in_namespace ns n : in_namespace (Some ns) (QName ns n) = true.
Proof.
  unfold in_namespace, QName, Py.startswith. simpl Py.str.
  rewrite <- (string_app_assoc ns "}" n), <- (string_app_assoc "{" (ns ++ "}") n).
  apply prefix_self_append.
Qed.

Lemma In_dict_set {K V} `{EqDecision K} (k k' : K) (v v' : V) d :
  In (k', v') (dict_set k v d) -> (k', v') = (k, v) \/ In (k', v') d.
Proof.
  induction d as [|[k0 v0] d IH]; simpl.
  - intros [Hx|[]]; left; congruence.
  - case_decide; simpl.
    + intros [Hx|Hx]; [left; congruence | right; now right].
    + intros [Hx|Hx]; [right; now left|].
      apply IH in Hx. destruct Hx; [now left | right; now right].
Qed.

Lemma declared_by_set self tns x m :
  declared_by self tns m ->
  ent_wsdl x = self ->
  (forall ns, tns = Some ns -> in_namespace (Some ns) (ent_name x) = true) ->
  declared_by self tns (dict_set (ent_name x) x m).
Proof.
  intros Hm Hw Hn k y Hin. apply In_dict_set in Hin. destruct Hin as [Heq|Hin].
  - inversion Heq; subst. auto.
  - now apply Hm.
Qed.

Lemma entity_parse_declared cls self node w x w' :
  entity_parse cls self node w = Returned x w' ->
  w' = w /\ ent_wsdl x = self /\
  (forall ns, target_namespace (obj w self) = Some ns ->
              in_namespace (Some ns) (ent_name x) = true).
Proof.
  intros H. apply entity_parse_inv in H. destruct H as (-> & _ & Hs & n & _ & Hn).
  split; [reflexivity|]. split; [exact Hs|].
  intros ns Hns. rewrite Hn, Hns. apply QName_in_namespace.
Qed.

Lemma parse_named_inv cls local self doc w m w' :
  parse_named cls local self doc w = Returned m w' ->
  declared_by self (target_namespace (obj w self)) m /\ w' = w.
Proof.
  unfold parse_named. intros H.
  eapply (for_fold_Returned (declared_by self (target_namespace (obj w self)))) in H.
  - exact H.
  - intros acc x acc' v' _ Hacc Hb. step_in Hb. step_in Hb.
    apply entity_parse_declared in H0. destruct H0 as (-> & Hw & Hn).
    split; [|reflexivity]. apply declared_by_set; auto.
  - intros k x [].
Qed.

Lemma parse_binding_inv env self doc w m w' :
  parse_binding env self doc w = Returned m w' ->
  declared_by self (target_namespace (obj w self)) m /\ w' = w.
Proof.
  unfold parse_binding. intros H.
  eapply (for_fold_Returned (declared_by self (target_namespace (obj w self)))) in H.
  - exact H.
  - intros acc x acc' v' _ Hacc Hb.
    destruct (Soap11Binding_match env x); [|destruct (Soap12Binding_match env x)].
    + step_in Hb. step_in Hb.
      apply entity_parse_declared in H0. destruct H0 as (-> & Hw & Hn).
      split; [|reflexivity]. apply declared_by_set; auto.
    + step_in Hb. step_in Hb.
      apply entity_parse_declared in H0. destruct H0 as (-> & Hw & Hn).
      split; [|reflexivity]. apply declared_by_set; auto.
    + step_in Hb. auto.
  - intros k x [].
Qed.

Lemma for_fold_not_Diverged {A S} (l : list A) (acc : S) body w :
  (forall acc x v, body acc x v <> Diverged) -> for_fold l acc body w <> Diverged.
Proof.
  intros Hb. revert acc w. induction l as [|x l IH]; intros acc w; simpl.
  - discriminate.
  - intros H. apply bind_Diverged in H. destruct H as [H | (a & w1 & _ & H)].
    + now apply Hb in H.
    + now apply IH in H.
Qed.

Lemma entity_parse_not_Diverged cls self node w : entity_parse cls self node w <> Diverged.
Proof.
  unfold entity_parse, bind, gets. now destruct (get node "name").
Qed.

Lemma parse_named_not_Diverged cls local self doc w :
  parse_named cls local self doc w <> Diverged.
Proof.
  apply for_fold_not_Diverged. intros acc x v H.
  apply bind_Diverged in H. destruct H as [H | (a & w1 & _ & H)]; [|discriminate].
  now apply entity_parse_not_Diverged in H.
Qed.

Lemma parse_binding_not_Diverged env self doc w : parse_binding env self doc w <> Diverged.
Proof.
  apply for_fold_not_Diverged. intros acc x v H.
  destruct (Soap11Binding_match env x); [|destruct (Soap12Binding_match env x)];
    try discriminate;
    apply bind_Diverged in H; destruct H as [H | (a & w1 & _ & H)]; try discriminate;
    now apply entity_parse_not_Diverged in H.
Qed.

Lemma parse_types_frame doc w v w' :
  parse_types doc w = Returned v w' ->
  heap w' = heap w /\ _definitions w' = _definitions w /\ trace w' = trace w.
Proof.
  rewrite parse_types_spec. destruct (fragments doc); intros H; inversion H; auto.
Qed.

Lemma finish_load_not_Diverged env self doc w : finish_load env self doc w <> Diverged.
Proof.
  unfold finish_load. intros H.
  apply bind_Diverged in H. destruct H as [H | (v & w1 & _ & H)].
  { rewrite parse_types_spec in H. destruct (fragments doc); discriminate. }
  step_in H.
  apply bind_Diverged in H. destruct H as [H | (m & w2 & _ & H)].
  { now apply parse_named_not_Diverged in H. }
  step_in H.
  apply bind_Diverged in H. destruct H as [H | (p & w3 & _ & H)].
  { now apply parse_named_not_Diverged in H. }
  step_in H.
  apply bind_Diverged in H. destruct H as [H | (b & w4 & _ & H)].
  { now apply parse_binding_not_Diverged in H. }
  step_in H.
  apply bind_Diverged in H. destruct H as [H | (s & w5 & _ & H)].
  { now apply parse_named_not_Diverged in H. }
  step_in H. discriminate.
Qed.

Lemma target_namespace_update o f w x :
  (forall d, target_namespace (f d) = target_namespace d) ->
  target_namespace (obj (update o f w) x) = target_namespace (obj w x).
Proof. intros Hf. rewrite obj_update. case_decide as H; [destruct H as [-> _]; apply Hf | reflexivity]. Qed.

Lemma finish_load_inv env self doc w o w' :
  finish_load env self doc w = Returned o w' ->
  o = self /\
  exists v w2 m p b s,
    parse_types doc w = Returned v w2 /\
    declared_by self (target_namespace (obj w self)) m /\
    declared_by self (target_namespace (obj w self)) p /\
    declared_by self (target_namespace (obj w self)) b /\
    declared_by self (target_namespace (obj w self)) s /\
    w' = update self (fill v m p b s) w2.
Proof.
  unfold finish_load. intros H.
  step_in H. rename a into v, w0 into w2, H0 into Hv.
  destruct (parse_types_frame _ _ _ _ Hv) as (Hh & _).
  assert (Ht2 : target_namespace (obj w2 self) = target_namespace (obj w self)).
  { unfold obj. now rewrite Hh. }
  step_in H. step_in H. apply parse_named_inv in H0. destruct H0 as [Hm ->].
  rewrite target_namespace_update, Ht2 in Hm by reflexivity. rename a into m.
  step_in H. step_in H. apply parse_named_inv in H0. destruct H0 as [Hp ->].
  rewrite !target_namespace_update, Ht2 in Hp by reflexivity. rename a into p.
  step_in H. step_in H. apply parse_binding_inv in H0. destruct H0 as [Hb ->].
  rewrite !target_namespace_update, Ht2 in Hb by reflexivity. rename a into b.
  step_in H. step_in H. apply parse_named_inv in H0. destruct H0 as [Hs ->].
  rewrite !target_namespace_update, Ht2 in Hs by reflexivity. rename a into s.
  step_in H. step_in H.
  split; [reflexivity|]. exists v, w2, m, p, b, s.
  repeat (split; [assumption|]).
  rewrite !update_update. reflexivity.
Qed.

(** * What a load preserves *)

Lemma import_chain_impl (P Q : string -> WSDL -> oid -> WSDL -> Prop) self nodes w w' :
  (forall l v o v', P l v o v' -> Q l v o v') ->
  import_chain P self nodes w w' -> import_chain Q self nodes w w'.
Proof.
  intros HPQ. induction 1.
  - constructor.
  - eapply import_chain_reuse; eauto.
  - eapply import_chain_build; eauto.
Qed.

Lemma obj_begin_load_old location doc w x :
  x < length (heap w) -> obj (begin_load location doc w) x = obj w x.
Proof. intros Hx. unfold obj, begin_load. simpl. now rewrite lookup_total_app_l. Qed.

Lemma obj_begin_load_new location doc w :
  obj (begin_load location doc w) (length (heap w))
  = MkDefinitions location (get doc "targetNamespace") (el_nsmap doc) None [] [] [] [] [].
Proof.
  unfold obj, begin_load. simpl. rewrite lookup_total_app_r by lia.
  now replace (length (heap w) - length (heap w)) with 0 by lia.
Qed.

Lemma dict_keys_set {V} (k : option string) (v : V) d :
  dict_keys (dict_set k v d)
  = if bool_decide (k ∈ dict_keys d) then dict_keys d else (dict_keys d ++ [k])%list.
Proof.
  case_bool_decide as Hk.
  - apply dict_keys_set_in. apply dict_in_keys. now apply list_elem_of_In.
  - apply dict_keys_set_notin. destruct (dict_in k d) eqn:Hd; [|reflexivity].
    exfalso. apply Hk. apply list_elem_of_In. now apply dict_in_keys.
Qed.

Lemma add_import_spec ns o d :
  add_import ns o d = set_imports (imports (add_import ns o d)) d /\
  dict_keys (imports (add_import ns o d))
  = (if bool_decide (ns ∈ dict_keys (imports d)) then dict_keys (imports d)
     else (dict_keys (imports d) ++ [ns])%list).
Proof. split; [reflexivity|]. unfold add_import. simpl. apply dict_keys_set. Qed.

Lemma set_imports_set_imports a b d : set_imports a (set_imports b d) = set_imports a d.
Proof. reflexivity. Qed.

Lemma import_chain_frame env self nodes w0 w1 :
  import_chain (load_frame env) self nodes w0 w1 ->
  self < length (heap w0) ->
  length (heap w0) <= length (heap w1) /\
  (forall x, x < length (heap w0) -> x <> self -> obj w1 x = obj w0 x) /\
  (forall k, dict_in k (_definitions w0) = true -> dict_in k (_definitions w1) = true) /\
  obj w1 self = set_imports (imports (obj w1 self)) (obj w0 self) /\
  dict_keys (imports (obj w1 self)) = import_keys nodes (dict_keys (imports (obj w0 self))).
Proof.
  induction 1 as [w | node nodes w w' href registered Hl Hr _ IH
                    | node nodes w w1 w' href o Hl Hr HP _ IH]; intros Hself.
  - split; [lia|]. split; [auto|]. split; [auto|]. split; [|reflexivity].
    now destruct (obj w self).
  - destruct IH as (H1 & H2 & H3 & H4 & H5).
    { now rewrite length_heap_update. }
    rewrite length_heap_update in *. rewrite obj_update_eq in H4, H5 by exact Hself.
    split; [exact H1|]. split; [|split; [exact H3|split]].
    + intros x Hx Hne. rewrite H2 by assumption. now rewrite obj_update_ne by congruence.
    + rewrite H4 at 1. reflexivity.
    + rewrite H5. simpl. f_equal. apply dict_keys_set.
  - destruct HP as [Hnew Hlen Hold Hreg Hloc Hdoc].
    destruct IH as (H1 & H2 & H3 & H4 & H5).
    { rewrite length_heap_update. lia. }
    rewrite length_heap_update in *.
    rewrite obj_update_eq in H4, H5 by lia. rewrite (Hold self Hself) in H4, H5.
    split; [lia|]. split; [|split; [|split]].
    + intros x Hx Hne. rewrite H2 by (lia || assumption).
      rewrite obj_update_ne by congruence. now apply Hold.
    + intros k Hk. apply H3. simpl. now apply Hreg.
    + rewrite H4 at 1. reflexivity.
    + rewrite H5. simpl. f_equal. apply dict_keys_set.
Qed.

Lemma dict_in_set_mono {K V} `{EqDecision K} (k k' : K) (v : V) d :
  dict_in k' d = true -> dict_in k' (dict_set k v d) = true.
Proof. intros H. rewrite dict_in_set. now case_decide. Qed.

Lemma load_step_frame env location doc w w1 o w' :
  lookup_document env location = Some (Some doc) ->
  import_chain (load_frame env) (length (heap w)) (findall doc import_tag_wsdl)
    (begin_load location doc w) w1 ->
  finish_load env (length (heap w)) doc w1 = Returned o w' ->
  load_frame env location w o w'.
Proof.
  intros Hdoc Hchain Hfin.
  apply finish_load_inv in Hfin.
  destruct Hfin as (-> & v & w2 & m & p & b & s & Hv & _ & _ & _ & _ & ->).
  destruct (parse_types_frame _ _ _ _ Hv) as (Hh & Hr & _).
  assert (Hobj2 : forall x, obj w2 x = obj w1 x) by (intros; unfold obj; now rewrite Hh).
  destruct (import_chain_frame env _ _ _ _ Hchain) as (H1 & H2 & H3 & H4 & _).
  { unfold begin_load. simpl. rewrite length_app. simpl. lia. }
  assert (Hlen0 : length (heap (begin_load location doc w)) = S (length (heap w))).
  { unfold begin_load. simpl. rewrite length_app. simpl. lia. }
  rewrite Hlen0 in *.
  assert (Hself : obj (update (length (heap w)) (fill v m p b s) w2) (length (heap w))
                  = fill v m p b s (obj w1 (length (heap w)))).
  { rewrite obj_update_eq by (rewrite Hh; lia). now rewrite Hobj2. }
  constructor.
  - reflexivity.
  - rewrite length_heap_update, Hh. lia.
  - intros x Hx. rewrite obj_update_ne by lia. rewrite Hobj2, H2 by lia.
    now apply obj_begin_load_old.
  - intros k Hk. simpl. rewrite Hr. apply H3. simpl. now apply dict_in_set_mono.
  - rewrite Hself, H4, obj_begin_load_new. reflexivity.
  - exists doc. split; [exact Hdoc|]. rewrite Hself, H4, obj_begin_load_new. reflexivity.
Qed.

Lemma Definitions_init_frame env n location w o w' :
  Definitions_init env n location w = Returned o w' -> load_frame env location w o w'.
Proof.
  revert n location w o w'. apply Definitions_init_rel.
  intros location doc w w1 o w'. apply load_step_frame.
Qed.

Lemma Definitions_init_import_keys env n location w o w' :
  Definitions_init env n location w = Returned o w' ->
  exists doc, lookup_document env location = Some (Some doc) /\
              dict_keys (imports (obj w' o)) = import_keys (findall doc import_tag_wsdl) [].
Proof.
  destruct n as [|n]; [discriminate|]. rewrite Definitions_init_S.
  destruct (lookup_document env location) as [[doc|]|] eqn:Hdoc; try discriminate.
  destruct (parse_imports _ _ _ _) as [[] w1| |] eqn:Himp; try discriminate.
  intros Hfin. exists doc. split; [reflexivity|].
  apply finish_load_inv in Hfin.
  destruct Hfin as (-> & v & w2 & m & p & b & s & Hv & _ & _ & _ & _ & ->).
  destruct (parse_types_frame _ _ _ _ Hv) as (Hh & _).
  assert (Hchain : import_chain (load_frame env) (length (heap w))
                     (findall doc import_tag_wsdl) (begin_load location doc w) w1).
  { eapply parse_imports_chain; [|exact Himp].
    intros l u x u' Hx. now apply Definitions_init_frame in Hx. }
  destruct (import_chain_frame env _ _ _ _ Hchain) as (H1 & _ & _ & _ & H5).
  { unfold begin_load. simpl. rewrite length_app. simpl. lia. }
  rewrite obj_begin_load_new in H5. simpl in H5. rewrite <- H5.
  rewrite obj_update_eq.
  - unfold obj. rewrite Hh. reflexivity.
  - rewrite Hh. unfold begin_load in H1. simpl in H1. rewrite length_app in H1.
    simpl in H1. lia.
Qed.

(** C6 (schema fallback).  After [resolve_imports] on a Definitions, its
    schema is its own when it had one, and otherwise the schema of the first
    pending import that has one, in the order of its pending imports; and
    the pending imports that the constructor leaves list the namespaces of
    the import elements in document order. *)
Theorem schema_fallback_first_import env m self w w' :
  resolve_imports env m self w = Returned tt w' ->
  schema (obj w' self) =
    match schema (obj w self) with
    | Some s => Some s
    | None => first_schema w (imports (obj w self))
    end
  /\
  (forall env' n location v o v',
     Definitions_init env' n location v = Returned o v' ->
     exists doc, lookup_document env' location = Some (Some doc) /\
       dict_keys (imports (obj v' o)) = import_keys (findall doc import_tag_wsdl) []).
Proof.
  intros H. split; [|intros; eapply Definitions_init_import_keys; eauto].
  destruct (decide (self < length (heap w))) as [Hlt|Hge].
  - rewrite (resolve_imports_self _ _ _ _ H Hlt).
    replace (schema (set_imports [] (obj (merge_all_state self (imports (obj w self)) w) self)))
      with (schema (obj (merge_all_state self (imports (obj w self)) w) self)) by reflexivity.
    now apply merge_all_state_schema.
  - destruct (resolve_imports_dangling _ _ _ _ H Hge) as [-> ->]. reflexivity.
Qed.

Lemma schema_fallback_first_import_witness :
  schema (obj fallback_resolved 0) = schema (obj fallback_loaded 1)
  /\
  (forall env' n location v o v',
     Definitions_init env' n location v = Returned o v' ->
     exists doc, lookup_document env' location = Some (Some doc) /\
       dict_keys (imports (obj v' o)) = import_keys (findall doc import_tag_wsdl) []).
Proof.
  apply (schema_fallback_first_import fallback_env 3 0 fallback_loaded fallback_resolved).
  vm_compute. reflexivity.
Defined.

(** * The registry invariant of a coherent load *)

Lemma registry_ok_empty env : registry_ok env empty_WSDL.
Proof.
  constructor; simpl; try (intros; lia); try reflexivity.
  intros ns o H. discriminate.
Qed.

Lemma registry_ok_ext env w w' :
  heap w' = heap w -> _definitions w' = _definitions w -> trace w' = trace w ->
  registry_ok env w -> registry_ok env w'.
Proof.
  intros Hh Hr Ht [].
  assert (Hobj : forall x, obj w' x = obj w x) by (intros; unfold obj; now rewrite Hh).
  constructor; rewrite ?Hh, ?Hr, ?Ht; intros; rewrite ?Hobj in *; eauto.
Qed.

Lemma in_filter_namespace_keys k (d : dict string entity) :
  dict_in k d = true -> exists x, In (k, x) d.
Proof.
  unfold dict_in. destruct (dict_get k d) as [x|] eqn:Hx; [|discriminate].
  intros _. exists x. now apply dict_get_In.
Qed.

Lemma registry_ok_begin_load env location doc w :
  registry_ok env w ->
  lookup_document env location = Some (Some doc) ->
  dict_in (get doc "targetNamespace") (_definitions w) = false ->
  registry_ok env (begin_load location doc w).
Proof.
  intros [] Hdoc Hfresh.
  assert (Hlen : length (heap (begin_load location doc w)) = S (length (heap w))).
  { unfold begin_load. simpl. rewrite length_app. simpl. lia. }
  assert (Hcase : forall o, o < S (length (heap w)) ->
            (o < length (heap w) /\ obj (begin_load location doc w) o = obj w o) \/
            (o = length (heap w) /\
             obj (begin_load location doc w) o
             = MkDefinitions location (get doc "targetNamespace") (el_nsmap doc)
                 None [] [] [] [] [])).
  { intros o Ho. destruct (decide (o < length (heap w))) as [Hlt|Hge].
    - left. split; [exact Hlt | now apply obj_begin_load_old].
    - right. assert (o = length (heap w)) as -> by lia.
      split; [reflexivity | apply obj_begin_load_new]. }
  constructor; rewrite ?Hlen.
  - intros ns o Hget. simpl in Hget. rewrite dict_get_set in Hget. case_decide.
    + inversion Hget; subst. split; [lia|]. now rewrite obj_begin_load_new.
    + destruct (ro_registered0 ns o Hget) as [Ho Ht]. split; [lia|].
      now rewrite obj_begin_load_old.
  - intros o Ho. simpl. rewrite dict_get_set.
    destruct (Hcase o Ho) as [[Hlt ->] | [-> ->]].
    + case_decide as Heq.
      * exfalso. pose proof (ro_objects0 o Hlt) as Hreg. rewrite Heq in Hreg.
        unfold dict_in in Hfresh. now rewrite Hreg in Hfresh.
      * now apply ro_objects0.
    + simpl. case_decide; [reflexivity | congruence].
  - intros o ns b Ho Hin. destruct (Hcase o Ho) as [[Hlt Heq] | [-> Heq]];
      rewrite Heq in Hin; [|destruct Hin].
    destruct (ro_imports0 o ns b Hlt Hin) as [Hb Ht]. split; [lia|].
    now rewrite obj_begin_load_old.
  - intros o s k ns Ho Ht Hk. destruct (Hcase o Ho) as [[Hlt Heq] | [-> Heq]];
      rewrite Heq in Ht, Hk.
    + eapply ro_keys0; eauto.
    + destruct s; discriminate.
  - simpl. rewrite loads_app, ro_loads0, map_app. reflexivity.
  - intros o Ho. destruct (Hcase o Ho) as [[Hlt ->] | [-> ->]].
    + now apply ro_documents0.
    + simpl. eauto.
Qed.

Lemma registry_ok_add_import env self ns b w :
  registry_ok env w ->
  b < length (heap w) -> target_namespace (obj w b) = ns ->
  registry_ok env (update self (add_import ns b) w).
Proof.
  intros [] Hb Ht.
  assert (Hsame : forall x,
            target_namespace (obj (update self (add_import ns b) w) x) = target_namespace (obj w x)
            /\ location (obj (update self (add_import ns b) w) x) = location (obj w x)
            /\ (forall s, slot_of s (obj (update self (add_import ns b) w) x) = slot_of s (obj w x))
            /\ (forall ns' b', In (ns', b') (imports (obj (update self (add_import ns b) w) x)) ->
                   (ns', b') = (ns, b) \/ In (ns', b') (imports (obj w x)))).
  { intros x. rewrite obj_update. case_decide as Hx.
    - destruct Hx as [-> _].
      split; [reflexivity|]. split; [reflexivity|]. split.
      + intros s. destruct s; reflexivity.
      + intros ns' b' Hin. simpl in Hin. now apply In_dict_set in Hin.
    - split; [reflexivity|]. split; [reflexivity|]. split; [reflexivity|].
      intros ns' b' Hin. now right. }
  constructor; rewrite ?length_heap_update.
  - intros ns' o Hget. destruct (ro_registered0 ns' o Hget) as [Ho Hto].
    split; [exact Ho|]. now rewrite (proj1 (Hsame o)).
  - intros o Ho. rewrite (proj1 (Hsame o)). now apply ro_objects0.
  - intros o ns' b' Ho Hin. destruct (Hsame o) as (_ & _ & _ & Himp).
    rewrite (proj1 (Hsame b')). apply Himp in Hin. destruct Hin as [Heq | Hin].
    + inversion Heq; subst. auto.
    + eapply ro_imports0; eauto.
  - intros o s k ns' Ho Hto Hk. destruct (Hsame o) as (Ht' & _ & Hs & _).
    rewrite Ht' in Hto. rewrite Hs in Hk. eapply ro_keys0; eauto.
  - simpl. rewrite ro_loads0. clear -w.
    unfold update. apply list_eq. intros i. rewrite !list_lookup_fmap, list_lookup_alter.
    case_decide; [subst|reflexivity]. destruct (heap w !! i); reflexivity.
  - intros o Ho. destruct (Hsame o) as (Ht' & Hl' & _). rewrite Ht', Hl'.
    now apply ro_documents0.
Qed.

Lemma registry_ok_fill env self v m p b s w :
  registry_ok env w ->
  declared_by self (target_namespace (obj w self)) m ->
  declared_by self (target_namespace (obj w self)) p ->
  declared_by self (target_namespace (obj w self)) b ->
  declared_by self (target_namespace (obj w self)) s ->
  registry_ok env (update self (fill v m p b s) w).
Proof.
  intros [] Hm Hp Hb Hs.
  assert (Hsame : forall x,
            target_namespace (obj (update self (fill v m p b s) w) x) = target_namespace (obj w x)
            /\ location (obj (update self (fill v m p b s) w) x) = location (obj w x)
            /\ imports (obj (update self (fill v m p b s) w) x) = imports (obj w x)).
  { intros x. rewrite obj_update. case_decide as Hx.
    - destruct Hx as [-> _]. repeat split; reflexivity.
    - repeat split; reflexivity. }
  constructor; rewrite ?length_heap_update.
  - intros ns o Hget. destruct (ro_registered0 ns o Hget) as [Ho Hto].
    split; [exact Ho|]. now rewrite (proj1 (Hsame o)).
  - intros o Ho. rewrite (proj1 (Hsame o)). now apply ro_objects0.
  - intros o ns b' Ho Hin. destruct (Hsame o) as (_ & _ & Himp). rewrite Himp in Hin.
    rewrite (proj1 (Hsame b')). eapply ro_imports0; eauto.
  - intros o sl k ns Ho Hto Hk. rewrite (proj1 (Hsame o)) in Hto.
    rewrite obj_update in Hk. case_decide as Hx.
    + destruct Hx as [-> _].
      apply in_filter_namespace_keys in Hk. destruct Hk as [x Hx].
      destruct sl; simpl in Hx;
        [apply Hm in Hx | apply Hp in Hx | apply Hb in Hx | apply Hs in Hx];
        destruct Hx as (_ & _ & Hns); now apply Hns.
    + eapply ro_keys0; eauto.
  - simpl. rewrite ro_loads0. clear -w.
    unfold update. apply list_eq. intros i. rewrite !list_lookup_fmap, list_lookup_alter.
    case_decide; [subst|reflexivity]. destruct (heap w !! i); reflexivity.
  - intros o Ho. destruct (Hsame o) as (Ht' & Hl' & _). rewrite Ht', Hl'.
    now apply ro_documents0.
Qed.

Lemma dict_in_get_None {K V} `{EqDecision K} (k : K) (d : dict K V) :
  dict_get k d = None -> dict_in k d = false.
Proof. unfold dict_in. now intros ->. Qed.

Lemma import_chain_registry_ok env self nodes w0 w1 href doc :
  coherent env ->
  import_chain (load_ok env) self nodes w0 w1 ->
  registry_ok env w0 ->
  self < length (heap w0) ->
  lookup_document env href = Some (Some doc) ->
  location (obj w0 self) = href ->
  (forall node, In node nodes -> In node (findall doc import_tag_wsdl)) ->
  registry_ok env w1.
Proof.
  intros Hco Hchain. revert href doc.
  induction Hchain as [w | node nodes w w' hr registered Hl Hr _ IH
                         | node nodes w w1 w' hr o Hl Hr HP _ IH];
    intros href doc Hok Hself Hdoc Hloc Hnodes.
  - exact Hok.
  - destruct (ro_registered _ _ Hok _ _ Hr) as [Hb Ht].
    eapply (IH href doc); eauto.
    + now apply registry_ok_add_import.
    + now rewrite length_heap_update.
    + rewrite obj_update_eq by exact Hself. exact Hloc.
    + intros; apply Hnodes; now right.
  - destruct HP as [Hf Hinv]. destruct Hf as [Hnew Hlen Hold Hreg Hloc1 Hdoc1].
    assert (Hnode : In node (findall doc import_tag_wsdl)) by (apply Hnodes; now left).
    rewrite Hloc in *.
    assert (Hfresh : forall doc', lookup_document env (import_target href hr) = Some (Some doc') ->
                       dict_in (get doc' "targetNamespace") (_definitions w) = false).
    { intros doc' Hd'. rewrite (Hco href doc node hr doc' Hdoc Hnode Hl Hd').
      now apply dict_in_get_None. }
    pose proof (Hinv Hok Hfresh) as Hok1.
    destruct Hdoc1 as (doc' & Hd' & Ht').
    eapply (IH href doc); eauto.
    + apply registry_ok_add_import; [exact Hok1 | lia |].
      rewrite Ht'. now apply (Hco href doc node hr doc').
    + rewrite length_heap_update. lia.
    + rewrite obj_update_eq by lia. simpl. rewrite (Hold self Hself). exact Hloc.
    + intros; apply Hnodes; now right.
Qed.

Lemma Definitions_init_ok env n location w o w' :
  coherent env ->
  Definitions_init env n location w = Returned o w' -> load_ok env location w o w'.
Proof.
  intros Hco. revert n location w o w'. apply Definitions_init_rel.
  intros location doc w w1 o w' Hdoc Hchain Hfin.
  assert (Hframe : load_frame env location w o w').
  { eapply load_step_frame; eauto.
    eapply import_chain_impl; [|exact Hchain]. intros l v x v' H. exact (proj1 H). }
  split; [exact Hframe|].
  intros Hok Hfresh.
  assert (Hlen0 : length (heap (begin_load location doc w)) = S (length (heap w))).
  { unfold begin_load. simpl. rewrite length_app. simpl. lia. }
  assert (Hok1 : registry_ok env w1).
  { eapply (import_chain_registry_ok env _ _ _ _ location doc Hco Hchain).
    - apply registry_ok_begin_load; auto.
    - rewrite Hlen0. lia.
    - exact Hdoc.
    - now rewrite obj_begin_load_new.
    - auto. }
  apply finish_load_inv in Hfin.
  destruct Hfin as (-> & v & w2 & m & p & b & s & Hv & Hm & Hp & Hb & Hs & ->).
  destruct (parse_types_frame _ _ _ _ Hv) as (Hh & Hr & Ht).
  assert (Hobj2 : forall x, obj w2 x = obj w1 x) by (intros; unfold obj; now rewrite Hh).
  apply registry_ok_fill; rewrite ?Hobj2; auto.
  eapply registry_ok_ext; eauto.
Qed.

(** * Termination *)

Lemma filter_length_mono {A} (p q : A -> bool) (l : list A) :
  (forall x, In x l -> q x = true -> p x = true) ->
  length (List.filter q l) <= length (List.filter p l).
Proof.
  induction l as [|x l IH]; intros H; simpl; [lia|].
  assert (IH' : length (List.filter q l) <= length (List.filter p l))
    by (apply IH; intros; apply H; [now right | assumption]).
  destruct (q x) eqn:Hq.
  - rewrite (H x (or_introl eq_refl) Hq). simpl. lia.
  - destruct (p x); simpl; lia.
Qed.

Lemma filter_length_lt {A} (p q : A -> bool) (l : list A) x0 :
  (forall x, In x l -> q x = true -> p x = true) ->
  In x0 l -> p x0 = true -> q x0 = false ->
  length (List.filter q l) < length (List.filter p l).
Proof.
  induction l as [|x l IH]; intros H Hin Hp Hq; simpl; [destruct Hin|].
  assert (Hle : length (List.filter q l) <= length (List.filter p l))
    by (apply filter_length_mono; intros; apply H; [now right | assumption]).
  destruct Hin as [->|Hin].
  - rewrite Hp, Hq. simpl. lia.
  - assert (IH' : length (List.filter q l) < length (List.filter p l))
      by (apply IH; auto; intros; apply H; [now right | assumption]).
    destruct (q x) eqn:Hqx.
    + rewrite (H x (or_introl eq_refl) Hqx). simpl. lia.
    + destruct (p x); simpl; lia.
Qed.

Lemma pointwise_filter_le {A} (p : A -> bool) (h h' : list A) :
  length h' = length h ->
  (forall i d d', h !! i = Some d -> h' !! i = Some d' -> p d' = true -> p d = true) ->
  length (List.filter p h') <= length (List.filter p h).
Proof.
  revert h'. induction h as [|d h IH]; intros [|d' h'] Hlen H; simpl in *; try lia.
  assert (IH' : length (List.filter p h') <= length (List.filter p h)).
  { apply IH; [lia|]. intros i x x' Hx Hx'. apply (H (S i)); assumption. }
  destruct (p d') eqn:Hd'.
  - rewrite (H 0 d d' eq_refl eq_refl Hd'). simpl. lia.
  - destruct (p d); simpl; lia.
Qed.

Lemma pointwise_filter_lt {A} (p : A -> bool) (h h' : list A) i0 d0 d0' :
  length h' = length h ->
  (forall i d d', h !! i = Some d -> h' !! i = Some d' -> p d' = true -> p d = true) ->
  h !! i0 = Some d0 -> h' !! i0 = Some d0' -> p d0 = true -> p d0' = false ->
  length (List.filter p h') < length (List.filter p h).
Proof.
  revert h' i0. induction h as [|d h IH]; intros [|d' h'] i0 Hlen H H0 H0' Hp Hp';
    simpl in *; try discriminate.
  assert (Hle : length (List.filter p h') <= length (List.filter p h)).
  { apply pointwise_filter_le; [lia|]. intros i x x' Hx Hx'. apply (H (S i)); assumption. }
  destruct i0 as [|i0]; simpl in *.
  - inversion H0; inversion H0'; subst. rewrite Hp, Hp'. simpl. lia.
  - assert (IH' : length (List.filter p h') < length (List.filter p h)).
    { apply (IH h' i0); try assumption; try lia.
      intros i x x' Hx Hx'. apply (H (S i)); assumption. }
    destruct (p d') eqn:Hd'.
    + rewrite (H 0 d d' eq_refl eq_refl Hd'). simpl. lia.
    + destruct (p d); simpl; lia.
Qed.

Lemma obj_lookup w x d : heap w !! x = Some d -> obj w x = d.
Proof. intros H. unfold obj. now apply list_lookup_total_correct. Qed.

Lemma pending_count_le w w' :
  length (heap w') = length (heap w) ->
  (forall x, imports (obj w' x) = imports (obj w x) \/ imports (obj w' x) = []) ->
  pending_count w' <= pending_count w.
Proof.
  intros Hlen H. unfold pending_count. apply pointwise_filter_le; [exact Hlen|].
  intros i d d' Hd Hd' Hp. specialize (H i).
  rewrite (obj_lookup _ _ _ Hd), (obj_lookup _ _ _ Hd') in H.
  destruct H as [H|H]; rewrite H in Hp; [exact Hp | discriminate].
Qed.

Lemma pending_count_lt w w' x0 :
  length (heap w') = length (heap w) ->
  (forall x, imports (obj w' x) = imports (obj w x) \/ imports (obj w' x) = []) ->
  imports (obj w x0) <> [] -> imports (obj w' x0) = [] ->
  pending_count w' < pending_count w.
Proof.
  intros Hlen H Hx0 Hx0'.
  assert (Hin : x0 < length (heap w)).
  { destruct (decide (x0 < length (heap w))) as [|Hge]; [assumption|].
    exfalso. apply Hx0. rewrite obj_dangling by lia. reflexivity. }
  destruct (lookup_lt_is_Some_2 (heap w) x0 Hin) as [d Hd].
  destruct (lookup_lt_is_Some_2 (heap w') x0 ltac:(lia)) as [d' Hd'].
  unfold pending_count.
  apply (pointwise_filter_lt _ (heap w) (heap w') x0 d d'); auto.
  - intros i e e' He He' Hp. specialize (H i).
    rewrite (obj_lookup _ _ _ He), (obj_lookup _ _ _ He') in H.
    destruct H as [H|H]; rewrite H in Hp; [exact Hp | discriminate].
  - rewrite (obj_lookup _ _ _ Hd) in Hx0. now destruct (imports d).
  - rewrite (obj_lookup _ _ _ Hd') in Hx0'. now rewrite Hx0'.
Qed.

Lemma for_each_not_Diverged {A} (I : WSDL -> Prop) (l : list A) body w :
  (forall x v, In x l -> I v -> body x v <> Diverged) ->
  (forall x v v', In x l -> I v -> body x v = Returned tt v' -> I v') ->
  I w -> for_each l body w <> Diverged.
Proof.
  revert w. induction l as [|x l IH]; intros w Hn Hi Hw; simpl; [discriminate|].
  intros H. apply bind_Diverged in H. destruct H as [H | ([] & w1 & H1 & H)].
  - eapply Hn; eauto. now left.
  - eapply IH; [| | |exact H].
    + intros; eapply Hn; eauto. now right.
    + intros; eapply Hi; eauto. now right.
    + eapply Hi; eauto. now left.
Qed.

Lemma resolve_imports_unfold {env} n self w :
  resolve_imports env (S n) self w =
  if forallb (fun item => dict_in (fst item) (_definitions w)) (imports (obj w self))
  then
    match for_each (dict_values (imports (obj w self))) (resolve_imports env n)
            (update self (set_imports [])
               (merge_all_state self (imports (obj w self)) w)) with
    | Returned _ w2 =>
        if resolvable env (obj w2 self)
        then Returned tt (logs (resolve_events self (obj w2 self)) w2)
        else Raised ReferenceError
    | Raised e => Raised e
    | Diverged => Diverged
    end
  else Raised AttributeError.
Proof.
  rewrite resolve_imports_S, merge_all_spec.
  destruct (forallb _ _); [|reflexivity].
  destruct (merge_all_state_frame self (imports (obj w self)) w)
    as (_ & _ & _ & _ & _ & _ & Himp & _).
  now rewrite Himp.
Qed.

Lemma pending_count_clear self w :
  imports (obj w self) <> [] ->
  pending_count (update self (set_imports [])
                   (merge_all_state self (imports (obj w self)) w)) < pending_count w.
Proof.
  intros Himp. pose proof (resolve_frame_merge self w) as Hf.
  apply (pending_count_lt _ _ self).
  - apply (fr_length _ _ Hf).
  - apply (fr_imports _ _ Hf).
  - exact Himp.
  - rewrite obj_update. case_decide as Hx; [reflexivity|].
    exfalso. apply Hx. split; [reflexivity|].
    destruct (merge_all_state_frame self (imports (obj w self)) w) as (-> & _).
    destruct (decide (self < length (heap w))) as [|Hge]; [assumption|].
    exfalso. apply Himp. rewrite obj_dangling by lia. reflexivity.
Qed.

(** [resolve_imports] returns or raises as soon as its fuel exceeds the
    number of objects with pending imports. *)
Lemma resolve_imports_terminates {env} n : forall self w,
  pending_count w <= n -> resolve_imports env (S n) self w <> Diverged.
Proof.
  induction n as [|n IH]; intros self w Hn; rewrite resolve_imports_unfold;
    (destruct (forallb _ _); [|discriminate]);
    destruct (decide (imports (obj w self) = [])) as [Hnil|Hne].
  - rewrite Hnil. simpl. unfold ret. now destruct (resolvable env _).
  - pose proof (pending_count_clear self w Hne). lia.
  - rewrite Hnil. simpl. unfold ret. now destruct (resolvable env _).
  - pose proof (pending_count_clear self w Hne) as Hlt.
    assert (Hloop : for_each (dict_values (imports (obj w self))) (resolve_imports env (S n))
                      (update self (set_imports [])
                         (merge_all_state self (imports (obj w self)) w)) <> Diverged).
    { apply (for_each_not_Diverged (fun v => pending_count v <= n)).
      - intros x v _ Hv. now apply IH.
      - intros x v v' _ Hv Hx. apply resolve_imports_frame in Hx. destruct Hx as [Hfx _].
        pose proof (pending_count_le v v' (fr_length _ _ Hfx) (fr_imports _ _ Hfx)). lia.
      - lia. }
    destruct (for_each _ _ _) as [[] w2| |];
      [now destruct (resolvable env _) | discriminate | congruence].
Qed.

Lemma for_each_not_Raised {A} (I : WSDL -> Prop) (l : list A) body w e :
  (forall x v, In x l -> I v -> body x v <> Raised e) ->
  (forall x v v', In x l -> I v -> body x v = Returned tt v' -> I v') ->
  I w -> for_each l body w <> Raised e.
Proof.
  revert w. induction l as [|x l IH]; intros w Hn Hi Hw; simpl; [discriminate|].
  intros H. apply bind_Raised in H. destruct H as [H | ([] & w1 & H1 & H)].
  - eapply Hn; eauto. now left.
  - eapply IH; [| | |exact H].
    + intros; eapply Hn; eauto. now right.
    + intros; eapply Hi; eauto. now right.
    + eapply Hi; eauto. now left.
Qed.

Lemma all_registered_frame w w' :
  resolve_frame w w' -> all_registered w -> all_registered w'.
Proof.
  intros Hf Ha x ns b Hin. rewrite (fr_definitions _ _ Hf).
  destruct (fr_imports _ _ Hf x) as [H|H]; rewrite H in Hin; [|destruct Hin].
  eapply Ha; eauto.
Qed.

(** When the namespace of every pending import is registered, no [merge]
    raises, and [resolve_imports] raises only what an entity raises. *)
Lemma resolve_imports_no_raise {env} n e :
  e <> ReferenceError ->
  forall self w, all_registered w -> resolve_imports env n self w <> Raised e.
Proof.
  intros He. induction n as [|n IH]; intros self w Ha; [discriminate|].
  rewrite resolve_imports_unfold.
  assert (Hall : forallb (fun item => dict_in (fst item) (_definitions w))
                   (imports (obj w self)) = true).
  { apply forallb_forall. intros [ns b] Hin. simpl. eapply Ha; eauto. }
  rewrite Hall.
  assert (Hloop : for_each (dict_values (imports (obj w self))) (resolve_imports env n)
                    (update self (set_imports [])
                       (merge_all_state self (imports (obj w self)) w)) <> Raised e).
  { apply (for_each_not_Raised all_registered).
    - intros x v _ Hv. now apply IH.
    - intros x v v' _ Hv Hx. apply resolve_imports_frame in Hx. destruct Hx as [Hfx _].
      eapply all_registered_frame; eauto.
    - eapply all_registered_frame; [apply resolve_frame_merge | exact Ha]. }
  destruct (for_each _ _ _) as [[] w2| |]; [|congruence|discriminate].
  destruct (resolvable env _); [discriminate | congruence].
Qed.

Lemma registry_ok_all_registered env w : registry_ok env w -> all_registered w.
Proof.
  intros Hok x ns b Hin.
  assert (Hx : x < length (heap w)).
  { destruct (decide (x < length (heap w))) as [|Hge]; [assumption|].
    rewrite obj_dangling in Hin by lia. destruct Hin. }
  destruct (ro_imports _ _ Hok x ns b Hx Hin) as [Hb Ht].
  pose proof (ro_objects _ _ Hok b Hb) as Hreg. rewrite Ht in Hreg.
  unfold dict_in. now rewrite Hreg.
Qed.

(** * Termination of a coherent load *)

Lemma unregistered_le env w w' :
  (forall k, dict_in k (_definitions w) = true -> dict_in k (_definitions w') = true) ->
  unregistered env w' <= unregistered env w.
Proof.
  intros H. unfold unregistered. apply filter_length_mono.
  intros [l [doc|]] _; simpl; [|discriminate].
  destruct (dict_in (get doc "targetNamespace") (_definitions w)) eqn:Hw; [|reflexivity].
  now rewrite (H _ Hw).
Qed.

Lemma lookup_document_In env location doc :
  lookup_document env location = Some (Some doc) ->
  In (location, Some doc) (env_documents env).
Proof.
  unfold lookup_document, env_documents. intros H. apply dict_get_In in H.
  apply in_or_app. destruct (is_http location); auto.
Qed.

Lemma unregistered_begin_load env location doc w :
  lookup_document env location = Some (Some doc) ->
  dict_in (get doc "targetNamespace") (_definitions w) = false ->
  unregistered env (begin_load location doc w) < unregistered env w.
Proof.
  intros Hdoc Hfresh. unfold unregistered.
  apply (filter_length_lt _ _ _ (location, Some doc)).
  - intros [l [d|]] _; simpl; [|discriminate].
    rewrite dict_in_set. case_decide; [discriminate|]. auto.
  - now apply lookup_document_In.
  - simpl. now rewrite Hfresh.
  - simpl. rewrite dict_in_set. now case_decide.
Qed.

Lemma Definitions_init_terminates env n :
  coherent env ->
  forall loc w,
    registry_ok env w ->
    (forall doc, lookup_document env loc = Some (Some doc) ->
                 dict_in (get doc "targetNamespace") (_definitions w) = false) ->
    unregistered env w <= n ->
    Definitions_init env (S n) loc w <> Diverged.
Proof.
  intros Hco. induction n as [|n IH]; intros loc w Hok Hfresh Hn;
    rewrite Definitions_init_S;
    destruct (lookup_document env loc) as [[doc|]|] eqn:Hdoc;
    try (destruct (is_http loc); discriminate); try discriminate;
    pose proof (unregistered_begin_load env loc doc w Hdoc (Hfresh doc eq_refl)) as Hlt.
  - lia.
  - assert (Hlen0 : length (heap (begin_load loc doc w)) = S (length (heap w))).
    { unfold begin_load. simpl. rewrite length_app. simpl. lia. }
    set (self := length (heap w)).
    assert (Hloop : parse_imports (Definitions_init env (S n)) self doc
                      (begin_load loc doc w) <> Diverged).
    { unfold parse_imports.
      assert (Hsub : forall node, In node (findall doc (QName NSMAP_wsdl "import")) ->
                       In node (findall doc import_tag_wsdl)) by auto.
      revert Hsub. generalize (findall doc (QName NSMAP_wsdl "import")) as nodes.
      intros nodes Hsub.
      apply (for_each_not_Diverged
               (fun v => registry_ok env v /\ self < length (heap v) /\
                         location (obj v self) = loc /\ unregistered env v <= n)).
      - intros node v Hnode (Hv & Hs & Hl & Hm). rewrite parse_import_spec.
        destruct (get node "location") as [href|] eqn:Hhref; [|discriminate].
        destruct (dict_get (get node "namespace") (_definitions v)) eqn:Hreg; [discriminate|].
        rewrite Hl.
        assert (Hd : Definitions_init env (S n) (import_target loc href) v <> Diverged).
        { apply IH; auto. intros doc' Hd'.
          rewrite (Hco loc doc node href doc' Hdoc (Hsub _ Hnode) Hhref Hd').
          now apply dict_in_get_None. }
        destruct (Definitions_init env (S n) (import_target loc href) v);
          [discriminate | discriminate | congruence].
      - intros node v v' Hnode (Hv & Hs & Hl & Hm) Hstep. rewrite parse_import_spec in Hstep.
        destruct (get node "location") as [href|] eqn:Hhref; [|discriminate].
        destruct (dict_get (get node "namespace") (_definitions v)) as [r|] eqn:Hreg.
        + inversion Hstep; subst. destruct (ro_registered _ _ Hv _ _ Hreg) as [Hb Ht].
          split; [now apply registry_ok_add_import|].
          split; [now rewrite length_heap_update|].
          split; [rewrite obj_update_eq by exact Hs; reflexivity | exact Hm].
        + rewrite Hl in Hstep.
          destruct (Definitions_init env (S n) (import_target loc href) v)
            as [o v1| |] eqn:Hcall; try discriminate.
          inversion Hstep; subst.
          destruct (Definitions_init_ok env _ _ _ _ _ Hco Hcall) as [Hf Hinv].
          assert (Hfresh' : forall doc', lookup_document env (import_target
                              (location (obj v self)) href) = Some (Some doc') ->
                              dict_in (get doc' "targetNamespace") (_definitions v) = false).
          { intros doc' Hd'.
            rewrite (Hco _ doc node href doc' Hdoc (Hsub _ Hnode) Hhref Hd').
            now apply dict_in_get_None. }
          pose proof (Hinv Hv Hfresh') as Hv1.
          destruct Hf as [Hnew Hlen Hold Hregd Hloc1 (doc' & Hd' & Ht')].
          split.
          { apply registry_ok_add_import; [exact Hv1 | lia |].
            rewrite Ht'. now apply (Hco _ doc node href doc' Hdoc (Hsub _ Hnode) Hhref). }
          split; [rewrite length_heap_update; lia|].
          split.
          { rewrite obj_update_eq by lia. simpl. now rewrite (Hold self Hs). }
          pose proof (unregistered_le env v v1 Hregd).
          change (unregistered env (update self (add_import (get node "namespace") o) v1))
            with (unregistered env v1). lia.
      - split.
        { apply registry_ok_begin_load;
            [exact Hok | exact Hdoc | exact (Hfresh doc eq_refl)]. }
        split; [rewrite Hlen0; unfold self; lia|].
        split; [unfold self; now rewrite obj_begin_load_new | lia]. }
    destruct (parse_imports _ _ _ _) as [[] w1| |]; [|discriminate|congruence].
    apply finish_load_not_Diverged.
Qed.

(** * Imports that cannot be followed *)




Lemma WSDL_init_Returned env fuel location root w :
  WSDL_init env fuel location = Returned root w ->
  exists w0, Definitions_init env fuel location empty_WSDL = Returned root w0 /\
             resolve_imports env fuel root w0 = Returned tt w.
Proof.
  unfold WSDL_init. intros H. step_in H. step_in H. destruct a0. step_in H. eauto.
Qed.




(** An import element without location: the load raises. *)
Example import_without_location :
  WSDL_init nowhere_env 2 "a.wsdl" = Raised TypeError.
Proof. vm_compute. reflexivity. Qed.

(** * The attribute error of merge *)

Lemma for_fold_not_Raised {A S} (l : list A) (acc : S) body w e :
  (forall acc x v, body acc x v <> Raised e) -> for_fold l acc body w <> Raised e.
Proof.
  intros Hb. revert acc w. induction l as [|x l IH]; intros acc w; simpl.
  - discriminate.
  - intros H. apply bind_Raised in H. destruct H as [H | (a & w1 & _ & H)].
    + now apply Hb in H.
    + now apply IH in H.
Qed.

Lemma entity_parse_Raised cls self node w e :
  entity_parse cls self node w = Raised e -> e = ParseError.
Proof.
  unfold entity_parse, bind, gets. destruct (get node "name"); [discriminate|].
  unfold raise. congruence.
Qed.

Lemma parse_named_no_AttributeError cls local self doc w :
  parse_named cls local self doc w <> Raised AttributeError.
Proof.
  apply for_fold_not_Raised. intros acc x v H.
  apply bind_Raised in H. destruct H as [H | (a & w1 & _ & H)]; [|discriminate].
  apply entity_parse_Raised in H. discriminate.
Qed.

Lemma parse_binding_no_AttributeError env self doc w :
  parse_binding env self doc w <> Raised AttributeError.
Proof.
  apply for_fold_not_Raised. intros acc x v H.
  destruct (Soap11Binding_match env x); [|destruct (Soap12Binding_match env x)];
    try discriminate;
    apply bind_Raised in H; destruct H as [H | (a & w1 & _ & H)]; try discriminate;
    apply entity_parse_Raised in H; discriminate.
Qed.

Lemma finish_load_no_AttributeError env self doc w :
  finish_load env self doc w <> Raised AttributeError.
Proof.
  unfold finish_load. intros H.
  apply bind_Raised in H. destruct H as [H | (v & w1 & _ & H)].
  { rewrite parse_types_spec in H. destruct (fragments doc); discriminate. }
  step_in H.
  apply bind_Raised in H. destruct H as [H | (m & w2 & _ & H)].
  { now apply parse_named_no_AttributeError in H. }
  step_in H.
  apply bind_Raised in H. destruct H as [H | (p & w3 & _ & H)].
  { now apply parse_named_no_AttributeError in H. }
  step_in H.
  apply bind_Raised in H. destruct H as [H | (b & w4 & _ & H)].
  { now apply parse_binding_no_AttributeError in H. }
  step_in H.
  apply bind_Raised in H. destruct H as [H | (s & w5 & _ & H)].
  { now apply parse_named_no_AttributeError in H. }
  step_in H. discriminate.
Qed.

Lemma Definitions_init_no_AttributeError env n : forall loc w,
  Definitions_init env n loc w <> Raised AttributeError.
Proof.
  induction n as [|n IH]; intros loc w; [discriminate|].
  rewrite Definitions_init_S.
  destruct (lookup_document env loc) as [[doc|]|];
    try (destruct (is_http loc); discriminate); try discriminate.
  assert (Hloop : parse_imports (Definitions_init env n) (length (heap w)) doc
                    (begin_load loc doc w) <> Raised AttributeError).
  { unfold parse_imports. apply (for_each_not_Raised (fun _ => True)); auto.
    intros node v _ _. rewrite parse_import_spec.
    destruct (get node "location") as [href|]; [|discriminate].
    destruct (dict_get (get node "namespace") (_definitions v)); [discriminate|].
    pose proof (IH (import_target (location (obj v (length (heap w)))) href) v).
    destruct (Definitions_init env n _ v); [discriminate | congruence | discriminate]. }
  destruct (parse_imports _ _ _ _) as [[] w1| |]; [|congruence|discriminate].
  apply finish_load_no_AttributeError.
Qed.

(** C10, amended (the attribute error of merge).  [merge] raises the
    attribute error exactly when its namespace argument is not a key of the
    registry, and completes otherwise.  The namespace is registered at every
    merge, so that the load raises no attribute error, whenever every import
    element names the target namespace of the document it points to; the
    converse does not hold. *)
Theorem merge_requires_registered self other namespace w :
  (dict_in namespace (_definitions w) = false ->
   merge self other namespace w = Raised AttributeError) /\
  (dict_in namespace (_definitions w) = true ->
   exists w', merge self other namespace w = Returned tt w') /\
  (forall env fuel location,
     coherent env -> WSDL_init env fuel location <> Raised AttributeError).
Proof.
  split; [|split].
  - intros H. now rewrite merge_spec, H.
  - intros H. rewrite merge_spec, H. eauto.
  - intros env fuel location Hco H. unfold WSDL_init in H.
    apply bind_Raised in H. destruct H as [H | (root & w0 & Hload & H)].
    { now apply Definitions_init_no_AttributeError in H. }
    apply bind_Raised in H. destruct H as [H | ([] & w1 & _ & H)]; [|discriminate].
    apply (resolve_imports_no_raise (env:=env) fuel AttributeError ltac:(discriminate) root w0);
      [|exact H].
    apply (registry_ok_all_registered env).
    destruct (Definitions_init_ok env _ _ _ _ _ Hco Hload) as [_ Hinv].
    apply Hinv; [apply registry_ok_empty | reflexivity].
Qed.

(** C10 as stated fails in one direction: in the load below every merge
    finds its namespace registered and the load returns, although the import
    element of a.wsdl names urn:b and points to a document whose target
    namespace is urn:c. *)
Lemma registered_without_coherence :
  WSDL_init mismatch_env 4 "a.wsdl" = Returned 0 mismatch_resolved /\
  trace mismatch_resolved !! 3 = Some (Merge 0 1 (Some "urn:b")) /\
  target_namespace (obj mismatch_resolved 1) = Some "urn:c" /\
  ~ coherent mismatch_env.
Proof.
  split; [vm_compute; reflexivity|]. split; [vm_compute; reflexivity|].
  split; [vm_compute; reflexivity|].
  intros Hco.
  specialize (Hco "a.wsdl"
                (definitions_element "urn:a"
                   [import_element "urn:b" "x.wsdl"; named_element "message" "Ma"])
                (import_element "urn:b" "x.wsdl") "x.wsdl"
                (definitions_element "urn:c"
                   [import_element "urn:b" "y.wsdl"; named_element "message" "Mx"])).
  assert (H : Some "urn:c" = Some "urn:b"); [|discriminate].
  apply Hco; vm_compute; auto.
Qed.

Lemma merge_requires_registered_witness :
  (dict_in (Some "urn:b") (_definitions cycle_loaded) = false ->
   merge 0 1 (Some "urn:b") cycle_loaded = Raised AttributeError) /\
  (dict_in (Some "urn:b") (_definitions cycle_loaded) = true ->
   exists w', merge 0 1 (Some "urn:b") cycle_loaded = Returned tt w') /\
  (forall env fuel location,
     coherent env -> WSDL_init env fuel location <> Raised AttributeError).
Proof.
  exact (merge_requires_registered 0 1 (Some "urn:b") cycle_loaded).
Defined.

(** * Visibility along the import graph *)

Lemma merged_visible_refl w : merged_visible w w.
Proof. intros x Hne Hnil. congruence. Qed.

Lemma merged_visible_trans w1 w2 w3 :
  resolve_frame w1 w2 -> resolve_frame w2 w3 ->
  merged_visible w1 w2 -> merged_visible w2 w3 -> merged_visible w1 w3.
Proof.
  intros F12 F23 M12 M23 x Hne Hnil ns b Hin.
  destruct (fr_imports _ _ F12 x) as [Heq | Hcl].
  - rewrite <- Heq in Hne, Hin. destruct (M23 x Hne Hnil ns b Hin) as [Hb Hk].
    split; [exact Hb|]. intros s k Hk1 Hp. apply Hk; [|exact Hp].
    now apply (fr_keys _ _ F12).
  - destruct (M12 x Hne Hcl ns b Hin) as [Hb Hk]. split.
    + rewrite (fr_done _ _ F23 b Hb). exact Hb.
    + intros s k Hk1 Hp. apply (fr_keys _ _ F23). now apply Hk.
Qed.

Lemma chain_merged_visible l w w' :
  chain (fun self v v' => resolve_frame v v' /\ imports (obj v' self) = [] /\
                          merged_visible v v') l w w' ->
  resolve_frame w w' /\ merged_visible w w' /\
  forall b, In b l -> imports (obj w' b) = [].
Proof.
  induction 1 as [w | x l w w1 w2 (F & Hx & M) _ (F' & M' & Hl)].
  - split; [apply resolve_frame_refl|]. split; [apply merged_visible_refl|]. intros b [].
  - split; [eapply resolve_frame_trans; eauto|]. split.
    + eapply merged_visible_trans; eauto.
    + intros b [<-|Hb]; [|now apply Hl].
      rewrite (fr_done _ _ F' x Hx). exact Hx.
Qed.

Lemma resolve_imports_merged {env} n self w w' :
  resolve_imports env n self w = Returned tt w' ->
  resolve_frame w w' /\ imports (obj w' self) = [] /\ merged_visible w w'.
Proof.
  revert n self w w'.
  apply (resolve_imports_rel
           (fun self w w' => resolve_frame w w' /\ imports (obj w' self) = [] /\
                             merged_visible w w')).
  intros self w w2 Hreg Hchain.
  apply chain_merged_visible in Hchain. destruct Hchain as (Fc & Mc & Hl).
  pose proof (resolve_frame_merge self w) as Fm.
  set (w1 := update self (set_imports []) (merge_all_state self (imports (obj w self)) w)) in *.
  assert (Hnil1 : imports (obj w1 self) = []).
  { unfold w1. rewrite obj_update. case_decide as Hx; [reflexivity|].
    destruct (merge_all_state_frame self (imports (obj w self)) w)
      as (Hlen & _ & _ & _ & _ & _ & H7 & _).
    rewrite H7. destruct (decide (self < length (heap w))) as [Hlt|Hge].
    - exfalso. apply Hx. split; [reflexivity | lia].
    - rewrite obj_dangling by lia. reflexivity. }
  assert (F : resolve_frame w (logs (resolve_events self (obj w2 self)) w2)).
  { eapply resolve_frame_trans; [exact Fm|].
    eapply resolve_frame_trans; [exact Fc|].
    apply resolve_frame_logs, loads_resolve_events. }
  split; [exact F|]. split.
  { rewrite obj_logs. rewrite (fr_done _ _ Fc self Hnil1). exact Hnil1. }
  intros x Hne Hnil ns b Hin. rewrite !obj_logs in *.
  destruct (decide (x = self)) as [->|Hx].
  - split.
    + apply Hl. unfold dict_values. apply (in_map snd _ _ Hin).
    + intros s k Hk Hp. apply (fr_keys _ _ Fc).
      assert (Hlt : self < length (heap w)).
      { destruct (decide (self < length (heap w))) as [|Hge]; [assumption|].
        exfalso. apply Hne. rewrite obj_dangling by lia. reflexivity. }
      unfold w1. rewrite obj_update_eq.
      * replace (slot_of s (set_imports []
                   (obj (merge_all_state self (imports (obj w self)) w) self)))
          with (slot_of s (obj (merge_all_state self (imports (obj w self)) w) self))
          by (destruct s; reflexivity).
        apply merge_all_state_keys; [exact Hlt|]. right. exists ns, b. auto.
      * destruct (merge_all_state_frame self (imports (obj w self)) w) as (-> & _).
        exact Hlt.
  - assert (Hsame : obj w1 x = obj w x).
    { unfold w1. rewrite obj_update_ne by congruence.
      destruct (merge_all_state_frame self (imports (obj w self)) w)
        as (_ & _ & _ & _ & _ & H6 & _). now apply H6. }
    rewrite <- Hsame in Hne, Hin.
    destruct (Mc x Hne Hnil ns b Hin) as [Hb Hk].
    split; [exact Hb|]. intros s k Hk1 Hp. apply Hk; [|exact Hp].
    now apply (fr_keys _ _ Fm).
Qed.

(** After [resolve_imports] on [a], every object reached from [a] has its
    imports merged. *)
Lemma resolve_imports_reaches {env} n a w w' x :
  resolve_imports env n a w = Returned tt w' ->
  reachable w a x -> imports (obj w' x) = [].
Proof.
  intros H. apply resolve_imports_merged in H. destruct H as (F & Ha & M).
  induction 1 as [|x ns b _ IH Hin].
  - exact Ha.
  - assert (Hne : imports (obj w x) <> []) by (intros Hnil; rewrite Hnil in Hin; destruct Hin).
    now destruct (M x Hne IH ns b Hin).
Qed.

Lemma resolve_imports_visible {env} n a w w' x ns b s k :
  resolve_imports env n a w = Returned tt w' ->
  reachable w a x -> In (ns, b) (imports (obj w x)) ->
  dict_in k (slot_of s (obj w b)) = true -> in_namespace ns k = true ->
  dict_in k (slot_of s (obj w' x)) = true.
Proof.
  intros H Hx Hin Hk Hp.
  pose proof (resolve_imports_reaches _ _ _ _ _ H Hx) as Hnil.
  apply resolve_imports_merged in H. destruct H as (F & Ha & M).
  assert (Hne : imports (obj w x) <> []) by (intros Hn; rewrite Hn in Hin; destruct Hin).
  destruct (M x Hne Hnil ns b Hin) as [_ Hvis]. now apply Hvis.
Qed.

(** * One Definitions per namespace *)

Lemma registry_ok_NoDup env w :
  registry_ok env w -> NoDup (map target_namespace (heap w)).
Proof.
  intros Hok. apply (proj2 (NoDup_alt _)).
  intros i j t Hi Hj.
  change (map target_namespace (heap w)) with (target_namespace <$> heap w) in Hi, Hj.
  rewrite list_lookup_fmap in Hi, Hj.
  destruct (heap w !! i) as [di|] eqn:Hdi; [|discriminate].
  destruct (heap w !! j) as [dj|] eqn:Hdj; [|discriminate].
  simpl in Hi, Hj. inversion Hi; inversion Hj; subst.
  pose proof (ro_objects _ _ Hok i (lookup_lt_Some _ _ _ Hdi)) as Ri.
  pose proof (ro_objects _ _ Hok j (lookup_lt_Some _ _ _ Hdj)) as Rj.
  rewrite (obj_lookup _ _ _ Hdi) in Ri. rewrite (obj_lookup _ _ _ Hdj) in Rj.
  congruence.
Qed.

Lemma registry_ok_heap_bound env w :
  registry_ok env w -> length (heap w) <= length (env_documents env).
Proof.
  intros Hok.
  rewrite <- (length_map target_namespace (heap w)).
  rewrite <- (length_map document_namespace (env_documents env)).
  apply NoDup_incl_length; [apply NoDup_ListNoDup; now apply (registry_ok_NoDup env)|].
  intros t Ht. apply in_map_iff in Ht. destruct Ht as (d & <- & Hd).
  apply list_elem_of_In, list_elem_of_lookup in Hd. destruct Hd as [o Ho].
  destruct (ro_documents _ _ Hok o (lookup_lt_Some _ _ _ Ho)) as (doc & Hdoc & Ht).
  rewrite (obj_lookup _ _ _ Ho) in Hdoc, Ht.
  apply lookup_document_In in Hdoc.
  apply in_map_iff. exists (location d, Some doc). split; [exact Ht | exact Hdoc].
Qed.

Lemma pending_count_bound w : pending_count w <= length (heap w).
Proof. unfold pending_count. apply List.filter_length_le. Qed.

Lemma unregistered_bound env w : unregistered env w <= length (env_documents env).
Proof. unfold unregistered. apply List.filter_length_le. Qed.

Lemma registry_ok_frame env w w' :
  resolve_frame w w' -> registry_ok env w ->
  NoDup (map target_namespace (heap w')) /\
  (forall o, o < length (heap w') ->
             dict_get (target_namespace (obj w' o)) (_definitions w') = Some o) /\
  loads (trace w') = map location (heap w').
Proof.
  intros F Hok.
  assert (Ht : map target_namespace (heap w') = map target_namespace (heap w)).
  { apply list_eq. intros i.
    change (map target_namespace ?l) with (target_namespace <$> l).
    rewrite !list_lookup_fmap.
    destruct (heap w' !! i) as [d'|] eqn:Hd'; destruct (heap w !! i) as [d|] eqn:Hd; simpl.
    - pose proof (fr_target_namespace _ _ F i) as H.
      now rewrite (obj_lookup _ _ _ Hd'), (obj_lookup _ _ _ Hd) in H; f_equal.
    - apply lookup_lt_Some in Hd'. apply lookup_ge_None in Hd.
      rewrite (fr_length _ _ F) in Hd'. lia.
    - apply lookup_lt_Some in Hd. apply lookup_ge_None in Hd'.
      rewrite (fr_length _ _ F) in Hd'. lia.
    - reflexivity. }
  assert (Hl : map location (heap w') = map location (heap w)).
  { apply list_eq. intros i.
    change (map location ?l) with (location <$> l).
    rewrite !list_lookup_fmap.
    destruct (heap w' !! i) as [d'|] eqn:Hd'; destruct (heap w !! i) as [d|] eqn:Hd; simpl.
    - pose proof (fr_location _ _ F i) as H.
      now rewrite (obj_lookup _ _ _ Hd'), (obj_lookup _ _ _ Hd) in H; f_equal.
    - apply lookup_lt_Some in Hd'. apply lookup_ge_None in Hd.
      rewrite (fr_length _ _ F) in Hd'. lia.
    - apply lookup_lt_Some in Hd. apply lookup_ge_None in Hd'.
      rewrite (fr_length _ _ F) in Hd'. lia.
    - reflexivity. }
  split; [rewrite Ht; now apply (registry_ok_NoDup env)|]. split.
  - intros o Ho. rewrite (fr_target_namespace _ _ F), (fr_definitions _ _ F).
    apply (ro_objects _ _ Hok). rewrite <- (fr_length _ _ F). exact Ho.
  - rewrite (fr_loads _ _ F), Hl. apply (ro_loads _ _ Hok).
Qed.

(** C2, amended (cycles, under coherent imports).  When every import element
    names the target namespace of the document behind its location, loading
    a root terminates for any import graph, cyclic or not, as soon as the
    fuel exceeds the number of documents.  If it returns, the Definitions
    objects have pairwise distinct target namespaces, each registered to its
    object; one document was retrieved per object; and every Definitions
    reached from the root has, for each of its imports, the keys that the
    imported Definitions had after parsing, so that in a cycle each document
    sees the declarations of the other. *)
Theorem coherent_cycle_resolution env fuel root_location :
  coherent env ->
  length (env_documents env) < fuel ->
  WSDL_init env fuel root_location <> Diverged /\
  forall root w,
    WSDL_init env fuel root_location = Returned root w ->
    exists w0,
      Definitions_init env fuel root_location empty_WSDL = Returned root w0 /\
      resolve_imports env fuel root w0 = Returned tt w /\
      NoDup (map target_namespace (heap w)) /\
      (forall o, o < length (heap w) ->
                 dict_get (target_namespace (obj w o)) (_definitions w) = Some o) /\
      loads (trace w) = map location (heap w) /\
      (forall x ns b s k,
         reachable w0 root x -> In (Some ns, b) (imports (obj w0 x)) ->
         dict_in k (slot_of s (obj w0 b)) = true ->
         target_namespace (obj w0 b) = Some ns /\
         dict_in k (slot_of s (obj w x)) = true).
Proof.
  intros Hco Hfuel. destruct fuel as [|n]; [lia|].
  assert (Hload_ok : forall root w0,
            Definitions_init env (S n) root_location empty_WSDL = Returned root w0 ->
            registry_ok env w0).
  { intros root w0 H. destruct (Definitions_init_ok env _ _ _ _ _ Hco H) as [_ Hinv].
    apply Hinv; [apply registry_ok_empty | reflexivity]. }
  split.
  - unfold WSDL_init. intros H.
    apply bind_Diverged in H. destruct H as [H | (root & w0 & Hload & H)].
    + revert H. apply Definitions_init_terminates; auto.
      * apply registry_ok_empty.
      * pose proof (unregistered_bound env empty_WSDL). lia.
    + apply bind_Diverged in H. destruct H as [H | ([] & w1 & _ & H)]; [|discriminate].
      revert H. apply resolve_imports_terminates.
      pose proof (pending_count_bound w0).
      pose proof (registry_ok_heap_bound env w0 (Hload_ok _ _ Hload)). lia.
  - intros root w H. apply WSDL_init_Returned in H. destruct H as (w0 & Hload & Hres).
    exists w0. split; [exact Hload|]. split; [exact Hres|].
    pose proof (Hload_ok _ _ Hload) as Hok.
    destruct (resolve_imports_frame _ _ _ _ Hres) as [F _].
    destruct (registry_ok_frame env _ _ F Hok) as (H1 & H2 & H3).
    split; [exact H1|]. split; [exact H2|]. split; [exact H3|].
    intros x ns b s k Hx Hin Hk.
    assert (Hxlt : x < length (heap w0)).
    { destruct (decide (x < length (heap w0))) as [|Hge]; [assumption|].
      rewrite obj_dangling in Hin by lia. destruct Hin. }
    destruct (ro_imports _ _ Hok x (Some ns) b Hxlt Hin) as [Hb Ht].
    split; [exact Ht|].
    eapply resolve_imports_visible; eauto.
    eapply (ro_keys _ _ Hok b); eauto.
Qed.

Lemma cycle_env_coherent : coherent cycle_env.
Proof.
  intros location doc node href doc' Hdoc Hnode Hhref Hdoc'.
  unfold lookup_document in Hdoc. destruct (is_http location); [discriminate|].
  cbn in Hdoc. repeat case_decide; try discriminate; subst; inversion Hdoc; subst doc;
    vm_compute in Hnode; destruct Hnode as [<-|[]];
    vm_compute in Hhref; inversion Hhref; subst href;
    vm_compute in Hdoc'; inversion Hdoc'; subst doc'; reflexivity.
Qed.

Lemma coherent_cycle_resolution_witness :
  WSDL_init cycle_env 3 "a.wsdl" <> Diverged /\
  forall root w,
    WSDL_init cycle_env 3 "a.wsdl" = Returned root w ->
    exists w0,
      Definitions_init cycle_env 3 "a.wsdl" empty_WSDL = Returned root w0 /\
      resolve_imports cycle_env 3 root w0 = Returned tt w /\
      NoDup (map target_namespace (heap w)) /\
      (forall o, o < length (heap w) ->
                 dict_get (target_namespace (obj w o)) (_definitions w) = Some o) /\
      loads (trace w) = map location (heap w) /\
      (forall x ns b s k,
         reachable w0 root x -> In (Some ns, b) (imports (obj w0 x)) ->
         dict_in k (slot_of s (obj w0 b)) = true ->
         target_namespace (obj w0 b) = Some ns /\
         dict_in k (slot_of s (obj w x)) = true).
Proof.
  apply (coherent_cycle_resolution cycle_env 3 "a.wsdl").
  - exact cycle_env_coherent.
  - vm_compute. lia.
Defined.

(** C2 as stated fails when an import element names another namespace than
    that of the document it points to.  In the first load, b.wsdl imports
    a.wsdl under the namespace of c.wsdl: the load returns, a.wsdl has been
    retrieved twice and two Definitions objects have the target namespace
    urn:a.  In the second, a document imports itself under a namespace that
    is not its own: no amount of fuel lets the load return or raise. *)
Lemma cycle_counterexample :
  (WSDL_init reload_env 5 "a.wsdl" = Returned 0 reload_resolved /\
   loads (trace reload_resolved) = ["a.wsdl"; "b.wsdl"; "a.wsdl"; "c.wsdl"] /\
   target_namespace (obj reload_resolved 0) = Some "urn:a" /\
   target_namespace (obj reload_resolved 2) = Some "urn:a")
  /\
  (forall fuel, WSDL_init self_import_env fuel "a.wsdl" = Diverged).
Proof.
  split; [vm_compute; repeat split; reflexivity|].
  assert (H : forall fuel w,
            dict_get (Some "urn:x") (_definitions w) = None ->
            Definitions_init self_import_env fuel "a.wsdl" w = Diverged).
  { induction fuel as [|fuel IH]; intros w Hw; [reflexivity|].
    rewrite Definitions_init_S.
    change (lookup_document self_import_env "a.wsdl") with (Some (Some self_import_doc)).
    cbv iota beta.
    change (parse_imports (Definitions_init self_import_env fuel) (length (heap w))
              self_import_doc (begin_load "a.wsdl" self_import_doc w))
      with (bind (parse_import (Definitions_init self_import_env fuel) (length (heap w))
                    (import_element "urn:x" "a.wsdl"))
              (fun _ => ret tt) (begin_load "a.wsdl" self_import_doc w)).
    unfold bind. rewrite parse_import_spec.
    change (get (import_element "urn:x" "a.wsdl") "location") with (Some "a.wsdl").
    change (get (import_element "urn:x" "a.wsdl") "namespace") with (Some "urn:x").
    cbv iota beta.
    assert (Hreg : dict_get (Some "urn:x")
                     (_definitions (begin_load "a.wsdl" self_import_doc w)) = None).
    { simpl. rewrite dict_get_set. case_decide as Hk; [discriminate Hk | exact Hw]. }
    rewrite Hreg, obj_begin_load_new. cbn [location].
    change (import_target "a.wsdl" "a.wsdl") with "a.wsdl".
    now rewrite (IH _ Hreg). }
  intros fuel. unfold WSDL_init, bind. now rewrite H.
Qed.


(** * More on dictionaries: [update] *)

Section DictUpdate.
Context {K V : Type} `{EqDecision K}.
Implicit Types (d f : list (K * V)) (k : K) (v : V).

Lemma dict_update_cons k v f d :
  dict_update d ((k, v) :: f) = dict_update (dict_set k v d) f.
Proof. reflexivity. Qed.

Lemma dict_update_snoc k v f d :
  dict_update d (f ++ [(k, v)]) = dict_set k v (dict_update d f).
Proof. unfold dict_update. now rewrite fold_left_app. Qed.

Lemma dict_get_None_keys k d : dict_get k d = None <-> ~ In k (dict_keys d).
Proof.
  rewrite <- dict_in_keys. unfold dict_in.
  destruct (dict_get k d); split; congruence || (intros Hx; exfalso; now apply Hx).
Qed.

(** Looking up in [d.update(f)]: the entry of [f] when there is one. *)
Lemma dict_get_update k d f :
  NoDup (dict_keys f) ->
  dict_get k (dict_update d f) =
  match dict_get k f with Some v => Some v | None => dict_get k d end.
Proof.
  revert d. induction f as [|[k0 v0] f IH]; intros d Hnd; [reflexivity|].
  rewrite dict_update_cons. simpl in Hnd. apply NoDup_cons in Hnd. destruct Hnd as [Hk0 Hnd].
  rewrite IH by exact Hnd. simpl. rewrite dict_get_set.
  destruct (decide (k = k0)) as [->|Hne]; [|reflexivity].
  replace (dict_get k0 f) with (@None V); [reflexivity|].
  symmetry. apply dict_get_None_keys. intros Hin. apply Hk0. now apply list_elem_of_In.
Qed.

(** The keys of [d.update(f)]: those of [d], in their order, then the keys
    that are new. *)
Lemma dict_keys_update d f :
  exists added,
    dict_keys (dict_update d f) = (dict_keys d ++ added)%list /\
    forall k, In k added <-> In k (dict_keys f) /\ ~ In k (dict_keys d).
Proof.
  revert d. induction f as [|[k0 v0] f IH]; intros d.
  - exists []. split; [now rewrite app_nil_r|]. simpl. tauto.
  - rewrite dict_update_cons. destruct (IH (dict_set k0 v0 d)) as (added & Hk & Hin).
    destruct (dict_in k0 d) eqn:Hd.
    + rewrite dict_keys_set_in in Hk, Hin by exact Hd.
      exists added. split; [exact Hk|]. intros k. rewrite Hin. simpl.
      apply dict_in_keys in Hd. split; [tauto|].
      intros [[<-|Hf] Hn]; [contradiction | tauto].
    + rewrite dict_keys_set_notin in Hk, Hin by exact Hd.
      exists (k0 :: added). split; [rewrite Hk, <- app_assoc; reflexivity|].
      assert (Hd' : ~ In k0 (dict_keys d)).
      { intros Hx. apply dict_in_keys in Hx. congruence. }
      intros k. simpl. rewrite Hin, in_app_iff. simpl.
      destruct (decide (k = k0)) as [->|Hne].
      * split; [intros _; split; [now left | exact Hd'] | intros _; now left].
      * split.
        -- intros [Heq | [Hf Hn]]; [congruence|]. split; [now right | tauto].
        -- intros [[Heq | Hf] Hn]; [congruence|]. right. split; [exact Hf|].
           intros [Hx | [Hx | []]]; [contradiction | congruence].
Qed.

Lemma dict_set_set k v v' d : dict_set k v (dict_set k v' d) = dict_set k v d.
Proof.
  induction d as [|[k0 v0] d IH]; simpl.
  - destruct (decide (k = k)); [reflexivity | congruence].
  - destruct (decide (k = k0)) as [->|Hne]; simpl.
    + destruct (decide (k0 = k0)); [reflexivity | congruence].
    + destruct (decide (k = k0)); [congruence|]. now rewrite IH.
Qed.

(** Two assignments to different keys commute when one of the keys is
    there already. *)
Lemma dict_set_comm k1 v1 k2 v2 d :
  k1 <> k2 -> dict_in k1 d = true ->
  dict_set k1 v1 (dict_set k2 v2 d) = dict_set k2 v2 (dict_set k1 v1 d).
Proof.
  intros Hne. induction d as [|[k0 v0] d IH]; [discriminate|].
  rewrite dict_in_cons. simpl.
  destruct (decide (k1 = k0)) as [->|H1]; destruct (decide (k2 = k0)) as [->|H2]; simpl;
    try congruence.
  - intros _. destruct (decide (k0 = k0)); [|congruence].
    destruct (decide (k2 = k0)); [congruence | reflexivity].
  - intros Hd. destruct (decide (k1 = k0)); [congruence|].
    destruct (decide (k0 = k0)); [reflexivity | congruence].
  - intros Hd. destruct (decide (k1 = k0)); [congruence|].
    destruct (decide (k2 = k0)); [congruence|]. now rewrite IH.
Qed.

(** An assignment made before an update that sets the key again is lost. *)
Lemma dict_update_set_in k v d f :
  dict_in k d = true -> dict_in k f = true ->
  dict_update (dict_set k v d) f = dict_update d f.
Proof.
  revert d. induction f as [|[k0 v0] f IH]; intros d Hd Hf; [discriminate|].
  rewrite !dict_update_cons. rewrite dict_in_cons in Hf.
  destruct (decide (k = k0)) as [->|Hne].
  - now rewrite dict_set_set.
  - rewrite <- (dict_set_comm k v k0 v0) by assumption.
    apply IH; [|exact Hf]. rewrite dict_in_set. now case_decide.
Qed.

(** An assignment to a key that the update does not set can be made after
    it, when the update adds no key. *)
Lemma dict_update_set_notin k v d f :
  dict_in k f = false -> (forall k', dict_in k' f = true -> dict_in k' d = true) ->
  dict_update (dict_set k v d) f = dict_set k v (dict_update d f).
Proof.
  revert d. induction f as [|[k0 v0] f IH]; intros d Hf Hsub; [reflexivity|].
  rewrite !dict_update_cons. rewrite dict_in_cons in Hf.
  destruct (decide (k = k0)) as [->|Hne]; [discriminate|].
  assert (Hk0 : dict_in k0 d = true).
  { apply Hsub. rewrite dict_in_cons. now case_decide. }
  rewrite (dict_set_comm k0 v0 k v) by (congruence || assumption).
  apply IH; [exact Hf|]. intros k' Hk'. rewrite dict_in_set. case_decide; [reflexivity|].
  apply Hsub. rewrite dict_in_cons. now case_decide.
Qed.

(** [d.update(f)] a second time changes nothing. *)
Lemma dict_update_idem d f : dict_update (dict_update d f) f = dict_update d f.
Proof.
  induction f as [|[k v] f IH] using rev_ind; [reflexivity|].
  rewrite !dict_update_snoc.
  destruct (dict_in k f) eqn:Hf.
  - rewrite dict_update_set_in; [now rewrite IH | | exact Hf].
    rewrite dict_in_update, Hf. apply orb_true_r.
  - rewrite dict_update_set_notin; [now rewrite IH, dict_set_set | exact Hf |].
    intros k' Hk'. rewrite dict_in_update, Hk'. apply orb_true_r.
Qed.

End DictUpdate.

(** * One call of [merge] *)

Lemma dict_get_filter_namespace k (d : dict string entity) namespace :
  dict_get k (filter_namespace d namespace)
  = if in_namespace namespace k then dict_get k d else None.
Proof.
  unfold filter_namespace, in_namespace.
  induction d as [|[k0 v0] d IH]; simpl; [now destruct (Py.startswith k _)|].
  destruct (Py.startswith k0 _) eqn:Hp; simpl; rewrite ?IH;
    destruct (decide (k = k0)) as [->|Hne]; try reflexivity.
  - now rewrite Hp.
  - now rewrite Hp.
Qed.

Lemma dict_keys_filter_namespace (d : dict string entity) namespace :
  dict_keys (filter_namespace d namespace) = List.filter (in_namespace namespace) (dict_keys d).
Proof.
  unfold filter_namespace, in_namespace, dict_keys.
  induction d as [|[k0 v0] d IH]; simpl; [reflexivity|].
  destruct (Py.startswith k0 _); simpl; now rewrite IH.
Qed.

Lemma NoDup_filter_namespace (d : dict string entity) namespace :
  NoDup (dict_keys d) -> NoDup (dict_keys (filter_namespace d namespace)).
Proof.
  rewrite dict_keys_filter_namespace, !NoDup_ListNoDup. apply List.NoDup_filter.
Qed.

Lemma merge_Returned self other namespace w w' :
  merge self other namespace w = Returned tt w' ->
  dict_in namespace (_definitions w) = true /\
  w' = update self (merge_into (obj w other) namespace) (log (Merge self other namespace) w).
Proof.
  rewrite merge_spec. destruct (dict_in namespace (_definitions w)); [|discriminate].
  intros [= <-]. split; reflexivity.
Qed.

(** X1 (what [merge] puts under a key).  After [self.merge(other, namespace)]
    a key that lies in [namespace] and that [other] holds is bound in [self]
    to the entry of [other], an entry that [self] had under that key being
    replaced; every other key is bound as before.  Here [self] is an object
    of the store, and the map of [other] has each key once, as a dictionary
    has. *)
Theorem merge_lookup self other namespace w w' s k :
  merge self other namespace w = Returned tt w' ->
  self < length (heap w) ->
  NoDup (dict_keys (slot_of s (obj w other))) ->
  dict_get k (slot_of s (obj w' self)) =
    if in_namespace namespace k
    then match dict_get k (slot_of s (obj w other)) with
         | Some x => Some x
         | None => dict_get k (slot_of s (obj w self))
         end
    else dict_get k (slot_of s (obj w self)).
Proof.
  intros H Hself Hnd. apply merge_Returned in H. destruct H as [_ ->].
  rewrite obj_update_eq by exact Hself.
  change (obj (log (Merge self other namespace) w)) with (obj w).
  rewrite slot_of_merge_into, dict_get_update by now apply NoDup_filter_namespace.
  rewrite dict_get_filter_namespace.
  destruct (in_namespace namespace k); reflexivity.
Qed.

Lemma merge_lookup_witness :
  dict_get "{urn:b}Mb" (slot_of Messages
     (obj (update 0 (merge_into (obj chain_loaded 1) (Some "urn:b"))
             (log (Merge 0 1 (Some "urn:b")) chain_loaded)) 0))
  = Some (Entity AbstractMessage "{urn:b}Mb" 1).
Proof.
  apply (merge_lookup 0 1 (Some "urn:b") chain_loaded _ Messages "{urn:b}Mb").
  - vm_compute. reflexivity.
  - vm_compute. lia.
  - vm_compute. apply NoDup_singleton.
Defined.

(** X2 (what [merge] leaves alone).  A call [self.merge(other, namespace)]
    that completes changes nothing but [self]: the other objects, both
    registries and the schema elements are as before, and the only call
    logged is the merge itself.  Of [self] it keeps the location, the target
    namespace, the namespace map and the pending imports; in each of the four
    maps the keys that were there keep their places, and the keys that are
    new come after them: they are the keys of [other] in [namespace] that
    [self] did not have. *)
Theorem merge_frame self other namespace w w' :
  merge self other namespace w = Returned tt w' ->
  length (heap w') = length (heap w) /\
  nodes w' = nodes w /\
  _definitions w' = _definitions w /\
  _schema_references w' = _schema_references w /\
  trace w' = (trace w ++ [Merge self other namespace])%list /\
  (forall x, x <> self -> obj w' x = obj w x) /\
  location (obj w' self) = location (obj w self) /\
  target_namespace (obj w' self) = target_namespace (obj w self) /\
  nsmap (obj w' self) = nsmap (obj w self) /\
  imports (obj w' self) = imports (obj w self) /\
  (self < length (heap w) ->
   forall s, exists added,
     dict_keys (slot_of s (obj w' self)) = (dict_keys (slot_of s (obj w self)) ++ added)%list /\
     forall k, In k added <->
               in_namespace namespace k = true /\
               dict_in k (slot_of s (obj w other)) = true /\
               dict_in k (slot_of s (obj w self)) = false).
Proof.
  intros H. apply merge_Returned in H. destruct H as [_ ->].
  change (obj (log (Merge self other namespace) w)) with (obj w).
  assert (Hobj : obj (update self (merge_into (obj w other) namespace)
                        (log (Merge self other namespace) w)) self
                 = obj w self \/
                 obj (update self (merge_into (obj w other) namespace)
                        (log (Merge self other namespace) w)) self
                 = merge_into (obj w other) namespace (obj w self)).
  { rewrite obj_update. case_decide; [right|left]; reflexivity. }
  split; [now rewrite length_heap_update|]. do 4 (split; [reflexivity|]).
  split; [intros x Hx; now rewrite obj_update_ne by congruence|].
  split; [destruct Hobj as [->| ->]; reflexivity|].
  split; [destruct Hobj as [->| ->]; reflexivity|].
  split; [destruct Hobj as [->| ->]; reflexivity|].
  split; [destruct Hobj as [->| ->]; reflexivity|].
  intros Hself s. rewrite obj_update_eq by exact Hself.
  change (obj (log (Merge self other namespace) w)) with (obj w).
  rewrite slot_of_merge_into.
  destruct (dict_keys_update (slot_of s (obj w self))
              (filter_namespace (slot_of s (obj w other)) namespace)) as (added & Hk & Hin).
  exists added. split; [exact Hk|]. intros k. rewrite Hin.
  rewrite <- !dict_in_keys, dict_in_filter_namespace, andb_true_iff.
  destruct (dict_in k (slot_of s (obj w self))); split;
    [intros [_ Hn]; exfalso; now apply Hn | intros (_ & _ & Hx); discriminate
    | intros [[Ha Hb] _]; auto | intros (Ha & Hb & _); split; [auto | discriminate]].
Qed.

Lemma merge_frame_witness :
  exists added,
    dict_keys (slot_of Messages
       (obj (update 0 (merge_into (obj chain_loaded 1) (Some "urn:b"))
               (log (Merge 0 1 (Some "urn:b")) chain_loaded)) 0))
    = (dict_keys (slot_of Messages (obj chain_loaded 0)) ++ added)%list /\
    forall k, In k added <->
              in_namespace (Some "urn:b") k = true /\
              dict_in k (slot_of Messages (obj chain_loaded 1)) = true /\
              dict_in k (slot_of Messages (obj chain_loaded 0)) = false.
Proof.
  refine (proj2 (proj2 (proj2 (proj2 (proj2 (proj2 (proj2 (proj2 (proj2 (proj2
    (merge_frame 0 1 (Some "urn:b") chain_loaded _ _)))))))))) _ Messages).
  - vm_compute. reflexivity.
  - vm_compute. lia.
Defined.

Lemma merge_into_idem o namespace d :
  merge_into o namespace (merge_into o namespace d) = merge_into o namespace d.
Proof.
  unfold merge_into. simpl. rewrite !dict_update_idem.
  destruct (schema d); [reflexivity|]. now destruct (schema o).
Qed.

Lemma dict_set_same {K V} `{EqDecision K} (k : K) (v : V) d :
  NoDup (dict_keys d) -> In (k, v) d -> dict_set k v d = d.
Proof.
  induction d as [|[k0 v0] d IH]; simpl; [intros _ []|].
  intros Hnd. apply NoDup_cons in Hnd. destruct Hnd as [Hk0 Hnd].
  intros [Heq|Hin].
  - inversion Heq; subst. now case_decide.
  - case_decide as Hk; [|now rewrite IH]. subst k0. exfalso. apply Hk0.
    apply list_elem_of_In. unfold dict_keys. apply (in_map fst _ _ Hin).
Qed.

Lemma dict_update_same {K V} `{EqDecision K} (d f : dict K V) :
  NoDup (dict_keys d) -> (forall kv, In kv f -> In kv d) -> dict_update d f = d.
Proof.
  intros Hnd. induction f as [|[k v] f IH]; intros Hsub; [reflexivity|].
  rewrite dict_update_cons, dict_set_same; [|exact Hnd|apply Hsub; now left].
  apply IH. intros kv Hkv. apply Hsub. now right.
Qed.

(** Merging an object into itself changes nothing. *)
Lemma merge_into_self d namespace :
  (forall s, NoDup (dict_keys (slot_of s d))) -> merge_into d namespace d = d.
Proof.
  intros Hnd. unfold merge_into.
  assert (Hs : forall s, dict_update (slot_of s d) (filter_namespace (slot_of s d) namespace)
                         = slot_of s d).
  { intros s. apply dict_update_same; [apply Hnd|].
    intros kv Hkv. unfold filter_namespace in Hkv. now apply filter_In in Hkv. }
  pose proof (Hs PortTypes) as Hp. pose proof (Hs Messages) as Hm.
  pose proof (Hs Bindings) as Hb. pose proof (Hs Services) as Hv.
  simpl in Hp, Hm, Hb, Hv. rewrite Hp, Hm, Hb, Hv.
  destruct d as [l t n sc p m b sv i]. simpl. now destruct sc.
Qed.

(** X3 (merging twice).  Merging the same object under the same namespace
    a second time completes and leaves every object as the first merge left
    it: the entries that it would bring are there already.  This holds as
    well when an object is merged into itself, as happens for a document
    that imports its own namespace; the maps of the object that is merged
    have each key once, as a dictionary has. *)
Theorem merge_twice self other namespace w w1 :
  merge self other namespace w = Returned tt w1 ->
  (forall s, NoDup (dict_keys (slot_of s (obj w other)))) ->
  exists w2,
    merge self other namespace w1 = Returned tt w2 /\
    heap w2 = heap w1 /\
    _definitions w2 = _definitions w1 /\
    trace w2 = (trace w1 ++ [Merge self other namespace])%list.
Proof.
  intros H Hnd. apply merge_Returned in H. destruct H as [Hreg ->].
  eexists. rewrite merge_spec. simpl. rewrite Hreg. split; [reflexivity|].
  split; [|split; reflexivity].
  change (obj (log (Merge self other namespace) w)) with (obj w).
  simpl. apply list_eq. intros j. rewrite !list_lookup_alter.
  repeat case_decide; subst; try congruence.
  destruct (heap w !! j) as [d|] eqn:Hd; [|reflexivity]. simpl. f_equal.
  destruct (decide (other = j)) as [->|Hne].
  - assert (Hj : j < length (heap w)) by (eapply lookup_lt_Some; eauto).
    rewrite obj_update_eq by exact Hj.
    change (obj (log (Merge j j namespace) w)) with (obj w).
    rewrite (obj_lookup w j d Hd) in *.
    rewrite (merge_into_self d namespace Hnd). exact (merge_into_self d namespace Hnd).
  - rewrite obj_update_ne by congruence.
    change (obj (log (Merge j other namespace) w)) with (obj w).
    apply merge_into_idem.
Qed.

Lemma merge_twice_witness :
  exists w2,
    merge 0 0 (Some "urn:a")
      (update 0 (merge_into (obj cycle_resolved 0) (Some "urn:a"))
         (log (Merge 0 0 (Some "urn:a")) cycle_resolved)) = Returned tt w2 /\
    heap w2 = heap (update 0 (merge_into (obj cycle_resolved 0) (Some "urn:a"))
                      (log (Merge 0 0 (Some "urn:a")) cycle_resolved)) /\
    _definitions w2 = _definitions cycle_resolved /\
    trace w2 = ((trace cycle_resolved ++ [Merge 0 0 (Some "urn:a")])
                ++ [Merge 0 0 (Some "urn:a")])%list.
Proof.
  apply (merge_twice 0 0 (Some "urn:a") cycle_resolved).
  - vm_compute. reflexivity.
  - intros s. destruct s; apply (bool_decide_unpack _); vm_compute; reflexivity.
Defined.

(** * More on [resolve_imports] *)

Lemma merge_all_state_order self pending w s :
  self < length (heap w) ->
  exists added,
    dict_keys (slot_of s (obj (merge_all_state self pending w) self))
    = (dict_keys (slot_of s (obj w self)) ++ added)%list /\
    forall k, In k added -> dict_in k (slot_of s (obj w self)) = false.
Proof.
  revert w. induction pending as [|[ns o] r IH]; intros w Hself; simpl.
  - exists []. split; [now rewrite app_nil_r | intros k []].
  - set (w1 := update self (merge_into (obj w o) ns) (log (Merge self o ns) w)).
    assert (Hself1 : self < length (heap w1)) by (unfold w1; simpl; now rewrite length_alter).
    destruct (IH w1 Hself1) as (added1 & Hk1 & Hn1).
    assert (Hobj : obj w1 self = merge_into (obj w o) ns (obj w self)).
    { unfold w1. now rewrite obj_update_eq by exact Hself. }
    rewrite Hobj, slot_of_merge_into in Hk1, Hn1.
    destruct (dict_keys_update (slot_of s (obj w self))
                (filter_namespace (slot_of s (obj w o)) ns)) as (added0 & Hk0 & Hn0).
    exists (added0 ++ added1)%list. split.
    + rewrite Hk1, Hk0. now rewrite <- app_assoc.
    + intros k Hin. apply in_app_or in Hin. destruct Hin as [Hin|Hin].
      * apply Hn0 in Hin. destruct Hin as [_ Hn].
        destruct (dict_in k (slot_of s (obj w self))) eqn:Hd; [|reflexivity].
        exfalso. apply Hn. now apply dict_in_keys.
      * apply Hn1 in Hin. rewrite dict_in_update in Hin.
        now apply orb_false_iff in Hin.
Qed.

(** X4 (own entries first).  After [resolve_imports] each of the four maps
    of the Definitions lists the keys it had before, in their order, and
    after them the keys gained from its imports: in [services], the services
    that the document declares itself come before any imported one. *)
Theorem own_entries_first env n self w w' s :
  resolve_imports env n self w = Returned tt w' ->
  exists added,
    dict_keys (slot_of s (obj w' self)) = (dict_keys (slot_of s (obj w self)) ++ added)%list /\
    forall k, In k added ->
      dict_in k (slot_of s (obj w self)) = false /\
      exists ns b, In (ns, b) (imports (obj w self)) /\
                   in_namespace ns k = true /\ dict_in k (slot_of s (obj w b)) = true.
Proof.
  intros H. destruct (decide (self < length (heap w))) as [Hlt|Hge].
  - rewrite (resolve_imports_self _ _ _ _ H Hlt).
    replace (slot_of s (set_imports [] (obj (merge_all_state self (imports (obj w self)) w) self)))
      with (slot_of s (obj (merge_all_state self (imports (obj w self)) w) self))
      by (destruct s; reflexivity).
    destruct (merge_all_state_order self (imports (obj w self)) w s Hlt) as (added & Hk & Hn).
    exists added. split; [exact Hk|]. intros k Hin. split; [now apply Hn|].
    assert (Hin' : dict_in k (slot_of s (obj (merge_all_state self (imports (obj w self)) w) self))
                   = true).
    { apply dict_in_keys. rewrite Hk. apply in_or_app. now right. }
    apply merge_all_state_keys in Hin'; [|exact Hlt].
    destruct Hin' as [Hown | Himp]; [|exact Himp].
    rewrite (Hn k Hin) in Hown. discriminate.
  - destruct (resolve_imports_dangling _ _ _ _ H Hge) as [-> ->].
    exists []. split; [now destruct s | intros k []].
Qed.

Lemma own_entries_first_witness :
  exists added,
    dict_keys (slot_of Messages (obj chain_resolved 0))
    = (dict_keys (slot_of Messages (obj chain_loaded 0)) ++ added)%list /\
    forall k, In k added ->
      dict_in k (slot_of Messages (obj chain_loaded 0)) = false /\
      exists ns b, In (ns, b) (imports (obj chain_loaded 0)) /\
                   in_namespace ns k = true /\
                   dict_in k (slot_of Messages (obj chain_loaded b)) = true.
Proof.
  apply (own_entries_first chain_env 4 0 chain_loaded chain_resolved Messages).
  vm_compute. reflexivity.
Defined.


(** * What [resolve_imports] reaches *)

Lemma reachable_trans w a b x : reachable w a b -> reachable w b x -> reachable w a x.
Proof.
  intros Hab Hbx. induction Hbx as [|y ns c _ IH Hin]; [exact Hab|].
  eapply reachable_import; eauto.
Qed.

(** Removing pending imports removes paths. *)
Lemma reachable_fewer v w a x :
  (forall y ns b, In (ns, b) (imports (obj v y)) -> In (ns, b) (imports (obj w y))) ->
  reachable v a x -> reachable w a x.
Proof.
  intros Hsub. induction 1 as [|y ns c _ IH Hin]; [constructor|].
  eapply reachable_import; eauto.
Qed.

Lemma resolve_frame_fewer v v' :
  resolve_frame v v' ->
  forall y ns b, In (ns, b) (imports (obj v' y)) -> In (ns, b) (imports (obj v y)).
Proof.
  intros F y ns b Hin. destruct (fr_imports _ _ F y) as [H|H]; rewrite H in Hin;
    [exact Hin | destruct Hin].
Qed.

Lemma chain_untouched w self x l : forall v v2,
  chain untouched_beyond l v v2 ->
  (forall y ns b, In (ns, b) (imports (obj v y)) -> In (ns, b) (imports (obj w y))) ->
  (forall b, In b l -> reachable w self b) ->
  ~ reachable w self x ->
  obj v2 x = obj v x.
Proof.
  induction 1 as [v | b l v v1 v2 [F Hb] _ IH]; intros Hsub Hl Hx; [reflexivity|].
  rewrite IH.
  - apply Hb. intros Hr. apply Hx. apply (reachable_trans w self b x).
    + apply Hl. now left.
    + eapply reachable_fewer; eauto.
  - intros y ns c Hin. apply Hsub. eapply resolve_frame_fewer; eauto.
  - intros c Hc. apply Hl. now right.
  - exact Hx.
Qed.

Lemma resolve_imports_untouched {env} n self w w' :
  resolve_imports env n self w = Returned tt w' -> untouched_beyond self w w'.
Proof.
  revert n self w w'. apply (resolve_imports_rel untouched_beyond).
  intros self w w2 _ Hchain.
  set (w1 := update self (set_imports []) (merge_all_state self (imports (obj w self)) w))
    in *.
  pose proof (resolve_frame_merge self w) as Hm. fold w1 in Hm.
  assert (Hc : resolve_frame w1 w2).
  { eapply chain_frame; [|exact Hchain]. intros x v v' [F _]. exact F. }
  split.
  - eapply resolve_frame_trans; [exact Hm|].
    eapply resolve_frame_trans; [exact Hc|].
    apply resolve_frame_logs, loads_resolve_events.
  - intros x Hx. rewrite obj_logs.
    assert (Hne : x <> self) by (intros ->; apply Hx; constructor).
    rewrite (chain_untouched w self x _ _ _ Hchain).
    + unfold w1. rewrite obj_update_ne by congruence.
      destruct (merge_all_state_frame self (imports (obj w self)) w)
        as (_ & _ & _ & _ & _ & H6 & _).
      now apply H6.
    + intros y ns b Hin. eapply resolve_frame_fewer; eauto.
    + intros b Hb. unfold dict_values in Hb. apply in_map_iff in Hb.
      destruct Hb as ([ns b'] & <- & Hin).
      eapply reachable_import; [constructor | exact Hin].
    + exact Hx.
Qed.

(** X6 (what [resolve_imports] reaches).  A call of [resolve_imports] on a
    Definitions leaves without pending imports every object that it reaches
    along pending imports, and leaves as it is every object that it does not
    reach.  It retrieves no document, creates no object and changes neither
    registry, no schema element, and no location or target namespace. *)
Theorem resolve_imports_local env n self w w' :
  resolve_imports env n self w = Returned tt w' ->
  (forall x, reachable w self x -> imports (obj w' x) = []) /\
  (forall x, ~ reachable w self x -> obj w' x = obj w x) /\
  length (heap w') = length (heap w) /\
  nodes w' = nodes w /\
  _definitions w' = _definitions w /\
  _schema_references w' = _schema_references w /\
  loads (trace w') = loads (trace w) /\
  (forall x, location (obj w' x) = location (obj w x) /\
             target_namespace (obj w' x) = target_namespace (obj w x)).
Proof.
  intros H. split; [intros x; now apply (resolve_imports_reaches _ _ _ _ _ H)|].
  destruct (resolve_imports_untouched _ _ _ _ H) as [F Hu].
  split; [exact Hu|].
  split; [apply (fr_length _ _ F)|]. split; [apply (fr_nodes _ _ F)|].
  split; [apply (fr_definitions _ _ F)|]. split; [apply (fr_schema_references _ _ F)|].
  split; [apply (fr_loads _ _ F)|].
  intros x. split; [apply (fr_location _ _ F) | apply (fr_target_namespace _ _ F)].
Qed.

Lemma resolve_imports_local_witness :
  (forall x, reachable chain_loaded 1 x -> imports (obj chain_resolved_from_b x) = []) /\
  (forall x, ~ reachable chain_loaded 1 x -> obj chain_resolved_from_b x = obj chain_loaded x) /\
  length (heap chain_resolved_from_b) = length (heap chain_loaded) /\
  nodes chain_resolved_from_b = nodes chain_loaded /\
  _definitions chain_resolved_from_b = _definitions chain_loaded /\
  _schema_references chain_resolved_from_b = _schema_references chain_loaded /\
  loads (trace chain_resolved_from_b) = loads (trace chain_loaded) /\
  (forall x, location (obj chain_resolved_from_b x) = location (obj chain_loaded x) /\
             target_namespace (obj chain_resolved_from_b x)
             = target_namespace (obj chain_loaded x)).
Proof.
  apply (resolve_imports_local chain_env 3 1 chain_loaded chain_resolved_from_b).
  vm_compute. reflexivity.
Defined.

(** * The store invariant of a load *)

Lemma store_ok_empty env : store_ok env empty_WSDL.
Proof.
  constructor; simpl; try reflexivity; intros; try lia; try discriminate.
Qed.

Lemma map_location_alter f o (h : list Definitions) :
  (forall d, location (f d) = location d) -> map location (alter f o h) = map location h.
Proof.
  intros Hf. apply list_eq. intros i. rewrite !list_lookup_fmap, list_lookup_alter.
  case_decide; [subst|reflexivity]. destruct (h !! i); [simpl; now rewrite Hf | reflexivity].
Qed.

(** The invariant looks at locations, target namespaces and pending imports
    only. *)
Lemma store_ok_same env w w' :
  length (heap w') = length (heap w) ->
  _definitions w' = _definitions w ->
  loads (trace w') = loads (trace w) ->
  (forall x, location (obj w' x) = location (obj w x)) ->
  (forall x, target_namespace (obj w' x) = target_namespace (obj w x)) ->
  (forall x ns b, In (ns, b) (imports (obj w' x)) -> In (ns, b) (imports (obj w x))) ->
  store_ok env w -> store_ok env w'.
Proof.
  intros Hlen Hreg Htr Hloc Htns Himp [].
  constructor; rewrite ?Hlen, ?Hreg.
  - intros ns o Hget. rewrite Htns. now apply so_registered0.
  - intros ns o o' Hget Ho Ho'. rewrite Htns. now apply (so_latest0 ns o o').
  - intros o Ho. rewrite Htns. now apply so_objects0.
  - intros o ns b Hin. apply Himp in Hin. destruct (so_imports0 o ns b Hin) as [Hb Hbound].
    split; [exact Hb|]. unfold bound. rewrite Htns, !Hloc. exact Hbound.
  - rewrite Htr, so_loads0. apply list_eq. intros i. rewrite !list_lookup_fmap.
    destruct (decide (i < length (heap w))) as [Hi|Hi].
    + destruct (lookup_lt_is_Some_2 (heap w) i Hi) as [d Hd].
      destruct (lookup_lt_is_Some_2 (heap w') i ltac:(lia)) as [d' Hd'].
      rewrite Hd, Hd'. simpl. f_equal. specialize (Hloc i). unfold obj in Hloc.
      rewrite (list_lookup_total_correct _ _ _ Hd), (list_lookup_total_correct _ _ _ Hd') in Hloc.
      now symmetry.
    + rewrite (proj2 (lookup_ge_None (heap w) i)) by lia.
      rewrite (proj2 (lookup_ge_None (heap w') i)) by lia. reflexivity.
  - intros o Ho. rewrite Hloc, Htns. now apply so_documents0.
Qed.

Lemma store_ok_frame env w w' : resolve_frame w w' -> store_ok env w -> store_ok env w'.
Proof.
  intros F. apply store_ok_same.
  - apply (fr_length _ _ F).
  - apply (fr_definitions _ _ F).
  - apply (fr_loads _ _ F).
  - apply (fr_location _ _ F).
  - apply (fr_target_namespace _ _ F).
  - now apply resolve_frame_fewer.
Qed.

Lemma store_ok_begin_load env location doc w :
  store_ok env w ->
  lookup_document env location = Some (Some doc) ->
  store_ok env (begin_load location doc w).
Proof.
  intros [] Hdoc.
  assert (Hlen : length (heap (begin_load location doc w)) = S (length (heap w))).
  { unfold begin_load. simpl. rewrite length_app. simpl. lia. }
  assert (Hcase : forall o, o < S (length (heap w)) ->
            (o < length (heap w) /\ obj (begin_load location doc w) o = obj w o) \/
            (o = length (heap w) /\
             obj (begin_load location doc w) o
             = MkDefinitions location (get doc "targetNamespace") (el_nsmap doc)
                 None [] [] [] [] [])).
  { intros o Ho. destruct (decide (o < length (heap w))) as [Hlt|Hge].
    - left. split; [exact Hlt | now apply obj_begin_load_old].
    - right. assert (o = length (heap w)) as -> by lia.
      split; [reflexivity | apply obj_begin_load_new]. }
  constructor; rewrite ?Hlen.
  - intros ns o Hget. simpl in Hget. rewrite dict_get_set in Hget. case_decide.
    + inversion Hget; subst. split; [lia|]. now rewrite obj_begin_load_new.
    + destruct (so_registered0 ns o Hget) as [Ho Ht]. split; [lia|].
      now rewrite obj_begin_load_old.
  - intros ns o o' Hget Ho Ho'. simpl in Hget. rewrite dict_get_set in Hget. case_decide.
    + inversion Hget; subst. lia.
    + destruct (so_registered0 ns o Hget) as [Hlt _].
      destruct (Hcase o' Ho') as [[Hlt' ->] | [-> ->]].
      * now apply (so_latest0 ns o o').
      * simpl. congruence.
  - intros o Ho. simpl. rewrite dict_in_set.
    destruct (Hcase o Ho) as [[Hlt ->] | [-> ->]].
    + case_decide; [reflexivity | now apply so_objects0].
    + simpl. case_decide; [reflexivity | congruence].
  - intros o ns b Hin.
    destruct (decide (o < S (length (heap w)))) as [Ho|Ho].
    + destruct (Hcase o Ho) as [[Hlt Heq] | [-> Heq]]; rewrite Heq in Hin; [|destruct Hin].
      destruct (so_imports0 o ns b Hin) as [Hb Hbound]. split; [lia|].
      unfold bound. rewrite Heq, (obj_begin_load_old location doc w b Hb). exact Hbound.
    + rewrite obj_dangling in Hin by lia. destruct Hin.
  - simpl. rewrite loads_app, so_loads0, map_app. reflexivity.
  - intros o Ho. destruct (Hcase o Ho) as [[Hlt ->] | [-> ->]].
    + now apply so_documents0.
    + simpl. eauto.
Qed.

Lemma store_ok_add_import env self ns b w :
  store_ok env w ->
  b < length (heap w) -> bound env w self ns b ->
  store_ok env (update self (add_import ns b) w).
Proof.
  intros Hok Hb Hbound.
  assert (Hsame : forall x,
            target_namespace (obj (update self (add_import ns b) w) x) = target_namespace (obj w x)
            /\ location (obj (update self (add_import ns b) w) x) = location (obj w x)).
  { intros x. rewrite obj_update. case_decide as Hx.
    - destruct Hx as [-> _]. split; reflexivity.
    - split; reflexivity. }
  assert (Himp : forall x ns' b',
            In (ns', b') (imports (obj (update self (add_import ns b) w) x)) ->
            (x = self /\ (ns', b') = (ns, b)) \/ In (ns', b') (imports (obj w x))).
  { intros x ns' b' Hin. rewrite obj_update in Hin. case_decide as Hx.
    - destruct Hx as [-> _]. simpl in Hin. apply In_dict_set in Hin.
      destruct Hin as [Hin|Hin]; [left | right]; auto.
    - now right. }
  destruct Hok.
  constructor; rewrite ?length_heap_update.
  - intros ns' o Hget. rewrite (proj1 (Hsame o)). now apply so_registered0.
  - intros ns' o o' Hget Ho Ho'. rewrite (proj1 (Hsame o')). now apply (so_latest0 ns' o o').
  - intros o Ho. rewrite (proj1 (Hsame o)). now apply so_objects0.
  - intros o ns' b' Hin. apply Himp in Hin.
    unfold bound. rewrite (proj1 (Hsame b')), (proj2 (Hsame b')), (proj2 (Hsame o)).
    destruct Hin as [[-> Heq] | Hin].
    + inversion Heq; subst. split; [exact Hb | exact Hbound].
    + exact (so_imports0 o ns' b' Hin).
  - simpl. rewrite so_loads0. symmetry. now apply map_location_alter.
  - intros o Ho. destruct (Hsame o) as [Ht' Hl']. rewrite Ht', Hl'.
    now apply so_documents0.
Qed.

Lemma store_ok_fill env self v m p b s w :
  store_ok env w -> store_ok env (update self (fill v m p b s) w).
Proof.
  apply store_ok_same; try reflexivity.
  - apply length_heap_update.
  - intros x. rewrite obj_update. case_decide as Hx; [destruct Hx as [-> _]|]; reflexivity.
  - intros x. rewrite obj_update. case_decide as Hx; [destruct Hx as [-> _]|]; reflexivity.
  - intros x ns c. rewrite obj_update. case_decide as Hx; [destruct Hx as [-> _]|]; auto.
Qed.

Lemma import_chain_store_ok env self nodes w0 w1 doc :
  import_chain (load_keeps_store env) self nodes w0 w1 ->
  store_ok env w0 ->
  self < length (heap w0) ->
  lookup_document env (location (obj w0 self)) = Some (Some doc) ->
  (forall node, In node nodes -> In node (findall doc import_tag_wsdl)) ->
  store_ok env w1.
Proof.
  induction 1 as [w | node nodes w w' hr registered Hl Hr _ IH
                    | node nodes w w1 w' hr o Hl Hr HP _ IH];
    intros Hok Hself Hdoc Hnodes.
  - exact Hok.
  - destruct (so_registered _ _ Hok _ _ Hr) as [Hb Ht].
    apply IH.
    + apply store_ok_add_import; [exact Hok | exact Hb | now left].
    + now rewrite length_heap_update.
    + rewrite obj_update_eq by exact Hself. exact Hdoc.
    + intros; apply Hnodes; now right.
  - destruct HP as [Hf Hinv]. destruct Hf as [Hnew Hlen Hold Hreg Hloc1 Hdoc1].
    assert (Hnode : In node (findall doc import_tag_wsdl)) by (apply Hnodes; now left).
    assert (Hself1 : location (obj w1 self) = location (obj w self)).
    { now rewrite (Hold self Hself). }
    apply IH.
    + apply store_ok_add_import; [now apply Hinv | lia |].
      right. exists doc, node, hr. rewrite Hself1, Hloc1. auto.
    + rewrite length_heap_update. lia.
    + rewrite obj_update_eq by lia. simpl. rewrite Hself1. exact Hdoc.
    + intros; apply Hnodes; now right.
Qed.

Lemma Definitions_init_store_ok env n location w o w' :
  Definitions_init env n location w = Returned o w' -> load_keeps_store env location w o w'.
Proof.
  revert n location w o w'. apply Definitions_init_rel.
  intros location doc w w1 o w' Hdoc Hchain Hfin.
  assert (Hframe : load_frame env location w o w').
  { eapply load_step_frame; eauto.
    eapply import_chain_impl; [|exact Hchain]. intros l v x v' H. exact (proj1 H). }
  split; [exact Hframe|].
  intros Hok.
  assert (Hlen0 : length (heap (begin_load location doc w)) = S (length (heap w))).
  { unfold begin_load. simpl. rewrite length_app. simpl. lia. }
  assert (Hok1 : store_ok env w1).
  { eapply (import_chain_store_ok env _ _ _ _ doc Hchain).
    - now apply store_ok_begin_load.
    - rewrite Hlen0. lia.
    - now rewrite obj_begin_load_new.
    - auto. }
  apply finish_load_inv in Hfin.
  destruct Hfin as (-> & v & w2 & m & p & b & s & Hv & _ & _ & _ & _ & ->).
  destruct (parse_types_frame _ _ _ _ Hv) as (Hh & Hr & Ht).
  assert (Hobj2 : forall x, obj w2 x = obj w1 x) by (intros; unfold obj; now rewrite Hh).
  apply store_ok_fill.
  revert Hok1. apply store_ok_same; try (intros; now rewrite ?Hobj2 in * ); congruence.
Qed.

Lemma WSDL_init_store_ok env fuel root_location root w :
  WSDL_init env fuel root_location = Returned root w ->
  store_ok env w /\ root = 0 /\ 0 < length (heap w) /\ location (obj w 0) = root_location.
Proof.
  intros H. apply WSDL_init_Returned in H. destruct H as (w0 & Hload & Hres).
  destruct (Definitions_init_store_ok _ _ _ _ _ _ Hload) as [Hf Hok].
  destruct (resolve_imports_frame _ _ _ _ Hres) as [F _].
  destruct Hf as [Hnew Hlen _ _ Hloc _]. simpl in Hnew, Hlen. subst root.
  split; [|split; [reflexivity|split]].
  - eapply store_ok_frame; [exact F|]. apply Hok, store_ok_empty.
  - rewrite (fr_length _ _ F). exact Hlen.
  - rewrite (fr_location _ _ F). exact Hloc.
Qed.

(** X7 (one object per retrieval).  When [WSDL(location, transport)]
    returns, whatever the documents import, the root is the first object of
    the store and stands for the document at [location]; the documents that
    were retrieved are, in the order of their retrieval, the locations of
    the Definitions objects in the order of their creation; and each object
    has the target namespace of the document behind its location. *)
Theorem one_object_per_retrieval env fuel root_location root w :
  WSDL_init env fuel root_location = Returned root w ->
  root = 0 /\
  location (obj w root) = root_location /\
  loads (trace w) = map location (heap w) /\
  forall o, o < length (heap w) ->
    exists doc, lookup_document env (location (obj w o)) = Some (Some doc) /\
                get doc "targetNamespace" = target_namespace (obj w o).
Proof.
  intros H. apply WSDL_init_store_ok in H. destruct H as (Hok & -> & _ & Hloc).
  split; [reflexivity|]. split; [exact Hloc|].
  split; [apply (so_loads _ _ Hok) | apply (so_documents _ _ Hok)].
Qed.

Lemma one_object_per_retrieval_witness :
  0 = 0 /\
  location (obj reload_resolved 0) = "a.wsdl" /\
  loads (trace reload_resolved) = map location (heap reload_resolved) /\
  forall o, o < length (heap reload_resolved) ->
    exists doc, lookup_document reload_env (location (obj reload_resolved o)) = Some (Some doc) /\
                get doc "targetNamespace" = target_namespace (obj reload_resolved o).
Proof.
  apply (one_object_per_retrieval reload_env 5 "a.wsdl" 0 reload_resolved).
  vm_compute. reflexivity.
Defined.

(** X8 (the registry of definitions).  When the load returns, every
    namespace of the registry is registered to an object of the store that
    has it as target namespace, namely the one created last among those
    that have it; and the target namespace of every object is a key of the
    registry. *)
Theorem registry_points_to_latest env fuel root_location root w :
  WSDL_init env fuel root_location = Returned root w ->
  (forall ns o, dict_get ns (_definitions w) = Some o ->
     o < length (heap w) /\ target_namespace (obj w o) = ns /\
     forall o', o < o' -> o' < length (heap w) -> target_namespace (obj w o') <> ns) /\
  (forall o, o < length (heap w) ->
     dict_in (target_namespace (obj w o)) (_definitions w) = true).
Proof.
  intros H. apply WSDL_init_store_ok in H. destruct H as (Hok & _).
  split; [|apply (so_objects _ _ Hok)].
  intros ns o Hget. destruct (so_registered _ _ Hok ns o Hget) as [Ho Ht].
  split; [exact Ho|]. split; [exact Ht|].
  intros o' Hlt Ho'. now apply (so_latest _ _ Hok ns o o').
Qed.

Lemma registry_points_to_latest_witness :
  (forall ns o, dict_get ns (_definitions reload_resolved) = Some o ->
     o < length (heap reload_resolved) /\ target_namespace (obj reload_resolved o) = ns /\
     forall o', o < o' -> o' < length (heap reload_resolved) ->
                target_namespace (obj reload_resolved o') <> ns) /\
  (forall o, o < length (heap reload_resolved) ->
     dict_in (target_namespace (obj reload_resolved o)) (_definitions reload_resolved) = true).
Proof.
  apply (registry_points_to_latest reload_env 5 "a.wsdl" 0 reload_resolved).
  vm_compute. reflexivity.
Defined.

(** X9 (what an import is bound to).  When a constructor call on a fresh
    handle returns, every pending import [(ns, b)] of every object points to
    an object of the store, and either [b] has [ns] as target namespace, or
    [b] stands for the document at the location of an import element for
    [ns] of the importing document, resolved against the location of that
    document. *)
Theorem imports_are_bound env fuel root_location root w o ns b :
  Definitions_init env fuel root_location empty_WSDL = Returned root w ->
  In (ns, b) (imports (obj w o)) ->
  b < length (heap w) /\
  (target_namespace (obj w b) = ns \/
   exists doc node href,
     lookup_document env (location (obj w o)) = Some (Some doc) /\
     In node (findall doc import_tag_wsdl) /\
     get node "namespace" = ns /\
     get node "location" = Some href /\
     location (obj w b) = import_target (location (obj w o)) href).
Proof.
  intros H Hin. destruct (Definitions_init_store_ok _ _ _ _ _ _ H) as [_ Hok].
  apply (so_imports _ _ (Hok (store_ok_empty env)) o ns b Hin).
Qed.

Lemma imports_are_bound_witness :
  1 < length (heap mismatch_loaded) /\
  (target_namespace (obj mismatch_loaded 1) = Some "urn:b" \/
   exists doc node href,
     lookup_document mismatch_env (location (obj mismatch_loaded 0)) = Some (Some doc) /\
     In node (findall doc import_tag_wsdl) /\
     get node "namespace" = Some "urn:b" /\
     get node "location" = Some href /\
     location (obj mismatch_loaded 1) = import_target (location (obj mismatch_loaded 0)) href).
Proof.
  apply (imports_are_bound mismatch_env 4 "a.wsdl" 0 mismatch_loaded 0 (Some "urn:b") 1).
  - vm_compute. reflexivity.
  - vm_compute. left. reflexivity.
Defined.

(** * Where an exception comes from *)
















(** * A document without imports *)

Lemma update_set_imports_nil self w :
  imports (obj w self) = [] -> update self (set_imports []) w = w.
Proof.
  intros Hnil. unfold update.
  replace (alter (set_imports []) self (heap w)) with (heap w); [now destruct w|].
  symmetry. apply list_eq. intros j. rewrite list_lookup_alter.
  case_decide; [subst|reflexivity].
  destruct (heap w !! j) as [d|] eqn:Hd; [|reflexivity]. simpl. f_equal.
  apply set_imports_nil. unfold obj in Hnil.
  now rewrite (list_lookup_total_correct _ _ _ Hd) in Hnil.
Qed.

(** X11 (a document without imports).  Loading a document that has no
    import element ends without recursion, and when it returns a model, one
    document was retrieved, there is one Definitions object, its target
    namespace is the only registered one, nothing was merged, and [resolve]
    was called once for each entry of its four maps, which are those that
    the parsers returned. *)
Theorem load_without_imports env fuel root_location doc :
  lookup_document env root_location = Some (Some doc) ->
  findall doc import_tag_wsdl = [] ->
  WSDL_init env (S fuel) root_location <> Diverged /\
  forall root w,
    WSDL_init env (S fuel) root_location = Returned root w ->
    root = 0 /\
    length (heap w) = 1 /\
    imports (obj w 0) = [] /\
    _definitions w = [(get doc "targetNamespace", 0)] /\
    trace w = Fetch root_location :: resolve_events 0 (obj w 0) /\
    exists w1,
      finish_load env 0 doc (begin_load root_location doc empty_WSDL) = Returned 0 w1 /\
      heap w = heap w1.
Proof.
  intros Hdoc Hnone.
  assert (Hinit : Definitions_init env (S fuel) root_location empty_WSDL
                  = finish_load env 0 doc (begin_load root_location doc empty_WSDL)).
  { rewrite Definitions_init_S, Hdoc. unfold parse_imports.
    change (QName NSMAP_wsdl "import") with import_tag_wsdl. rewrite Hnone. reflexivity. }
  assert (Hfin : forall o w1,
            finish_load env 0 doc (begin_load root_location doc empty_WSDL) = Returned o w1 ->
            o = 0 /\ length (heap w1) = 1 /\ imports (obj w1 0) = [] /\
            _definitions w1 = [(get doc "targetNamespace", 0)] /\
            trace w1 = [Fetch root_location]).
  { intros o w1 H. apply finish_load_inv in H.
    destruct H as (-> & v & w2 & m & p & b & s & Hv & _ & _ & _ & _ & ->).
    destruct (parse_types_frame _ _ _ _ Hv) as (Hh & Hr & Ht).
    split; [reflexivity|]. split; [now rewrite length_heap_update, Hh|].
    split; [|split].
    + rewrite obj_update_eq by (rewrite Hh; simpl; lia).
      unfold obj. rewrite Hh. reflexivity.
    + change (_definitions (update 0 (fill v m p b s) w2)) with (_definitions w2).
      rewrite Hr. reflexivity.
    + change (trace (update 0 (fill v m p b s) w2)) with (trace w2).
      rewrite Ht. reflexivity. }
  split.
  - unfold WSDL_init. intros H.
    apply bind_Diverged in H. destruct H as [H | (root & w0 & Hload & H)].
    + rewrite Hinit in H. now apply finish_load_not_Diverged in H.
    + rewrite Hinit in Hload. destruct (Hfin _ _ Hload) as (-> & _ & Hnil & _).
      apply bind_Diverged in H. destruct H as [H | ([] & w1 & _ & H)]; [|discriminate].
      rewrite resolve_imports_S, Hnil in H. simpl in H. unfold ret in H.
      rewrite Hnil in H. simpl in H. unfold ret in H.
      destruct (resolvable env _); discriminate.
  - intros root w H. apply WSDL_init_Returned in H. destruct H as (w0 & Hload & Hres).
    rewrite Hinit in Hload. destruct (Hfin _ _ Hload) as (-> & Hlen & Hnil & Hreg & Htr).
    rewrite resolve_imports_S, Hnil in Hres. simpl in Hres. unfold ret in Hres.
    rewrite Hnil in Hres. simpl in Hres. unfold ret in Hres.
    rewrite (update_set_imports_nil 0 w0 Hnil) in Hres.
    destruct (resolvable env (obj w0 0)); [|discriminate].
    inversion Hres; subst. clear Hres.
    rewrite obj_logs. simpl. rewrite Htr.
    split; [reflexivity|]. split; [exact Hlen|]. split; [exact Hnil|].
    split; [exact Hreg|]. split; [reflexivity|].
    exists w0. split; [exact Hload | reflexivity].
Qed.

Lemma load_without_imports_witness :
  WSDL_init chain_env 1 "c.wsdl" <> Diverged /\
  forall root w,
    WSDL_init chain_env 1 "c.wsdl" = Returned root w ->
    root = 0 /\
    length (heap w) = 1 /\
    imports (obj w 0) = [] /\
    _definitions w = [(Some "urn:c", 0)] /\
    trace w = Fetch "c.wsdl" :: resolve_events 0 (obj w 0) /\
    exists w1,
      finish_load chain_env 0 (definitions_element "urn:c" [named_element "message" "x"])
        (begin_load "c.wsdl" (definitions_element "urn:c" [named_element "message" "x"])
           empty_WSDL) = Returned 0 w1 /\
      heap w = heap w1.
Proof.
  apply (load_without_imports chain_env 0 "c.wsdl"
           (definitions_element "urn:c" [named_element "message" "x"])).
  - vm_compute. reflexivity.
  - vm_compute. reflexivity.
Defined.

(** * The location of an import *)

Lemma append_nil_l (b : string) : ("" ++ b)%string = b.
Proof. reflexivity. Qed.

Lemma has_slash_append a b : Py.has_slash (a ++ "/" ++ b) = true.
Proof.
  induction a as [|c a IH]; [reflexivity|].
  rewrite append_cons. simpl. now destruct (Ascii.eqb c Py.slash).
Qed.

Lemma upto_last_slash_none name : Py.has_slash name = false -> Py.upto_last_slash name = "".
Proof. destruct name as [|c r]; [reflexivity|]. intros H. cbn [Py.upto_last_slash]. now rewrite H. Qed.

Lemma upto_last_slash_append dir name :
  Py.has_slash name = false -> Py.upto_last_slash (dir ++ "/" ++ name) = (dir ++ "/")%string.
Proof.
  intros Hn. induction dir as [|c dir IH].
  - change ("" ++ "/" ++ name)%string with (String "/" name).
    cbn [Py.upto_last_slash]. change (Py.has_slash (String "/" name)) with true.
    cbn iota. now rewrite upto_last_slash_none.
  - assert (Hs : Py.has_slash (String c (dir ++ "/" ++ name)) = true).
    { rewrite <- append_cons. apply has_slash_append. }
    rewrite (append_cons c dir ("/" ++ name)), (append_cons c dir "/").
    cbn [Py.upto_last_slash]. now rewrite Hs, IH.
Qed.

Lemma list_ascii_of_string_append a b :
  list_ascii_of_string (a ++ b) = (list_ascii_of_string a ++ list_ascii_of_string b)%list.
Proof.
  induction a as [|c a IH]; [reflexivity|]. rewrite append_cons. simpl. now rewrite IH.
Qed.

(** The last character of a string that does not end with a slash. *)
Lemma last_no_slash dir :
  Py.endswith_slash dir = false ->
  forall x l, rev (list_ascii_of_string dir) = x :: l -> Ascii.eqb x Py.slash = false.
Proof.
  induction dir as [|c r IH]; [discriminate|].
  destruct r as [|c' r'].
  - simpl. intros H x l [= <- <-]. exact H.
  - intros H x l Hr.
    change (Py.endswith_slash (String c (String c' r')))
      with (Py.endswith_slash (String c' r')) in H.
    change (list_ascii_of_string (String c (String c' r')))
      with (c :: list_ascii_of_string (String c' r')) in Hr.
    cbn [rev] in Hr.
    destruct (rev (list_ascii_of_string (String c' r'))) as [|x0 l0] eqn:Hr0.
    + apply (f_equal (@length ascii)) in Hr0. rewrite length_rev in Hr0. discriminate.
    + simpl in Hr. inversion Hr; subst. now apply (IH H x l0).
Qed.

Lemma rev_no_slash dir :
  Py.endswith_slash dir = false ->
  Py.drop_slashes (rev (list_ascii_of_string dir)) = rev (list_ascii_of_string dir).
Proof.
  intros H. destruct (rev (list_ascii_of_string dir)) as [|x l] eqn:Hr; [reflexivity|].
  simpl. now rewrite (last_no_slash dir H x l Hr).
Qed.

Lemma rstrip_slash_append dir :
  Py.endswith_slash dir = false -> Py.rstrip_slash (dir ++ "/") = dir.
Proof.
  intros H. unfold Py.rstrip_slash.
  rewrite list_ascii_of_string_append, rev_app_distr. simpl.
  rewrite rev_no_slash by exact H.
  now rewrite rev_involutive, string_of_list_ascii_of_string.
Qed.

Lemma dirname_append dir name :
  Py.endswith_slash dir = false -> Py.has_slash name = false ->
  Py.dirname (dir ++ "/" ++ name) = match dir with "" => "/" | _ => dir end.
Proof.
  intros Hd Hn. unfold Py.dirname.
  rewrite upto_last_slash_append, rstrip_slash_append by assumption.
  now destruct dir.
Qed.

Lemma import_target_cases self_location href :
  (Py.contains "://" href = true \/ Py.isabs href = true ->
   import_target self_location href = href) /\
  (forall dir name,
     Py.contains "://" href = false -> Py.isabs href = false ->
     self_location = (dir ++ "/" ++ name)%string ->
     Py.endswith_slash dir = false -> Py.has_slash name = false ->
     import_target self_location href = (dir ++ "/" ++ href)%string) /\
  (Py.contains "://" href = false -> Py.isabs href = false ->
   Py.has_slash self_location = false ->
   import_target self_location href = href).
Proof.
  unfold import_target. split; [|split].
  - intros [-> | ->]; [reflexivity | now rewrite andb_false_r].
  - intros dir name -> Habs -> Hd Hn. rewrite Habs. simpl.
    rewrite dirname_append by assumption. unfold Py.join.
    unfold Py.isabs in Habs. rewrite Habs.
    destruct dir as [|c dir]; [reflexivity|]. now rewrite Hd.
  - intros -> Habs Hs. rewrite Habs. simpl.
    unfold Py.dirname. rewrite upto_last_slash_none by exact Hs. simpl.
    unfold Py.join. unfold Py.isabs in Habs. now rewrite Habs.
Qed.

(** X12 (the location of an import).  For an import element whose
    namespace is not registered, [parse_imports] constructs a Definitions
    from a location that it derives from the [location] attribute: the
    attribute itself when it holds "://" or starts with a slash; otherwise
    the attribute taken relative to the importing document, that is
    [dir/href] when the importing document is at [dir/name], where [name]
    has no slash and [dir] does not end with one, and [href] itself when
    the location of the importing document has no slash. *)
Theorem import_location build self node href w :
  get node "location" = Some href ->
  dict_get (get node "namespace") (_definitions w) = None ->
  exists target,
    parse_import build self node w
    = match build target w with
      | Returned o w1 => Returned tt (update self (add_import (get node "namespace") o) w1)
      | Raised e => Raised e
      | Diverged => Diverged
      end /\
    (Py.contains "://" href = true \/ Py.isabs href = true -> target = href) /\
    (forall dir name,
       Py.contains "://" href = false -> Py.isabs href = false ->
       location (obj w self) = (dir ++ "/" ++ name)%string ->
       Py.endswith_slash dir = false -> Py.has_slash name = false ->
       target = (dir ++ "/" ++ href)%string) /\
    (Py.contains "://" href = false -> Py.isabs href = false ->
     Py.has_slash (location (obj w self)) = false ->
     target = href).
Proof.
  intros Hhref Hreg. exists (import_target (location (obj w self)) href).
  split; [|apply import_target_cases].
  now rewrite parse_import_spec, Hhref, Hreg.
Qed.

Lemma import_location_witness :
  exists target,
    parse_import (Definitions_init chain_env 3) 0 (import_element "urn:b" "b.wsdl")
      (begin_load "http://host/dir/a.wsdl" (definitions_element "urn:a" []) empty_WSDL)
    = match Definitions_init chain_env 3 target
              (begin_load "http://host/dir/a.wsdl" (definitions_element "urn:a" []) empty_WSDL)
      with
      | Returned o w1 =>
          Returned tt (update 0 (add_import (get (import_element "urn:b" "b.wsdl") "namespace") o)
                         w1)
      | Raised e => Raised e
      | Diverged => Diverged
      end /\
    (Py.contains "://" "b.wsdl" = true \/ Py.isabs "b.wsdl" = true -> target = "b.wsdl") /\
    (forall dir name,
       Py.contains "://" "b.wsdl" = false -> Py.isabs "b.wsdl" = false ->
       location (obj (begin_load "http://host/dir/a.wsdl" (definitions_element "urn:a" [])
                        empty_WSDL) 0)
       = (dir ++ "/" ++ name)%string ->
       Py.endswith_slash dir = false -> Py.has_slash name = false ->
       target = (dir ++ "/" ++ "b.wsdl")%string) /\
    (Py.contains "://" "b.wsdl" = false -> Py.isabs "b.wsdl" = false ->
     Py.has_slash (location (obj (begin_load "http://host/dir/a.wsdl"
                                    (definitions_element "urn:a" []) empty_WSDL) 0)) = false ->
     target = "b.wsdl").
Proof.
  apply (import_location (Definitions_init chain_env 3) 0 (import_element "urn:b" "b.wsdl")
           "b.wsdl"
           (begin_load "http://host/dir/a.wsdl" (definitions_element "urn:a" []) empty_WSDL));
    vm_compute; reflexivity.
Defined.

(** * More on [parse_types] *)

Lemma register_fragments_cases k fs : forall base refs,
  dict_get k (register_fragments base fs refs) = dict_get k refs \/
  exists i f, fs !! i = Some f /\ k = pseudo_location (get f "targetNamespace") /\
              dict_get k (register_fragments base fs refs) = Some (base + i).
Proof.
  induction fs as [|f fs IH]; intros base refs; simpl; [now left|].
  destruct (IH (S base) (dict_set (pseudo_location (get f "targetNamespace")) base refs))
    as [Hsame | (i & g & Hi & Hk & Hget)].
  - rewrite Hsame, dict_get_set. case_decide as Hk.
    + right. exists 0, f. split; [reflexivity|]. split; [exact Hk|]. f_equal. lia.
    + now left.
  - right. exists (S i), g. split; [exact Hi|]. split; [exact Hk|].
    rewrite Hget. f_equal. lia.
Qed.

(** X13 (what [parse_types] does to the store).  [parse_types] touches no
    Definitions, not the registry of definitions and not the log.  It
    returns no schema exactly when the document has no schema fragment, and
    then changes nothing.  Otherwise it appends one schema element per
    fragment to the store, leaving the elements that were there as they
    are; the registry of schema fragments loses no key, and each of its
    keys is bound as before or to one of the new elements, namely to a
    fragment of this document whose pseudo-location is that key, so that a
    fragment of an earlier document with the same target namespace is
    replaced. *)
Theorem parse_types_store doc w v w' :
  parse_types doc w = Returned v w' ->
  heap w' = heap w /\ _definitions w' = _definitions w /\ trace w' = trace w /\
  (v = None <-> fragments doc = []) /\
  (fragments doc = [] -> w' = w) /\
  length (nodes w') = length (nodes w) + length (fragments doc) /\
  (forall i, i < length (nodes w) -> nodes w' !! i = nodes w !! i) /\
  (forall k, dict_in k (_schema_references w) = true ->
             dict_in k (_schema_references w') = true) /\
  (forall k, dict_get k (_schema_references w') = dict_get k (_schema_references w) \/
             exists i f, fragments doc !! i = Some f /\
                         k = pseudo_location (get f "targetNamespace") /\
                         dict_get k (_schema_references w') = Some (length (nodes w) + i)).
Proof.
  rewrite parse_types_spec. destruct (fragments doc) as [|f fs] eqn:Hfs; intros [= <- <-].
  - repeat (split; [reflexivity|]). split; [split; reflexivity|]. split; [reflexivity|].
    split; [simpl; lia|]. split; [reflexivity|]. split; [auto|]. now left.
  - repeat (split; [reflexivity|]). split; [split; discriminate|]. split; [discriminate|].
    cbn [nodes _schema_references].
    split; [rewrite length_app; simpl; rewrite length_map; reflexivity|].
    split; [intros i Hi; now rewrite lookup_app_l by exact Hi|].
    match goal with |- _ /\ ?G => assert (Hc : G) end.
    { intros k. apply (register_fragments_cases k (f :: fs)). }
    split; [|exact Hc].
    intros k Hk. unfold dict_in in *. destruct (Hc k) as [-> | (i & g & _ & _ & ->)];
      [exact Hk | reflexivity].
Qed.

Lemma parse_types_store_witness :
  heap old_schema_parsed = heap empty_WSDL /\
  _definitions old_schema_parsed = _definitions empty_WSDL /\
  trace old_schema_parsed = trace empty_WSDL /\
  (Some (MkSchema 0) = None <-> fragments old_schema_doc = []) /\
  (fragments old_schema_doc = [] -> old_schema_parsed = empty_WSDL) /\
  length (nodes old_schema_parsed)
  = length (nodes empty_WSDL) + length (fragments old_schema_doc) /\
  (forall i, i < length (nodes empty_WSDL) ->
             nodes old_schema_parsed !! i = nodes empty_WSDL !! i) /\
  (forall k, dict_in k (_schema_references empty_WSDL) = true ->
             dict_in k (_schema_references old_schema_parsed) = true) /\
  (forall k,
     dict_get k (_schema_references old_schema_parsed)
     = dict_get k (_schema_references empty_WSDL) \/
     exists i f, fragments old_schema_doc !! i = Some f /\
                 k = pseudo_location (get f "targetNamespace") /\
                 dict_get k (_schema_references old_schema_parsed)
                 = Some (length (nodes empty_WSDL) + i)).
Proof.
  apply (parse_types_store old_schema_doc empty_WSDL (Some (MkSchema 0)) old_schema_parsed).
  vm_compute. reflexivity.
Defined.

Lemma relocate_child_spec c :
  let c' := if String.eqb (tag c) import_tag
            then if Py.truthy (get c "schemaLocation") then c
                 else set c "schemaLocation" ("intschema+" ++ Py.str (get c "namespace"))
            else c in
  tag c' = tag c /\
  (tag c = import_tag -> Py.truthy (get c' "schemaLocation") = true).
Proof.
  cbv zeta. destruct (String.eqb (tag c) import_tag) eqn:Ht.
  - destruct (Py.truthy (get c "schemaLocation")) eqn:Hl.
    + split; [reflexivity | intros _; exact Hl].
    + split; [reflexivity|]. intros _. unfold get, set. simpl.
      rewrite dict_get_set. case_decide; [reflexivity | congruence].
  - split; [reflexivity|]. intros Heq. rewrite Heq, String.eqb_refl in Ht. discriminate.
Qed.

Lemma set_schema_locations_idem f :
  set_schema_locations (set_schema_locations f) = set_schema_locations f.
Proof.
  unfold set_schema_locations. simpl. f_equal. rewrite map_map. apply map_ext.
  intros c. destruct (relocate_child_spec c) as [Ht Hl]. cbv zeta in Ht, Hl.
  destruct (String.eqb (tag c) import_tag) eqn:Hc; [|now rewrite Hc].
  apply String.eqb_eq in Hc. specialize (Hl Hc).
  destruct (Py.truthy (get c "schemaLocation")) eqn:Hs.
  - rewrite Hc, String.eqb_refl, Hs. reflexivity.
  - rewrite Ht, Hc, String.eqb_refl, Hl. reflexivity.
Qed.

(** X14 (imports of the stored fragments).  In every schema element that
    [parse_types] adds to the store, each child that is an import of the
    2001 XML Schema namespace carries a non-empty [schemaLocation], and
    running the rewriting of lines 213-218 on it again would change
    nothing. *)
Theorem stored_imports_have_locations doc w v w' i f :
  parse_types doc w = Returned v w' ->
  length (nodes w) <= i ->
  nodes w' !! i = Some f ->
  (forall c, In c (children f) -> tag c = import_tag ->
             Py.truthy (get c "schemaLocation") = true) /\
  set_schema_locations f = f.
Proof.
  rewrite parse_types_spec. destruct (fragments doc) as [|f0 fs] eqn:Hfs; intros [= <- <-] Hi Hf.
  - apply lookup_lt_Some in Hf. lia.
  - cbn [nodes] in Hf. rewrite lookup_app_r in Hf by exact Hi.
    change (set_schema_locations f0 :: map set_schema_locations fs)
      with (set_schema_locations <$> (f0 :: fs)) in Hf.
    rewrite list_lookup_fmap in Hf.
    destruct ((f0 :: fs) !! (i - length (nodes w))) as [g|]; [|discriminate].
    simpl in Hf. inversion Hf; subst. clear Hf.
    split; [|apply set_schema_locations_idem].
    intros c Hc Ht. unfold set_schema_locations in Hc. simpl in Hc.
    apply in_map_iff in Hc. destruct Hc as (c0 & <- & _).
    destruct (relocate_child_spec c0) as [Ht0 Hl]. cbv zeta in Ht0, Hl.
    apply Hl. now rewrite <- Ht0.
Qed.

Lemma stored_imports_have_locations_witness :
  (forall c, In c (children stored_fragment) -> tag c = import_tag ->
             Py.truthy (get c "schemaLocation") = true) /\
  set_schema_locations stored_fragment = stored_fragment.
Proof.
  apply (stored_imports_have_locations old_schema_doc empty_WSDL (Some (MkSchema 0))
           old_schema_parsed 0).
  - vm_compute. reflexivity.
  - vm_compute. lia.
  - reflexivity.
Defined.

Lemma filter_none {A} (p : A -> bool) (l : list A) :
  Forall (fun x => p x = false) l -> List.filter p l = [].
Proof. induction 1 as [|x l Hx _ IH]; simpl; [reflexivity|]. now rewrite Hx. Qed.

Lemma find_first t a n pre x post qtag :
  tag x = qtag ->
  Forall (fun c => tag c <> qtag) pre ->
  find (Element t a n (pre ++ x :: post)) qtag = Some x.
Proof.
  intros Hx Hpre. unfold find, findall. simpl. rewrite List.filter_app, filter_none.
  - simpl. rewrite Hx, String.eqb_refl. reflexivity.
  - eapply Forall_impl; [exact Hpre|]. intros c Hc. now apply String.eqb_neq.
Qed.

(** X15 (the fragments that [parse_types] reads).  [parse_types] looks at
    the first [types] child of the document only: the schema fragments are
    the children of that element that are schema elements, those of the 2001
    XML Schema namespace in document order, then those of the 1999 one.
    Further [types] children do not count, and a document without [types]
    child has no schema and leaves the store as it is. *)
Theorem fragments_of_first_types t a n pre types post :
  tag types = QName NSMAP_wsdl "types" ->
  Forall (fun c => tag c <> QName NSMAP_wsdl "types") pre ->
  fragments (Element t a n (pre ++ types :: post))
  = (List.filter (fun c => String.eqb (tag c) (QName XSD_2001 "schema")) (children types)
     ++ List.filter (fun c => String.eqb (tag c) (QName XSD_1999 "schema")) (children types))%list
  /\
  (forall w, parse_types (Element t a n (pre ++ types :: post)) w
             = parse_types (Element t a n [types]) w) /\
  (forall w, parse_types (Element t a n pre) w = Returned None w).
Proof.
  intros Ht Hpre.
  assert (Hfr : forall post', fragments (Element t a n (pre ++ types :: post'))
            = (List.filter (fun c => String.eqb (tag c) (QName XSD_2001 "schema")) (children types)
               ++ List.filter (fun c => String.eqb (tag c) (QName XSD_1999 "schema"))
                    (children types))%list).
  { intros post'. unfold fragments. rewrite (find_first t a n pre types post' _ Ht Hpre).
    unfold findall_multiple_ns, findall. simpl. now rewrite app_nil_r. }
  split; [apply Hfr|]. split.
  - intros w. rewrite !parse_types_spec, Hfr.
    assert (Hone : fragments (Element t a n [types])
                   = fragments (Element t a n (pre ++ types :: post))).
    { rewrite Hfr. unfold fragments, find, findall. simpl.
      rewrite Ht, String.eqb_refl. simpl.
      unfold findall_multiple_ns, findall. simpl. now rewrite app_nil_r. }
    now rewrite Hone, Hfr.
  - intros w. rewrite parse_types_spec. unfold fragments, find, findall. simpl.
    rewrite filter_none; [reflexivity|].
    eapply Forall_impl; [exact Hpre|]. intros c Hc. now apply String.eqb_neq.
Qed.

Lemma fragments_of_first_types_witness :
  fragments (Element "d" [] []
               ([named_element "message" "M"]
                ++ wsdl_element "types" [] [schema_element "urn:one"]
                :: [wsdl_element "types" [] [schema_element "urn:two"]]))
  = (List.filter (fun c => String.eqb (tag c) (QName XSD_2001 "schema"))
       (children (wsdl_element "types" [] [schema_element "urn:one"]))
     ++ List.filter (fun c => String.eqb (tag c) (QName XSD_1999 "schema"))
          (children (wsdl_element "types" [] [schema_element "urn:one"])))%list
  /\
  (forall w, parse_types (Element "d" [] []
                            ([named_element "message" "M"]
                             ++ wsdl_element "types" [] [schema_element "urn:one"]
                             :: [wsdl_element "types" [] [schema_element "urn:two"]])) w
             = parse_types (Element "d" [] []
                              [wsdl_element "types" [] [schema_element "urn:one"]]) w) /\
  (forall w, parse_types (Element "d" [] [] [named_element "message" "M"]) w
             = Returned None w).
Proof.
  apply (fragments_of_first_types "d" [] [] [named_element "message" "M"]
           (wsdl_element "types" [] [schema_element "urn:one"])
           [wsdl_element "types" [] [schema_element "urn:two"]]).
  - reflexivity.
  - repeat constructor. vm_compute. discriminate.
Defined.

(** * Namespaces in keys *)

Lemma prefix_cons a s b t :
  String.prefix (String a s) (String b t) = if ascii_dec a b then String.prefix s t else false.
Proof. simpl. now destruct (ascii_dec a b). Qed.

Lemma prefix_brace ns' : forall ns n,
  has_brace ns = false -> has_brace ns' = false ->
  String.prefix (ns' ++ "}") (ns ++ "}" ++ n) = true -> ns' = ns.
Proof.
  induction ns' as [|c' r' IH]; intros ns n Hns Hns' Hp.
  - destruct ns as [|c r]; [reflexivity|]. exfalso.
    rewrite append_cons, append_nil_l, prefix_cons in Hp. cbn [has_brace] in Hns.
    destruct (ascii_dec "}" c) as [<-|]; [|discriminate]. discriminate.
  - destruct ns as [|c r].
    + exfalso. change ("" ++ "}" ++ n)%string with (String "}" n) in Hp.
      rewrite append_cons, prefix_cons in Hp. cbn [has_brace] in Hns'.
      destruct (ascii_dec c' "}") as [->|]; [|discriminate]. discriminate.
    + rewrite !append_cons, prefix_cons in Hp. cbn [has_brace] in Hns, Hns'.
      destruct (ascii_dec c' c) as [->|]; [|discriminate].
      apply orb_false_iff in Hns, Hns'. f_equal. apply (IH r n); tauto.
Qed.

(** X16 (namespaces do not mix).  For namespaces without closing brace,
    [filter_namespace] keeps an entry keyed by a qualified name
    ["{ns}name"] exactly when it is asked for [ns]: what is merged for an
    import of one namespace never holds an entry of another.  Asked for no
    namespace at all, it looks for the prefix ["{None}"], so it keeps what
    it would keep for a namespace spelled "None". *)
Theorem namespaces_do_not_mix source ns ns' n x :
  has_brace ns = false ->
  has_brace ns' = false ->
  (In (QName ns n, x) (filter_namespace source (Some ns')) <->
   ns' = ns /\ In (QName ns n, x) source) /\
  filter_namespace source None = filter_namespace source (Some "None").
Proof.
  intros Hns Hns'. split; [|reflexivity].
  unfold filter_namespace. rewrite filter_In. simpl.
  fold (in_namespace (Some ns') (QName ns n)). split.
  - intros [Hin Hp]. split; [|exact Hin].
    unfold in_namespace, QName, Py.startswith in Hp. simpl Py.str in Hp.
    rewrite !append_nil_l in Hp. now apply (prefix_brace ns' ns n).
  - intros [-> Hin]. split; [exact Hin | apply QName_in_namespace].
Qed.

Lemma namespaces_do_not_mix_witness :
  (In ("{urn:c}x", Entity AbstractMessage "{urn:c}x" 2)
      (filter_namespace (messages (obj chain_resolved 1)) (Some "urn:b")) <->
   "urn:b" = "urn:c" /\
   In ("{urn:c}x", Entity AbstractMessage "{urn:c}x" 2) (messages (obj chain_resolved 1))) /\
  filter_namespace (messages (obj chain_resolved 1)) None
  = filter_namespace (messages (obj chain_resolved 1)) (Some "None").
Proof.
  apply (namespaces_do_not_mix (messages (obj chain_resolved 1)) "urn:c" "urn:b" "x"
           (Entity AbstractMessage "{urn:c}x" 2)); reflexivity.
Defined.

(** * Well-formed maps *)

Lemma slot_ok_nil s : slot_ok s [].
Proof. split; [constructor | intros k x []]. Qed.

Lemma NoDup_keys_set {K V} `{EqDecision K} (k : K) (v : V) d :
  NoDup (dict_keys d) -> NoDup (dict_keys (dict_set k v d)).
Proof.
  intros Hd. destruct (dict_in k d) eqn:Hk.
  - now rewrite dict_keys_set_in.
  - rewrite dict_keys_set_notin by exact Hk. apply NoDup_app.
    split; [exact Hd|]. split; [|apply NoDup_singleton].
    intros x Hx Hx'. apply list_elem_of_singleton in Hx'. subst x.
    apply list_elem_of_In, dict_in_keys in Hx. congruence.
Qed.

Lemma slot_ok_set s x m :
  slot_ok s m -> class_in s (ent_class x) = true -> slot_ok s (dict_set (ent_name x) x m).
Proof.
  intros [Hnd Hm] Hc. split; [now apply NoDup_keys_set|].
  intros k y Hin. apply In_dict_set in Hin. destruct Hin as [Heq|Hin].
  - inversion Heq; subst. auto.
  - now apply Hm.
Qed.

Lemma slot_ok_update s f : forall d,
  slot_ok s d ->
  (forall k x, In (k, x) f -> ent_name x = k /\ class_in s (ent_class x) = true) ->
  slot_ok s (dict_update d f).
Proof.
  induction f as [|[k x] f IH]; intros d Hd Hf; [exact Hd|].
  rewrite dict_update_cons. apply IH.
  - destruct (Hf k x (or_introl eq_refl)) as [<- Hc]. now apply slot_ok_set.
  - intros k' x' Hin. apply Hf. now right.
Qed.

Lemma slot_ok_merge_into s o namespace d :
  slot_ok s (slot_of s d) -> slot_ok s (slot_of s o) ->
  slot_ok s (slot_of s (merge_into o namespace d)).
Proof.
  intros Hd [_ Ho]. rewrite slot_of_merge_into. apply slot_ok_update; [exact Hd|].
  intros k x Hin. unfold filter_namespace in Hin. apply filter_In in Hin. now apply Ho.
Qed.

Lemma maps_ok_update self f w :
  (forall d, (forall s, slot_ok s (slot_of s d)) -> forall s, slot_ok s (slot_of s (f d))) ->
  maps_ok w -> maps_ok (update self f w).
Proof.
  intros Hf Hw o s. rewrite obj_update. case_decide as Hx; [|apply Hw].
  destruct Hx as [-> _]. apply Hf. intros s'. apply Hw.
Qed.

Lemma maps_ok_same w w' : heap w' = heap w -> maps_ok w -> maps_ok w'.
Proof. intros Hh Hw o s. unfold obj. rewrite Hh. apply Hw. Qed.

Lemma maps_ok_merge_all self pending : forall w,
  maps_ok w -> maps_ok (merge_all_state self pending w).
Proof.
  induction pending as [|[ns o] r IH]; intros w Hw; [exact Hw|]. simpl. apply IH.
  apply maps_ok_update.
  - intros d Hd s. apply slot_ok_merge_into; [apply Hd | apply Hw].
  - exact Hw.
Qed.

Lemma resolve_imports_maps {env} n self w w' :
  resolve_imports env n self w = Returned tt w' -> maps_ok w -> maps_ok w'.
Proof.
  revert n self w w'.
  apply (resolve_imports_rel (fun self w w' => maps_ok w -> maps_ok w')).
  intros self w w2 _ Hchain Hw.
  assert (H1 : maps_ok (update self (set_imports [])
                          (merge_all_state self (imports (obj w self)) w))).
  { apply maps_ok_update; [|now apply maps_ok_merge_all].
    intros d Hd s. replace (slot_of s (set_imports [] d)) with (slot_of s d)
      by (destruct s; reflexivity). apply Hd. }
  assert (H2 : maps_ok w2).
  { clear -Hchain H1. induction Hchain as [|x l v v1 v2 Hx _ IH]; auto. }
  intros o s. rewrite obj_logs. apply H2.
Qed.

Lemma parse_named_slot_ok cls local self doc w m w' s :
  parse_named cls local self doc w = Returned m w' ->
  class_in s cls = true -> slot_ok s m.
Proof.
  unfold parse_named. intros H Hc.
  eapply (for_fold_Returned (slot_ok s)) in H.
  - apply H.
  - intros acc x acc' v' _ Hacc Hb. step_in Hb. step_in Hb.
    apply entity_parse_inv in H0. destruct H0 as (-> & Hcls & _).
    split; [|reflexivity]. apply slot_ok_set; [exact Hacc | now rewrite Hcls].
  - apply slot_ok_nil.
Qed.

Lemma parse_binding_slot_ok env self doc w m w' :
  parse_binding env self doc w = Returned m w' -> slot_ok Bindings m.
Proof.
  unfold parse_binding. intros H.
  eapply (for_fold_Returned (slot_ok Bindings)) in H.
  - apply H.
  - intros acc x acc' v' _ Hacc Hb.
    destruct (Soap11Binding_match env x); [|destruct (Soap12Binding_match env x)].
    + step_in Hb. step_in Hb.
      apply entity_parse_inv in H0. destruct H0 as (-> & Hcls & _).
      split; [|reflexivity]. apply slot_ok_set; [exact Hacc | now rewrite Hcls].
    + step_in Hb. step_in Hb.
      apply entity_parse_inv in H0. destruct H0 as (-> & Hcls & _).
      split; [|reflexivity]. apply slot_ok_set; [exact Hacc | now rewrite Hcls].
    + step_in Hb. auto.
  - apply slot_ok_nil.
Qed.

Lemma finish_load_maps env self doc w o w' :
  finish_load env self doc w = Returned o w' -> maps_ok w -> maps_ok w'.
Proof.
  unfold finish_load. intros H Hw.
  step_in H. rename a into v, w0 into w2, H0 into Hv.
  destruct (parse_types_frame _ _ _ _ Hv) as (Hh & _).
  assert (Hw2 : maps_ok w2) by (eapply maps_ok_same; eauto).
  step_in H. step_in H.
  pose proof (parse_named_slot_ok _ _ _ _ _ _ _ Messages H0 eq_refl) as Hm.
  apply parse_named_inv in H0. destruct H0 as [_ ->]. rename a into m.
  step_in H. step_in H.
  pose proof (parse_named_slot_ok _ _ _ _ _ _ _ PortTypes H0 eq_refl) as Hp.
  apply parse_named_inv in H0. destruct H0 as [_ ->]. rename a into p.
  step_in H. step_in H.
  pose proof (parse_binding_slot_ok _ _ _ _ _ _ H0) as Hb.
  apply parse_binding_inv in H0. destruct H0 as [_ ->]. rename a into b.
  step_in H. step_in H.
  pose proof (parse_named_slot_ok _ _ _ _ _ _ _ Services H0 eq_refl) as Hs.
  apply parse_named_inv in H0. destruct H0 as [_ ->]. rename a into s.
  step_in H. step_in H.
  rewrite !update_update. apply maps_ok_update; [|exact Hw2].
  intros d _ sl. destruct sl; assumption.
Qed.

Lemma maps_ok_begin_load location doc w : maps_ok w -> maps_ok (begin_load location doc w).
Proof.
  intros Hw o s. destruct (decide (o < length (heap w))) as [Hlt|Hge].
  - rewrite obj_begin_load_old by exact Hlt. apply Hw.
  - destruct (decide (o = length (heap w))) as [->|Hne].
    + rewrite obj_begin_load_new. destruct s; apply slot_ok_nil.
    + rewrite obj_dangling.
      * destruct s; apply slot_ok_nil.
      * unfold begin_load. simpl. rewrite length_app. simpl. lia.
Qed.

Lemma import_chain_maps self nodes w0 w1 :
  import_chain (fun _ w _ w' => maps_ok w -> maps_ok w') self nodes w0 w1 ->
  maps_ok w0 -> maps_ok w1.
Proof.
  assert (Hadd : forall ns b v, maps_ok v -> maps_ok (update self (add_import ns b) v)).
  { intros ns b v Hv. apply maps_ok_update; [|exact Hv].
    intros d Hd s. replace (slot_of s (add_import ns b d)) with (slot_of s d)
      by (destruct s; reflexivity). apply Hd. }
  induction 1 as [w | node nodes w w' hr registered Hl Hr _ IH
                    | node nodes w w1 w' hr o Hl Hr HP _ IH]; intros Hw; auto.
Qed.

Lemma Definitions_init_maps env n location w o w' :
  Definitions_init env n location w = Returned o w' -> maps_ok w -> maps_ok w'.
Proof.
  revert n location w o w'.
  apply (Definitions_init_rel env (fun _ w _ w' => maps_ok w -> maps_ok w')).
  intros location doc w w1 o w' _ Hchain Hfin Hw.
  eapply finish_load_maps; [exact Hfin|].
  eapply import_chain_maps; [exact Hchain|]. now apply maps_ok_begin_load.
Qed.

Lemma NoDup_keys_get {K V} `{EqDecision K} (k : K) (v : V) d :
  NoDup (dict_keys d) -> In (k, v) d -> dict_get k d = Some v.
Proof.
  induction d as [|[k0 v0] d IH]; simpl; [intros _ []|].
  intros Hnd. apply NoDup_cons in Hnd. destruct Hnd as [Hk0 Hnd].
  intros [Heq|Hin].
  - inversion Heq; subst. now case_decide.
  - case_decide as Hk; [|now apply IH]. subst k0. exfalso. apply Hk0.
    apply list_elem_of_In. unfold dict_keys. apply (in_map fst _ _ Hin).
Qed.

(** X17 (well-formed maps).  In the model that [WSDL(location, transport)]
    returns, each of the four maps of every Definitions has each key once;
    every entry is keyed by the name of its entity, so that looking the key
    up gives the entry; and merging has kept the maps apart: [messages]
    holds messages only, [port_types] port types, [bindings] SOAP 1.1 and
    SOAP 1.2 bindings, and [services] services. *)
Theorem maps_are_keyed_by_name env fuel root_location root w o s :
  WSDL_init env fuel root_location = Returned root w ->
  NoDup (dict_keys (slot_of s (obj w o))) /\
  forall k x, In (k, x) (slot_of s (obj w o)) ->
    ent_name x = k /\
    class_in s (ent_class x) = true /\
    dict_get k (slot_of s (obj w o)) = Some x.
Proof.
  intros H. apply WSDL_init_Returned in H. destruct H as (w0 & Hload & Hres).
  assert (Hw : maps_ok w).
  { eapply resolve_imports_maps; [exact Hres|].
    eapply Definitions_init_maps; [exact Hload|].
    intros o' s'. rewrite obj_dangling by (simpl; lia). destruct s'; apply slot_ok_nil. }
  destruct (Hw o s) as [Hnd Hm]. split; [exact Hnd|].
  intros k x Hin. destruct (Hm k x Hin) as [Hn Hc].
  split; [exact Hn|]. split; [exact Hc|]. now apply NoDup_keys_get.
Qed.

Lemma maps_are_keyed_by_name_witness :
  NoDup (dict_keys (slot_of Messages (obj cycle_resolved 0))) /\
  forall k x, In (k, x) (slot_of Messages (obj cycle_resolved 0)) ->
    ent_name x = k /\
    class_in Messages (ent_class x) = true /\
    dict_get k (slot_of Messages (obj cycle_resolved 0)) = Some x.
Proof.
  apply (maps_are_keyed_by_name cycle_env 3 "a.wsdl" 0 cycle_resolved 0 Messages).
  vm_compute. reflexivity.
Defined.

(** X18 (every Definitions that is reached sees its imports).  After
    [resolve_imports] on a Definitions [a], every Definitions [x] reached
    from [a] along pending imports, [a] included, holds the keys that each
    object [b] it imports held under the namespace of the import, and
    neither [x] nor [b] has pending imports left. *)
Theorem reached_sees_its_imports env n a w w' x ns b s k :
  resolve_imports env n a w = Returned tt w' ->
  reachable w a x ->
  In (ns, b) (imports (obj w x)) ->
  in_namespace ns k = true ->
  dict_in k (slot_of s (obj w b)) = true ->
  dict_in k (slot_of s (obj w' x)) = true /\
  imports (obj w' x) = [] /\ imports (obj w' b) = [].
Proof.
  intros H Hx Hin Hp Hk. split; [|split].
  - eapply resolve_imports_visible; eauto.
  - eapply resolve_imports_reaches; eauto.
  - eapply resolve_imports_reaches; [exact H|]. eapply reachable_import; eauto.
Qed.

Lemma reached_sees_its_imports_witness :
  dict_in "{urn:c}x" (slot_of Messages (obj chain_resolved 1)) = true /\
  imports (obj chain_resolved 1) = [] /\ imports (obj chain_resolved 2) = [].
Proof.
  apply (reached_sees_its_imports chain_env 4 0 chain_loaded chain_resolved 1 (Some "urn:c") 2
           Messages "{urn:c}x").
  - vm_compute. reflexivity.
  - apply (reachable_import chain_loaded 0 0 (Some "urn:b") 1); [constructor|].
    vm_compute. left. reflexivity.
  - vm_compute. left. reflexivity.
  - vm_compute. reflexivity.
  - vm_compute. reflexivity.
Defined.

(** * What a constructor call leaves behind *)

Lemma import_chain_fetches env self nodes w0 w1 :
  import_chain (constructed env) self nodes w0 w1 ->
  exists ls, trace w1 = (trace w0 ++ map Fetch ls)%list.
Proof.
  induction 1 as [w | node nodes w w' hr registered Hl Hr _ IH
                    | node nodes w w1 w' hr o Hl Hr HP _ IH].
  - exists []. now rewrite app_nil_r.
  - exact IH.
  - destruct HP as (_ & (ls1 & Ht1) & _). destruct IH as (ls2 & Ht2).
    exists (import_target (location (obj w self)) hr :: ls1 ++ ls2)%list.
    rewrite Ht2. change (trace (update self _ w1)) with (trace w1).
    rewrite Ht1, <- app_assoc. simpl. now rewrite map_app.
Qed.

Lemma Definitions_init_constructed env n location w o w' :
  Definitions_init env n location w = Returned o w' -> constructed env location w o w'.
Proof.
  revert n location w o w'. apply Definitions_init_rel.
  intros location doc w w1 o w' Hdoc Hchain Hfin.
  assert (Hchain' : import_chain (load_frame env) (length (heap w))
                      (findall doc import_tag_wsdl) (begin_load location doc w) w1).
  { eapply import_chain_impl; [|exact Hchain]. intros l v x v' H. exact (proj1 H). }
  split; [eapply load_step_frame; eauto|].
  destruct (import_chain_fetches _ _ _ _ _ Hchain) as (ls & Hls).
  assert (Hlen0 : length (heap (begin_load location doc w)) = S (length (heap w))).
  { unfold begin_load. simpl. rewrite length_app. simpl. lia. }
  destruct (import_chain_frame env _ _ _ _ Hchain') as (H1 & _ & H3 & H4 & _).
  { rewrite Hlen0. lia. }
  rewrite Hlen0 in H1. rewrite obj_begin_load_new in H4.
  apply finish_load_inv in Hfin.
  destruct Hfin as (-> & v & w2 & m & p & b & s & Hv & Hm & Hp & Hb & Hs & ->).
  destruct (parse_types_frame _ _ _ _ Hv) as (Hh & Hr & Ht).
  assert (Hself : obj (update (length (heap w)) (fill v m p b s) w2) (length (heap w))
                  = fill v m p b s (obj w1 (length (heap w)))).
  { rewrite obj_update_eq by (rewrite Hh; lia). unfold obj. now rewrite Hh. }
  rewrite H4 in Hm, Hp, Hb, Hs. simpl in Hm, Hp, Hb, Hs.
  split.
  - exists ls. change (trace (update _ _ w2)) with (trace w2). rewrite Ht, Hls.
    simpl. now rewrite <- app_assoc.
  - exists doc. split; [exact Hdoc|]. rewrite Hself, H4. split; [reflexivity|]. split.
    + change (_definitions (update _ _ w2)) with (_definitions w2). rewrite Hr.
      apply H3. simpl. rewrite dict_in_set. now case_decide.
    + intros sl. destruct sl; assumption.
Qed.

(** X19 (what a constructor call leaves behind).  When
    [Definitions(wsdl, location)] returns, the new object is a fresh one;
    the objects that existed are as they were and no namespace has left the
    registry; the log has gained retrievals only, the first of them from
    [location], so that nothing was merged or resolved; the object has the
    location it was built from, the target namespace and the namespace map
    of the document there, and its target namespace is registered; and its
    four maps hold entities that it parsed itself, each under its name:
    what it imports is not in its maps yet. *)
Theorem constructor_contract env n href w o w' :
  Definitions_init env n href w = Returned o w' ->
  o = length (heap w) /\
  (forall x, x < length (heap w) -> obj w' x = obj w x) /\
  (forall k, dict_in k (_definitions w) = true -> dict_in k (_definitions w') = true) /\
  (exists ls, trace w' = (trace w ++ Fetch href :: map Fetch ls)%list) /\
  exists doc,
    lookup_document env href = Some (Some doc) /\
    location (obj w' o) = href /\
    target_namespace (obj w' o) = get doc "targetNamespace" /\
    nsmap (obj w' o) = el_nsmap doc /\
    dict_in (get doc "targetNamespace") (_definitions w') = true /\
    forall s k x, In (k, x) (slot_of s (obj w' o)) -> ent_wsdl x = o /\ ent_name x = k.
Proof.
  intros H. apply Definitions_init_constructed in H.
  destruct H as (F & Htr & doc & Hdoc & Hns & Hreg & Hdecl).
  destruct F as [Hnew Hlen Hold Hregd Hloc (doc' & Hdoc' & Ht')].
  split; [exact Hnew|]. split; [exact Hold|]. split; [exact Hregd|]. split; [exact Htr|].
  exists doc. split; [exact Hdoc|]. split; [exact Hloc|].
  split; [rewrite Ht'; congruence|]. split; [exact Hns|]. split; [exact Hreg|].
  intros s k x Hin. destruct (Hdecl s k x Hin) as (Hw & Hn & _). auto.
Qed.

Lemma constructor_contract_witness :
  0 = length (heap empty_WSDL) /\
  (forall x, x < length (heap empty_WSDL) -> obj chain_loaded x = obj empty_WSDL x) /\
  (forall k, dict_in k (_definitions empty_WSDL) = true ->
             dict_in k (_definitions chain_loaded) = true) /\
  (exists ls, trace chain_loaded = (trace empty_WSDL ++ Fetch "a.wsdl" :: map Fetch ls)%list) /\
  exists doc,
    lookup_document chain_env "a.wsdl" = Some (Some doc) /\
    location (obj chain_loaded 0) = "a.wsdl" /\
    target_namespace (obj chain_loaded 0) = get doc "targetNamespace" /\
    nsmap (obj chain_loaded 0) = el_nsmap doc /\
    dict_in (get doc "targetNamespace") (_definitions chain_loaded) = true /\
    forall s k x, In (k, x) (slot_of s (obj chain_loaded 0)) -> ent_wsdl x = 0 /\ ent_name x = k.
Proof.
  apply (constructor_contract chain_env 4 "a.wsdl" empty_WSDL 0 chain_loaded).
  vm_compute. reflexivity.
Defined.

(** * What has been resolved *)

(** An object without pending imports that is resolved stays so. *)
Lemma resolved_later v v' b :
  resolve_frame v v' -> (exists tr, trace v' = (trace v ++ tr)%list) ->
  imports (obj v b) = [] -> resolved v b -> resolved v' b.
Proof.
  intros F (tr & Ht) Hnil Hb s k e Hin.
  rewrite (fr_done _ _ F b Hnil) in Hin. rewrite Ht. apply in_or_app. left. eapply Hb; eauto.
Qed.

Lemma imports_resolved_refl w : imports_resolved w w.
Proof. intros x Hne Hnil. congruence. Qed.

Lemma imports_resolved_trans w1 w2 w3 :
  resolve_frame w1 w2 -> resolve_frame w2 w3 ->
  (exists tr, trace w3 = (trace w2 ++ tr)%list) ->
  imports_resolved w1 w2 -> imports_resolved w2 w3 -> imports_resolved w1 w3.
Proof.
  intros F12 F23 E23 M12 M23 x Hne Hnil ns b Hin.
  destruct (fr_imports _ _ F12 x) as [Heq | Hcl].
  - rewrite <- Heq in Hne, Hin. exact (M23 x Hne Hnil ns b Hin).
  - destruct (M12 x Hne Hcl ns b Hin) as [Hb Hr]. split.
    + rewrite (fr_done _ _ F23 b Hb). exact Hb.
    + eapply resolved_later; eauto.
Qed.

Lemma chain_resolves l w w' :
  chain resolves l w w' ->
  resolve_frame w w' /\ (exists tr, trace w' = (trace w ++ tr)%list) /\
  imports_resolved w w' /\
  forall b, In b l -> imports (obj w' b) = [] /\ resolved w' b.
Proof.
  induction 1 as [w | x l w w1 w2 (F & E & Hx & Hr & M) _ (F' & E' & M' & Hl)].
  - split; [apply resolve_frame_refl|]. split; [exists []; now rewrite app_nil_r|].
    split; [apply imports_resolved_refl|]. intros b [].
  - split; [eapply resolve_frame_trans; eauto|]. split.
    { destruct E as (t1 & H1). destruct E' as (t2 & H2). exists (t1 ++ t2)%list.
      now rewrite H2, H1, app_assoc. }
    split; [eapply imports_resolved_trans; eauto|].
    intros b [<-|Hb]; [|now apply Hl]. split.
    + rewrite (fr_done _ _ F' x Hx). exact Hx.
    + eapply resolved_later; eauto.
Qed.

Lemma resolve_imports_resolves {env} n self w w' :
  resolve_imports env n self w = Returned tt w' -> resolves self w w'.
Proof.
  revert n self w w'. apply (resolve_imports_rel resolves).
  intros self w w2 _ Hchain.
  set (w1 := update self (set_imports []) (merge_all_state self (imports (obj w self)) w))
    in *.
  pose proof (resolve_frame_merge self w) as Hm. fold w1 in Hm.
  destruct (chain_resolves _ _ _ Hchain) as (Hc & (trc & Htc) & Mc & Hl).
  destruct (merge_all_state_frame self (imports (obj w self)) w)
    as (Hlen & _ & _ & _ & Htr & Hother & Himp & _).
  assert (Hnil1 : imports (obj w1 self) = []).
  { unfold w1. rewrite obj_update. case_decide as Hx; [reflexivity|].
    rewrite Himp. destruct (decide (self < length (heap w))) as [Hlt|Hge].
    - exfalso. apply Hx. split; [reflexivity | lia].
    - rewrite obj_dangling by lia. reflexivity. }
  assert (Hext : exists tr, trace (logs (resolve_events self (obj w2 self)) w2)
                            = (trace w ++ tr)%list).
  { exists (merge_events self (imports (obj w self)) ++ trc
            ++ resolve_events self (obj w2 self))%list.
    simpl. rewrite Htc. unfold w1 at 1. simpl. rewrite Htr.
    unfold merge_events. now rewrite <- !app_assoc. }
  assert (Hlater : forall b, imports (obj w2 b) = [] -> resolved w2 b ->
            imports (obj (logs (resolve_events self (obj w2 self)) w2) b) = [] /\
            resolved (logs (resolve_events self (obj w2 self)) w2) b).
  { intros b Hb Hr. split; [now rewrite obj_logs|].
    intros s k e Hin. rewrite obj_logs in Hin. simpl. apply in_or_app. left.
    eapply Hr; eauto. }
  split; [|split; [exact Hext|split; [|split]]].
  - eapply resolve_frame_trans; [exact Hm|].
    eapply resolve_frame_trans; [exact Hc|].
    apply resolve_frame_logs, loads_resolve_events.
  - rewrite obj_logs. rewrite (fr_done _ _ Hc self Hnil1). exact Hnil1.
  - intros s k e Hin. rewrite obj_logs in Hin. simpl. apply in_or_app. right.
    assert (He : In e (dict_values (slot_of s (obj w2 self)))).
    { unfold dict_values. apply (in_map snd _ _ Hin). }
    unfold resolve_events. rewrite !in_app_iff.
    destruct s; simpl in He;
      [left | right; left | right; right; left | right; right; right];
      apply (in_map (fun x => Resolve x self) _ _ He).
  - intros x Hne Hnil ns b Hin. rewrite obj_logs in Hnil.
    apply Hlater.
    + destruct (decide (x = self)) as [->|Hx].
      * apply Hl. unfold dict_values. apply (in_map snd _ _ Hin).
      * assert (Hsame : imports (obj w1 x) = imports (obj w x)).
        { unfold w1. rewrite obj_update_ne by congruence. now rewrite Hother. }
        rewrite <- Hsame in Hne, Hin. exact (proj1 (Mc x Hne Hnil ns b Hin)).
    + destruct (decide (x = self)) as [->|Hx].
      * apply Hl. unfold dict_values. apply (in_map snd _ _ Hin).
      * assert (Hsame : imports (obj w1 x) = imports (obj w x)).
        { unfold w1. rewrite obj_update_ne by congruence. now rewrite Hother. }
        rewrite <- Hsame in Hne, Hin. exact (proj2 (Mc x Hne Hnil ns b Hin)).
Qed.

(** X20 (everything that is reached is resolved).  After [resolve_imports]
    on a Definitions [a], [resolve] has been called, with the Definitions
    that holds it as argument, for every entry of the four maps of every
    Definitions reached from [a] along pending imports: the entries that
    [a] declares, those of the documents it imports, directly or not, and
    the entries that each of them gained by merging. *)
Theorem reached_is_resolved env n a w w' x s k e :
  resolve_imports env n a w = Returned tt w' ->
  reachable w a x ->
  In (k, e) (slot_of s (obj w' x)) ->
  In (Resolve e x) (trace w').
Proof.
  intros H Hx. pose proof (resolve_imports_resolves _ _ _ _ H) as (F & _ & _ & Ha & M).
  revert s k e. change (resolved w' x).
  destruct Hx as [|y ns b Hy Hin]; [exact Ha|].
  assert (Hne : imports (obj w y) <> []) by (intros Hn; rewrite Hn in Hin; destruct Hin).
  pose proof (resolve_imports_reaches _ _ _ _ _ H Hy) as Hnil.
  exact (proj2 (M y Hne Hnil ns b Hin)).
Qed.

Lemma reached_is_resolved_witness :
  In (Resolve (Entity AbstractMessage "{urn:c}x" 2) 1) (trace chain_resolved).
Proof.
  apply (reached_is_resolved chain_env 4 0 chain_loaded chain_resolved 1 Messages "{urn:c}x").
  - vm_compute. reflexivity.
  - apply (reachable_import chain_loaded 0 0 (Some "urn:b") 1); [constructor|].
    vm_compute. left. reflexivity.
  - vm_compute. right. left. reflexivity.
Defined.

(** * Imports of registered namespaces *)

Lemma dict_in_get_Some {K V} `{EqDecision K} (k : K) (d : dict K V) :
  dict_in k d = true -> exists v, dict_get k d = Some v.
Proof. unfold dict_in. destruct (dict_get k d) as [v|]; [now exists v | discriminate]. Qed.

(** X21 (a registered namespace is not retrieved again).  When every import
    element of a document names a namespace that is registered, or the
    target namespace of the document itself, constructing its Definitions
    retrieves that one document and creates that one object, whatever is
    behind the locations of the import elements; the registry gains the
    target namespace of the document only, and every pending import of the
    new object is the object that the registry holds for its namespace. *)
Theorem registered_imports_are_reused env n href doc w o w' :
  lookup_document env href = Some (Some doc) ->
  (forall node, In node (findall doc import_tag_wsdl) ->
     dict_in (get node "namespace")
       (dict_set (get doc "targetNamespace") (length (heap w)) (_definitions w)) = true) ->
  Definitions_init env (S n) href w = Returned o w' ->
  length (heap w') = S (length (heap w)) /\
  trace w' = (trace w ++ [Fetch href])%list /\
  _definitions w'
  = dict_set (get doc "targetNamespace") (length (heap w)) (_definitions w) /\
  forall ns b, In (ns, b) (imports (obj w' o)) -> dict_get ns (_definitions w') = Some b.
Proof.
  intros Hdoc Hreg H. rewrite Definitions_init_S, Hdoc in H.
  destruct (parse_imports _ _ _ _) as [[] w1| |] eqn:Himp; try discriminate.
  set (self := length (heap w)) in *.
  set (R := dict_set (get doc "targetNamespace") self (_definitions w)) in *.
  assert (Hinv : length (heap w1) = S self /\ trace w1 = (trace w ++ [Fetch href])%list /\
                 _definitions w1 = R /\
                 forall ns b, In (ns, b) (imports (obj w1 self)) -> dict_get ns R = Some b).
  { unfold parse_imports in Himp.
    change (QName NSMAP_wsdl "import") with import_tag_wsdl in Himp.
    revert Himp.
    apply (for_each_Returned
             (fun v => length (heap v) = S self /\ trace v = (trace w ++ [Fetch href])%list /\
                       _definitions v = R /\
                       forall ns b, In (ns, b) (imports (obj v self)) -> dict_get ns R = Some b)).
    - intros node v v' Hnode (Hl & Ht & Hr & Hi) Hstep. rewrite parse_import_spec in Hstep.
      destruct (get node "location") as [hr|]; [|discriminate].
      specialize (Hreg node Hnode). rewrite Hr in Hstep.
      destruct (dict_in_get_Some _ _ Hreg) as [r Hget].
      change (dict_get (V:=oid) (get node "namespace") R = Some r) in Hget.
      rewrite Hget in Hstep. injection Hstep as <-.
      split; [now rewrite length_heap_update|]. split; [exact Ht|]. split; [exact Hr|].
      intros ns b Hin. rewrite obj_update_eq in Hin by lia. simpl in Hin.
      apply In_dict_set in Hin. destruct Hin as [Heq|Hin]; [|now apply Hi].
      inversion Heq; subst. exact Hget.
    - split; [unfold begin_load; simpl; rewrite length_app; simpl; unfold self; lia|].
      split; [reflexivity|]. split; [reflexivity|].
      intros ns b Hin. unfold self in Hin. rewrite obj_begin_load_new in Hin. destruct Hin. }
  destruct Hinv as (Hl & Ht & Hr & Hi).
  apply finish_load_inv in H.
  destruct H as (-> & v & w2 & m & p & b & s & Hv & _ & _ & _ & _ & ->).
  destruct (parse_types_frame _ _ _ _ Hv) as (Hh & Hr2 & Ht2).
  split; [now rewrite length_heap_update, Hh|].
  split; [change (trace (update self (fill v m p b s) w2)) with (trace w2); congruence|].
  split; [change (_definitions (update self (fill v m p b s) w2)) with (_definitions w2);
          congruence|].
  intros ns c Hin. rewrite obj_update_eq in Hin by (rewrite Hh; lia).
  change (_definitions (update self (fill v m p b s) w2)) with (_definitions w2).
  rewrite Hr2, Hr. apply Hi. unfold obj in *. rewrite Hh in Hin. exact Hin.
Qed.

Lemma registered_imports_are_reused_witness :
  length (heap anonymous_loaded) = S (length (heap empty_WSDL)) /\
  trace anonymous_loaded = (trace empty_WSDL ++ [Fetch "a.wsdl"])%list /\
  _definitions anonymous_loaded
  = dict_set None (length (heap empty_WSDL)) (_definitions empty_WSDL) /\
  forall ns b,
    In (ns, b) (imports (obj anonymous_loaded 0)) ->
    dict_get ns (_definitions anonymous_loaded) = Some b.
Proof.
  apply (registered_imports_are_reused anonymous_env 0 "a.wsdl"
           (wsdl_element "definitions" []
              [wsdl_element "import" [("location", "missing.wsdl")] [];
               named_element "message" "M"])
           empty_WSDL 0 anonymous_loaded).
  - vm_compute. reflexivity.
  - intros node Hin. vm_compute in Hin. destruct Hin as [<-|[]]. vm_compute. reflexivity.
  - vm_compute. reflexivity.
Defined.

(** * The first service *)

Lemma dict_keys_set_hd {K V} `{EqDecision K} (k k0 : K) (v v0 : V) d :
  hd_error (dict_keys (dict_set k v ((k0, v0) :: d))) = Some k0.
Proof. simpl. case_decide; [subst|]; reflexivity. Qed.

Lemma for_fold_keeps_hd {A} (l : list A) (body : dict string entity -> A -> M (dict string entity))
      k0 :
  (forall acc x w r w', hd_error (dict_keys acc) = Some k0 -> body acc x w = Returned r w' ->
                        hd_error (dict_keys r) = Some k0) ->
  forall acc w r w', hd_error (dict_keys acc) = Some k0 ->
    for_fold l acc body w = Returned r w' -> hd_error (dict_keys r) = Some k0.
Proof.
  intros Hb. induction l as [|x l IH]; intros acc w r w' Hacc H; simpl in H.
  - step_in H. exact Hacc.
  - step_in H. eapply IH; [|exact H]. eapply Hb; eauto.
Qed.

Lemma parse_named_hd cls local self doc w m w' node rest :
  parse_named cls local self doc w = Returned m w' ->
  findall doc (QName NSMAP_wsdl local) = node :: rest ->
  exists n, get node "name" = Some n /\
    hd_error (dict_keys m)
    = Some (match target_namespace (obj w self) with Some ns => QName ns n | None => n end).
Proof.
  unfold parse_named. intros H Hnodes. rewrite Hnodes in H. simpl in H.
  step_in H. step_in H0. step_in H0.
  apply entity_parse_inv in H1. destruct H1 as (-> & _ & _ & n & Hn & Hname).
  exists n. split; [exact Hn|]. rewrite <- Hname.
  eapply for_fold_keeps_hd; [| |exact H]; [|reflexivity].
  intros acc x v r v' Hacc Hb. cbv beta in Hb. step_in Hb. cbv beta in Hb.
  step_in Hb.
  destruct acc as [|[k1 v1] acc]; [discriminate|].
  simpl in Hacc. inversion Hacc; subst. apply dict_keys_set_hd.
Qed.

Lemma finish_load_services env self doc w o w' node rest :
  finish_load env self doc w = Returned o w' ->
  self < length (heap w) ->
  findall doc (QName NSMAP_wsdl "service") = node :: rest ->
  exists n, get node "name" = Some n /\
    hd_error (dict_keys (services (obj w' self)))
    = Some (match target_namespace (obj w self) with Some ns => QName ns n | None => n end).
Proof.
  unfold finish_load. intros H Hself Hnodes.
  step_in H. rename a into v, w0 into w2, H0 into Hv.
  destruct (parse_types_frame _ _ _ _ Hv) as (Hh & _).
  assert (Ht2 : target_namespace (obj w2 self) = target_namespace (obj w self)).
  { unfold obj. now rewrite Hh. }
  step_in H. step_in H. apply parse_named_inv in H0. destruct H0 as [_ ->]. rename a into m.
  step_in H. step_in H. apply parse_named_inv in H0. destruct H0 as [_ ->]. rename a into p.
  step_in H. step_in H. apply parse_binding_inv in H0. destruct H0 as [_ ->]. rename a into b.
  step_in H. step_in H.
  destruct (parse_named_hd _ _ _ _ _ _ _ _ _ H0 Hnodes) as (n & Hn & Hhd).
  rewrite !target_namespace_update, Ht2 in Hhd by reflexivity.
  apply parse_named_inv in H0. destruct H0 as [_ ->]. rename a into s.
  step_in H. step_in H.
  exists n. split; [exact Hn|]. rewrite obj_update_eq.
  - exact Hhd.
  - rewrite !length_heap_update, Hh. exact Hself.
Qed.

(** X22 (the first service).  When the root document declares services,
    the first key of [services] in the model that [WSDL(location,
    transport)] returns is the qualified name of the first service element
    of the root document, whatever the imported documents declare. *)
Theorem first_service env fuel root_location root w doc node rest :
  WSDL_init env fuel root_location = Returned root w ->
  lookup_document env root_location = Some (Some doc) ->
  findall doc (QName NSMAP_wsdl "service") = node :: rest ->
  exists n, get node "name" = Some n /\
    hd_error (dict_keys (services (obj w root)))
    = Some (match get doc "targetNamespace" with Some ns => QName ns n | None => n end).
Proof.
  intros H Hdoc Hnodes. apply WSDL_init_Returned in H. destruct H as (w0 & Hload & Hres).
  destruct fuel as [|n0]; [discriminate|].
  pose proof (Definitions_init_frame _ _ _ _ _ _ Hload) as [Hnew Hlen _ _ _ _].
  simpl in Hnew, Hlen. subst root.
  rewrite Definitions_init_S, Hdoc in Hload.
  destruct (parse_imports _ _ _ _) as [[] w1| |] eqn:Himp; try discriminate.
  assert (Hchain : import_chain (load_frame env) 0 (findall doc import_tag_wsdl)
                     (begin_load root_location doc empty_WSDL) w1).
  { eapply parse_imports_chain; [|exact Himp].
    intros l v o v'. apply Definitions_init_frame. }
  destruct (import_chain_frame env _ _ _ _ Hchain) as (H1 & _ & _ & H4 & _).
  { simpl. lia. }
  simpl in H1. change 0 with (length (heap empty_WSDL)) in H4 at 3.
  rewrite obj_begin_load_new in H4.
  destruct (finish_load_services _ _ _ _ _ _ _ _ Hload ltac:(simpl in *; lia) Hnodes)
    as (n & Hn & Hhd).
  change (length (heap empty_WSDL)) with 0 in Hhd. rewrite H4 in Hhd.
  change (target_namespace (set_imports _ _)) with (get doc "targetNamespace") in Hhd.
  exists n. split; [exact Hn|].
  rewrite (resolve_imports_self _ _ _ _ Hres Hlen).
  change (services (set_imports [] ?d)) with (slot_of Services d).
  destruct (merge_all_state_order 0 (imports (obj w0 0)) w0 Services Hlen) as (added & Hk & _).
  rewrite Hk. simpl.
  destruct (dict_keys (services (obj w0 0))) as [|k ks]; [discriminate|]. exact Hhd.
Qed.

Lemma first_service_witness :
  exists n, get (named_element "service" "S1") "name" = Some n /\
    hd_error (dict_keys (services (obj service_resolved 0)))
    = Some (match get service_doc "targetNamespace" with
            | Some ns => QName ns n
            | None => n
            end).
Proof.
  apply (first_service service_env 3 "a.wsdl" 0 service_resolved service_doc
           (named_element "service" "S1") [named_element "service" "S2"]);
    vm_compute; reflexivity.
Defined.

(** * When [resolve_imports] returns *)




(** * Merging and resolving, in the log and in the maps *)

(** The state in which a call makes its calls of [resolve]. *)
Lemma resolve_imports_before_resolve {env} n self w w' :
  resolve_imports env n self w = Returned tt w' ->
  exists mid w2,
    w' = logs (resolve_events self (obj w2 self)) w2 /\
    trace w2 = (trace w ++ merge_events self (imports (obj w self)) ++ mid)%list /\
    obj w2 self
    = obj (update self (set_imports [])
             (merge_all_state self (imports (obj w self)) w)) self.
Proof.
  intros H. apply resolve_imports_inv in H. cbv zeta in H.
  destruct H as (m & w2 & -> & Hreg & Hrec & -> & Hf & Hobj).
  assert (Hl : log_ok (update self (set_imports [])
                         (merge_all_state self (imports (obj w self)) w)) w2).
  { eapply (chain_log_ok (fun x v v' => resolve_frame v v' /\ log_ok v v')); [auto|].
    eapply for_each_chain; [|exact Hrec].
    intros x v v' Hx. now apply resolve_imports_log in Hx. }
  destruct Hl as (mid & Ht & _).
  destruct (merge_all_state_frame self (imports (obj w self)) w)
    as (_ & _ & _ & _ & Htr & _).
  exists mid, w2. split; [reflexivity|]. split; [|exact Hobj].
  rewrite Ht. simpl. rewrite Htr. unfold merge_events. now rewrite <- app_assoc.
Qed.

(** C4, amended (merge before resolve).  A call of [resolve_imports] on a
    Definitions first merges all its pending imports, in their order, makes
    the recursive calls, and ends with the calls of [resolve] on its
    messages, then its port types, then its bindings, then its services.
    In the state [w2] in which these last calls are made the Definitions has
    no pending import, its maps hold exactly the keys it had and the keys
    that its imports had under the namespace they were imported with, and
    every one of these calls finds its references.  In the whole log,
    recursive calls included, a call of [resolve] with some Definitions [d]
    comes after the merge into [d] of every import that was pending on
    [d]. *)
Theorem merge_before_resolve env n self w w' :
  resolve_imports env n self w = Returned tt w' ->
  exists mid w2,
    let tr :=
      (merge_events self (imports (obj w self)) ++ mid
       ++ map (fun x => Resolve x self) (dict_values (messages (obj w' self)))
       ++ map (fun x => Resolve x self) (dict_values (port_types (obj w' self)))
       ++ map (fun x => Resolve x self) (dict_values (bindings (obj w' self)))
       ++ map (fun x => Resolve x self) (dict_values (services (obj w' self))))%list in
    trace w' = (trace w ++ tr)%list /\
    (forall i x d, tr !! i = Some (Resolve x d) ->
       forall ns b, In (ns, b) (imports (obj w d)) ->
       exists j, j < i /\ tr !! j = Some (Merge d b ns)) /\
    trace w2 = (trace w ++ merge_events self (imports (obj w self)) ++ mid)%list /\
    heap w' = heap w2 /\
    imports (obj w2 self) = [] /\
    (forall s k,
       dict_in k (slot_of s (obj w2 self)) = true <->
       dict_in k (slot_of s (obj w self)) = true \/
       exists ns b, In (ns, b) (imports (obj w self)) /\
                    in_namespace ns k = true /\
                    dict_in k (slot_of s (obj w b)) = true) /\
    (forall x, In x (resolve_targets (obj w2 self)) ->
               entity_resolve env x (obj w2 self) = true).
Proof.
  intros H. destruct (resolve_imports_before_resolve _ _ _ _ H) as (mid & w2 & Hw' & Ht2 & Hobj).
  exists mid, w2. cbv zeta.
  assert (Ht : trace w' = (trace w ++ merge_events self (imports (obj w self)) ++ mid
                           ++ resolve_events self (obj w' self))%list).
  { rewrite Hw' at 1. simpl. rewrite Ht2, Hw', obj_logs. now rewrite <- !app_assoc. }
  split; [exact Ht|]. split.
  { destruct (resolve_imports_log _ _ _ _ H) as (_ & tr & Ht' & Hm & _).
    rewrite Ht' in Ht. apply app_inv_head in Ht. subst tr. exact Hm. }
  split; [exact Ht2|]. split; [now rewrite Hw'|].
  assert (Hsame : obj w' self = obj w2 self) by now rewrite Hw', obj_logs.
  rewrite <- Hsame.
  split; [apply (resolve_imports_frame _ _ _ _ H)|]. split.
  - intros s k. destruct (decide (self < length (heap w))) as [Hlt|Hge].
    + rewrite (resolve_imports_self _ _ _ _ H Hlt).
      replace (slot_of s (set_imports [] (obj (merge_all_state self (imports (obj w self)) w)
                                            self)))
        with (slot_of s (obj (merge_all_state self (imports (obj w self)) w) self))
        by (destruct s; reflexivity).
      now apply merge_all_state_keys.
    + destruct (resolve_imports_dangling _ _ _ _ H Hge) as [-> ->]. simpl.
      split; [now left | intros [Hk | (ns & b & [] & _)]; exact Hk].
  - pose proof (resolve_imports_resolvable _ _ _ _ H) as Hok.
    unfold resolvable in Hok. rewrite forallb_forall in Hok. exact Hok.
Qed.

Lemma merge_before_resolve_witness :
  exists mid w2,
    let tr :=
      (merge_events 0 (imports (obj chain_loaded 0)) ++ mid
       ++ map (fun x => Resolve x 0) (dict_values (messages (obj chain_resolved 0)))
       ++ map (fun x => Resolve x 0) (dict_values (port_types (obj chain_resolved 0)))
       ++ map (fun x => Resolve x 0) (dict_values (bindings (obj chain_resolved 0)))
       ++ map (fun x => Resolve x 0) (dict_values (services (obj chain_resolved 0))))%list in
    trace chain_resolved = (trace chain_loaded ++ tr)%list /\
    (forall i x d, tr !! i = Some (Resolve x d) ->
       forall ns b, In (ns, b) (imports (obj chain_loaded d)) ->
       exists j, j < i /\ tr !! j = Some (Merge d b ns)) /\
    trace w2 = (trace chain_loaded ++ merge_events 0 (imports (obj chain_loaded 0)) ++ mid)%list /\
    heap chain_resolved = heap w2 /\
    imports (obj w2 0) = [] /\
    (forall s k,
       dict_in k (slot_of s (obj w2 0)) = true <->
       dict_in k (slot_of s (obj chain_loaded 0)) = true \/
       exists ns b, In (ns, b) (imports (obj chain_loaded 0)) /\
                    in_namespace ns k = true /\
                    dict_in k (slot_of s (obj chain_loaded b)) = true) /\
    (forall x, In x (resolve_targets (obj w2 0)) ->
               entity_resolve chain_env x (obj w2 0) = true).
Proof.
  apply (merge_before_resolve chain_env 4 0 chain_loaded chain_resolved).
  vm_compute. reflexivity.
Defined.

(** C4 as stated fails for the document that declares an entity, on
    documents whose imports are coherent.  In the load of a.wsdl, which imports b.wsdl and c.wsdl, where b.wsdl imports
    a.wsdl back and c.wsdl imports d.wsdl, the call of [resolve_imports] on
    the object of b.wsdl enters the object of a.wsdl again, which has the
    message of c.wsdl in its map by then, and [resolve] is called on that
    message before d.wsdl, the pending import of c.wsdl, is merged into the
    object of c.wsdl. *)
Lemma resolve_before_own_imports_merged :
  coherent branch_env /\
  Definitions_init branch_env 4 "a.wsdl" empty_WSDL = Returned 0 branch_loaded /\
  WSDL_init branch_env 4 "a.wsdl" = Returned 0 branch_resolved /\
  dict_get "{urn:c}Mc" (messages (obj branch_loaded 2))
    = Some (Entity AbstractMessage "{urn:c}Mc" 2) /\
  imports (obj branch_loaded 2) = [(Some "urn:d", 3)] /\
  trace branch_resolved !! 9 = Some (Resolve (Entity AbstractMessage "{urn:c}Mc" 2) 0) /\
  trace branch_resolved !! 12 = Some (Merge 2 3 (Some "urn:d")) /\
  ~ In (Merge 2 3 (Some "urn:d")) (take 12 (trace branch_resolved)).
Proof.
  split.
  { intros location doc node href doc' Hdoc Hnode Hhref Hdoc'.
    unfold lookup_document in Hdoc. destruct (is_http location); [discriminate|].
    cbn in Hdoc. repeat case_decide; try discriminate; subst; inversion Hdoc; subst doc;
      vm_compute in Hnode; decompose [or] Hnode; try contradiction; subst node;
      vm_compute in Hhref; inversion Hhref; subst href;
      vm_compute in Hdoc'; inversion Hdoc'; subst doc'; reflexivity. }
  repeat split; try (vm_compute; reflexivity).
  vm_compute. intros H. decompose [or] H; try discriminate; assumption.
Qed.

(** * One call of [resolve] per entry, on a tree of imports *)
















